(** * Reportes de Rodaje: the PDF layout engine of [app.py]

    A shallow embedding of the layout code of [ReportApp.export_pdf]
    (word wrapping, the rich-text offset wrapper, the run segmenter, the
    row-height calculator and the page loops) and of the record defaults of
    [ReportApp.default_report] / [ReportApp.open_report].

    Conventions of the embedding:
    - a Python [str] that is wrapped or measured is a [list ascii] (a sequence
      of code points); dictionary keys and page titles are [string]s;
    - lengths on the page (points, ReportLab floats) are rationals [Q];
      [inch] is 72 points, as in [reportlab.lib.units];
    - [pdf_canvas.stringWidth] is ReportLab's metric: the sum of the advance
      widths of the characters in the font at the size. The table of advance
      widths is a parameter [glyph_width] of the definitions;
    - the drawing calls on the canvas are recorded as a list of commands per
      page; [showPage] closes the page. *)

From Stdlib Require Import ZArith QArith Qminmax Lqa String Ascii List Lia Decimal DecimalString.
From stdpp Require Import base list gmap strings.

Import ListNotations.
Local Open Scope nat_scope.
Local Open Scope list_scope.

(* ===================================================================== *)
(** * Part I. The program                                                  *)
(* ===================================================================== *)

(** ** Strings *)

Abbreviation str := (list ascii).

Definition chars (x : string) : str := list_ascii_of_string x.

Definition SPACE : ascii := Ascii.ascii_of_nat 32.
Definition TAB : ascii := Ascii.ascii_of_nat 9.
Definition NEWLINE : ascii := Ascii.ascii_of_nat 10.
Definition SLASH : ascii := Ascii.ascii_of_nat 47.

(** [str.isspace] on one code point below 256: the characters that
    [str.strip()] removes. *)
Definition isspace (c : ascii) : bool :=
  let n := Ascii.nat_of_ascii c in
  ((9 <=? n) && (n <=? 13)) || ((28 <=? n) && (n <=? 32)) || (n =? 133) || (n =? 160).

Fixpoint lstrip (x : str) : str :=
  match x with
  | c :: x' => if isspace c then lstrip x' else x
  | [] => []
  end.

Definition rstrip (x : str) : str := rev (lstrip (rev x)).

(** [x.strip()] *)
Definition strip (x : str) : str := rstrip (lstrip x).

(** [x.replace("\t", " ")] *)
Definition replace_tabs (x : str) : str :=
  map (fun c => if Ascii.eqb c TAB then SPACE else c) x.

(** [x.split(" ")]: the pieces between single spaces, empty pieces kept. *)
Fixpoint split_space_aux (x : str) (cur : str) : list str :=
  match x with
  | [] => [rev cur]
  | c :: x' => if Ascii.eqb c SPACE then rev cur :: split_space_aux x' []
               else split_space_aux x' (c :: cur)
  end.

Definition split_space (x : str) : list str := split_space_aux x [].

(** Truth value of a string: [bool(x)], false on the empty string only. *)
Definition truthy (x : str) : bool :=
  match x with [] => false | _ => true end.

(** ** Metrics provider *)

Section Metrics.

(** [glyph_width font size c]: advance width of [c] in [font] at [size]. *)
Variable glyph_width : string -> Q -> ascii -> Q.

(** [pdf_canvas.stringWidth(x, font_name, font_size)] *)
Definition stringWidth (x : str) (font_name : string) (font_size : Q) : Q :=
  fold_right (fun c acc => glyph_width font_name font_size c + acc)%Q 0%Q x.

(** ** Word wrapper: [wrap_lines] *)

(** The two variables the closures [flush] and [add_token] share. *)
Record wrap_state := WrapState { lines : list str; cur : str }.

Definition flush (st : wrap_state) : wrap_state :=
  WrapState
    (if truthy (strip (cur st)) then lines st ++ [strip (cur st)] else lines st)
    [].

(** One round of the character loop that cuts an over-wide token:
    the state is the lines so far and [buf]. *)
Definition cut_step (font_name : string) (font_size max_width : Q)
    (acc : list str * str) (ch : ascii) : list str * str :=
  let '(ls, buf) := acc in
  let candidate := buf ++ [ch] in
  if Qle_bool (stringWidth candidate font_name font_size) max_width
  then (ls, candidate)
  else ((if truthy buf then ls ++ [buf] else ls), [ch]).

Definition add_token (font_name : string) (font_size max_width : Q)
    (tok : str) (st : wrap_state) : wrap_state :=
  let test := strip (cur st ++ SPACE :: tok) in
  if Qle_bool (stringWidth test font_name font_size) max_width
  then WrapState (lines st) test
  else
    let st1 := if truthy (cur st) then flush st else st in
    if Qle_bool (stringWidth tok font_name font_size) max_width
    then WrapState (lines st1) tok
    else
      let '(ls, buf) :=
        fold_left (cut_step font_name font_size max_width) tok (lines st1, []) in
      WrapState (if truthy buf then ls ++ [buf] else ls) (cur st1).

Definition wrap_lines (text : str) (font_name : string) (font_size max_width : Q)
    : list str :=
  let x := strip (replace_tabs text) in
  if negb (truthy x) then [[]]
  else
    let words := split_space x in
    let st :=
      fold_left
        (fun st w => if negb (truthy w) then st
                     else add_token font_name font_size max_width w st)
        words (WrapState [] []) in
    let st' := flush st in
    match lines st' with
    | [] => [[]]
    | _ => lines st'
    end.

End Metrics.

(** A fixed-pitch metric used in the examples: every character of every
    font is [size / 2] wide. *)
Definition mono_width (_ : string) (size : Q) (_ : ascii) : Q := (size / 2)%Q.

(** ** Rich text: styles by offset ranges *)

Inductive style := StN | StB | StI | StBI.

Definition style_eqb (a b : style) : bool :=
  match a, b with
  | StN, StN | StB, StB | StI, StI | StBI, StBI => true
  | _, _ => false
  end.

(** [any(a <= off < b2 for a, b2 in ranges)] *)
Definition in_ranges (ranges : list (Z * Z)) (off : Z) : bool :=
  existsb (fun r => (fst r <=? off)%Z && (off <? snd r)%Z) ranges.

(** The payload of the report editor:
    [{"text": ..., "bold_ranges": [[s, e], ...], "italic_ranges": [...]}]. *)
Record payload := Payload {
  text : str;
  bold_ranges : list (Z * Z);
  italic_ranges : list (Z * Z)
}.

Definition style_for_offset (p : payload) (off : Z) : style :=
  let b := in_ranges (bold_ranges p) off in
  let i := in_ranges (italic_ranges p) off in
  if b && i then StBI else if b then StB else if i then StI else StN.

(** [font_for_style], with [has_unicode] the result of
    [register_unicode_fonts()]. [None] is the style of an empty line. *)
Definition font_for_style (has_unicode : bool) (st : option style) : string :=
  match st with
  | Some StB => if has_unicode then "DJV-B" else "Helvetica-Bold"
  | Some StI => if has_unicode then "DJV-I" else "Helvetica-Oblique"
  | Some StBI => if has_unicode then "DJV-BI" else "Helvetica-BoldOblique"
  | _ => if has_unicode then "DJV" else "Helvetica"
  end.

(** One [safe_draw_string] of [draw_rich_line]: a run, its style, and the
    abscissa it is drawn at. *)
Record run := Run { run_x : Q; run_text : str; run_style : option style }.

(** The variables of [draw_rich_line]: [cx], [cur_run], [cur_style], and the
    runs drawn so far. *)
Record rich_state := RichState {
  cx : Q;
  cur_run : str;
  cur_style : option style;
  drawn : list run
}.

Section RichText.

Variable glyph_width : string -> Q -> ascii -> Q.
Variable has_unicode : bool.
Variable p : payload.

(** The inner [flush(run, st)] of [draw_rich_line]: draws nothing for an
    empty run, else draws the run at [cx] and advances [cx] by its width. *)
Definition flush_run (fs : Q) (r : str) (st : option style) (cx0 : Q)
    (out : list run) : Q * list run :=
  if negb (truthy r) then (cx0, out)
  else
    let fn := font_for_style has_unicode st in
    ((cx0 + stringWidth glyph_width r fn fs)%Q, out ++ [Run cx0 r st]).

(** The body of the loop [for j, ch in enumerate(line_text)], with [off]
    the offset [line_start_offset + j] of [ch]. *)
Definition rich_step (fs : Q) (off : Z) (ch : ascii) (st : rich_state)
    : rich_state :=
  let sty := style_for_offset p off in
  match cur_style st with
  | None => RichState (cx st) [ch] (Some sty) (drawn st)
  | Some cs =>
      if style_eqb sty cs
      then RichState (cx st) (cur_run st ++ [ch]) (cur_style st) (drawn st)
      else
        let '(cx', out) :=
          flush_run fs (cur_run st) (cur_style st) (cx st) (drawn st) in
        RichState cx' [ch] (Some sty) out
  end.

Fixpoint rich_loop (fs : Q) (line_text : str) (off : Z) (st : rich_state)
    : rich_state :=
  match line_text with
  | [] => st
  | ch :: rest => rich_loop fs rest (off + 1)%Z (rich_step fs off ch st)
  end.

(** [draw_rich_line(line_text, line_start_offset, x, y, fs)]: the runs it
    draws, in order (all at height [y]). *)
Definition draw_rich_line (line_text : str) (line_start_offset : Z) (x fs : Q)
    : list run :=
  let st := rich_loop fs line_text line_start_offset (RichState x [] None []) in
  snd (flush_run fs (cur_run st) (cur_style st) (cx st) (drawn st)).

(** ** Offset-indexed wrapper: [wrap_text_with_offsets] *)

(** Index of the first [c] in [x]; [None] is Python's [-1]. *)
Fixpoint index_of (c : ascii) (x : str) : option nat :=
  match x with
  | [] => None
  | d :: x' => if Ascii.eqb d c then Some 0 else option_map S (index_of c x')
  end.

(** [x.find(c, start)] *)
Definition find_from (c : ascii) (x : str) (start : nat) : option nat :=
  option_map (Nat.add start) (index_of c (drop start x)).

(** The [while i < len(para)] loop: [rest] is [para[i:]]; the result is
    [(best_cut, last_space)] on exit. *)
Fixpoint scan_fit (font_name : string) (font_size max_w : Q) (para rest : str)
    (i best_cut : nat) (last_space : Z) : nat * Z :=
  match rest with
  | [] => (best_cut, last_space)
  | c :: rest' =>
      let last_space' := if Ascii.eqb c SPACE then Z.of_nat i else last_space in
      if Qle_bool (stringWidth glyph_width (take (i + 1) para) font_name font_size) max_w
      then scan_fit font_name font_size max_w para rest' (i + 1) (i + 1) last_space'
      else (best_cut, last_space')
  end.

(** Number of spaces at the head of [x]: how far the loop
    [while next_off < para_end and text[next_off] == " "] advances when
    [x] is [text[next_off:para_end]]. *)
Fixpoint leading_spaces (x : str) : nat :=
  match x with
  | c :: x' => if Ascii.eqb c SPACE then S (leading_spaces x') else 0
  | [] => 0
  end.

(** The result [(line, line_start, next_off)]; [None] is Python's [None]. *)
Definition wrap_text_with_offsets (start_offset : nat) (max_w : Q)
    (font_name : string) (font_size : Q) : option str * option nat * nat :=
  let n := length (text p) in
  if n <=? start_offset then (None, None, n)
  else if Ascii.eqb (nth start_offset (text p) SPACE) NEWLINE
  then (Some [], Some start_offset, start_offset + 1)
  else
    let nl := find_from NEWLINE (text p) start_offset in
    let para_end := match nl with None => n | Some k => k end in
    let para := take (para_end - start_offset) (drop start_offset (text p)) in
    let '(best_cut, last_space) :=
      scan_fit font_name font_size max_w para para 0 0 (-1)%Z in
    if best_cut =? length para then
      let next_off := match nl with None => para_end | Some _ => para_end + 1 end in
      (Some para, Some start_offset, next_off)
    else if (0 <? last_space)%Z then
      let ls := Z.to_nat last_space in
      let line := take ls para in
      let next_off := start_offset + ls + 1 in
      let next_off := next_off + leading_spaces (drop (ls + 1) para) in
      (Some line, Some start_offset, next_off)
    else
      let cut := Nat.max 1 best_cut in
      (Some (take cut para), Some start_offset, start_offset + cut).

(** Repeated calls from [start_offset] until the wrapper answers [None]:
    the triples [(line, line_start, next_off)] in order. [None] when the
    fuel runs out first. *)
Fixpoint wrap_all (fuel : nat) (start_offset : nat) (max_w : Q)
    (font_name : string) (font_size : Q) : option (list (str * nat * nat)) :=
  match fuel with
  | 0 => None
  | S fuel' =>
      match wrap_text_with_offsets start_offset max_w font_name font_size with
      | (Some line, Some line_start, next_off) =>
          option_map (cons (line, line_start, next_off))
            (wrap_all fuel' next_off max_w font_name font_size)
      | (_, _, _) => Some []
      end
  end.

End RichText.

(** ** Page geometry *)

Local Open Scope Q_scope.

Definition inch : Q := 72.
(** [LETTER = (8.5 * inch, 11 * inch)] *)
Definition width : Q := 612.
Definition height : Q := 792.
Definition left_margin : Q := 0.85 * inch.

(** The decimal text of a non-negative [int], as an f-string prints it. *)
Definition dec (n : nat) : string := NilEmpty.string_of_uint (Nat.to_uint n).

(** ** Rows, days and the commands drawn on a page *)

(** A table row is a [dict] from field names to texts. *)
Abbreviation row := (gmap string str).

(** A day is a [dict] with the keys ["nombre"] and ["rows"]; [None] is an
    absent key. *)
Record day := Day { nombre : option string; rows : option (list row) }.

Inductive cmd :=
| ReportFrame (title : string)
    (** [draw_page(pn)]: background, title and card of a report page *)
| DayHeader (title_text dia_nombre_real : string)
    (** [draw_day_header(title_text, dia_nombre_real)] *)
| TableCard (table_h : Q)
    (** the filled and the stroked [roundRect] of the table card *)
| TableHeader (table_top : Q)
    (** [draw_table_header(table_top)] *)
| DrawString (x y : Q) (t : str) (font : string) (size : Q)
    (** [drawString] / [safe_draw_string] *)
| DrawRow (r : row) (row_hh yrow_top : Q)
    (** rule, separators, badges and wrapped cells of one table row *)
| PageNumber (label : string).
    (** [drawRightString(..., f"Página {page_idx + 1}")] *)

(** The commands between two [showPage()]. *)
Definition page := list cmd.

(** ** The report section: [render_report_pages] *)

Section ReportPages.

Variable glyph_width : string -> Q -> ascii -> Q.
Variable has_unicode : bool.
Variable p : payload.

Definition FONT_N : string := font_for_style has_unicode (Some StN).

Definition card_x : Q := left_margin.
Definition card_w : Q := width - 2 * left_margin.
Definition card_y_top : Q := height - 1.25 * inch.
Definition card_h : Q := height - 2.2 * inch.
Definition text_x : Q := card_x + 0.25 * inch.
Definition text_y_top : Q := card_y_top - 0.35 * inch.
Definition max_w : Q := card_w - 0.5 * inch.
Definition max_h : Q := card_h - 0.55 * inch.
Definition fs : Q := 10.
Definition lh : Q := 0.20 * inch.

(** The title that [draw_page(pn)] prints. *)
Definition report_title (pn : nat) : string :=
  if (pn =? 1)%nat then "Reporte" else ("Reporte (cont. " ++ dec pn ++ ")")%string.

Definition draw_runs (y : Q) (rs : list run) : list cmd :=
  map (fun r => DrawString (run_x r) y (run_text r)
                  (font_for_style has_unicode (run_style r)) fs) rs.

(** The inner loop [while start_off < len(text) and used + lh <= max_h]:
    the commands added to the page and the offset on exit. *)
Fixpoint report_lines (fuel : nat) (start_off : nat) (y used : Q)
    (pg : page) : option (page * nat) :=
  if (start_off <? length (text p))%nat && Qle_bool (used + lh) max_h then
    match fuel with
    | O => None
    | S fuel' =>
        match wrap_text_with_offsets glyph_width p start_off max_w FONT_N fs with
        | (Some line, Some line_start, next_off) =>
            report_lines fuel' next_off (y - lh) (used + lh)
              (pg ++ draw_runs y
                       (draw_rich_line glyph_width has_unicode p line
                          (Z.of_nat line_start) text_x fs))
        | (_, _, next_off) => Some (pg, next_off)
        end
    end
  else Some (pg, start_off).

(** The outer loop [while start_off < len(text)]: one page per round. *)
Fixpoint report_pages (fuel : nat) (start_off page_num : nat)
    : option (list page) :=
  if (start_off <? length (text p))%nat then
    match fuel with
    | O => None
    | S fuel' =>
        match report_lines fuel start_off text_y_top 0 [ReportFrame (report_title page_num)] with
        | Some (pg, start_off') =>
            option_map (cons pg) (report_pages fuel' start_off' (page_num + 1)%nat)
        | None => None
        end
    end
  else Some [].

Definition render_report_pages (fuel : nat) : option (list page) :=
  if negb (truthy (strip (text p)))
  then Some [[ReportFrame (report_title 1);
              DrawString text_x text_y_top (chars "(sin texto)") FONT_N 10]]
  else report_pages fuel 0 1.

End ReportPages.

(** ** The day tables *)

Section DayTables.

Variable glyph_width : string -> Q -> ascii -> Q.

(** Column units of [cols]; the headers are TARJETA, BK B, BK EXPO,
    PROXIES, FILES, PESO, DESGLOSE, COMENTARIOS. *)
Definition col_units : list Q := [2.15; 0.95; 1.05; 1.05; 1.35; 0.95; 1.70; 1.80].

Definition table_x : Q := left_margin.
Definition table_w : Q := width - 2 * left_margin.
Definition total_units : Q := fold_right Qplus 0 col_units.
Definition col_widths : list Q := map (fun u => table_w * (u / total_units)) col_units.
Definition col_width (k : nat) : Q := nth k col_widths 0.

Definition th : Q := 0.42 * inch.
Definition pad_x : Q := 0.14 * inch.
Definition pad_y_cell : Q := 0.10 * inch.
Definition font_body : string := "Helvetica".
Definition font_bold : string := "Helvetica-Bold".
Definition fs_body : Q := 8.4.
Definition fs_tarjeta : Q := 8.6.
Definition line_h : Q := 0.16 * inch.
Definition badge_h : Q := 0.28 * inch.

Definition table_top : Q := height - 1.65 * inch.
Definition bottom_margin : Q := 0.9 * inch.

(** [row_dict.get(key, "")] *)
Definition row_get (r : row) (key : string) : str := default [] (r !! key).

(** [os.path.basename] (POSIX): what follows the last slash. *)
Fixpoint basename_aux (x acc : str) : str :=
  match x with
  | [] => rev acc
  | c :: x' => if Ascii.eqb c SLASH then basename_aux x' [] else basename_aux x' (c :: acc)
  end.

Definition basename (x : str) : str := basename_aux x [].

(** [os.path.basename(row.get("files_path", "")) if row.get("files_path") else ""] *)
Definition files_name_of (r : row) : str :=
  if truthy (row_get r "files_path") then basename (row_get r "files_path") else [].

(** The five wrapped cells of a row, as [compute_row_height] wraps them. *)
Definition row_cells (r : row) : list (list str) :=
  let tarjeta := row_get r "tarjeta" in
  let files_name := files_name_of r in
  let peso := row_get r "peso" in
  let desglose := row_get r "desglose" in
  let comentarios := row_get r "comentarios" in
  [ wrap_lines glyph_width tarjeta font_bold fs_tarjeta (col_width 0 - 2 * pad_x);
    wrap_lines glyph_width files_name font_body fs_body (col_width 4 - 2 * pad_x);
    wrap_lines glyph_width peso font_body fs_body (col_width 5 - 2 * pad_x);
    wrap_lines glyph_width desglose font_body fs_body (col_width 6 - 2 * pad_x);
    wrap_lines glyph_width comentarios font_body fs_body (col_width 7 - 2 * pad_x) ].

(** [max(len(lines_tarjeta), ..., len(lines_com), 1)] *)
Definition max_lines (r : row) : nat :=
  fold_right Nat.max 1%nat (map (@length str) (row_cells r)).

Definition h_text (r : row) : Q := inject_Z (Z.of_nat (max_lines r)) * line_h + 2 * pad_y_cell.
Definition h_badge_min : Q := badge_h + 2 * pad_y_cell.
Definition absolute_floor : Q := 0.46 * inch.

Definition compute_row_height (r : row) : Q :=
  Qmax (Qmax (h_text r) h_badge_min) absolute_floor.

End DayTables.

(** ** The page paginator: the chunk loop of a day table *)

Section Paginator.

(** The loop is written over the height of a row and the height available on
    the page; [export_pdf] runs it with [compute_row_height] and its own
    [available]. *)
Variable rh : row -> Q.
Variable available : Q.

(** The loop [while temp_i < total_rows] that fills [chunk]: [rows_left] is
    [rows_data[temp_i:]]; [chunk] pairs each row with its entry of
    [chunk_heights]. The result is [(chunk, used)] on exit. *)
Fixpoint chunk_loop (rows_left : list row) (chunk : list (row * Q)) (used : Q)
    : list (row * Q) * Q :=
  match rows_left with
  | [] => (chunk, used)
  | r :: rest =>
      let h := rh r in
      let nonempty := match chunk with [] => false | _ => true end in
      if negb (Qle_bool (used + h) available) && nonempty then (chunk, used)
      else if negb (Qle_bool h available) && negb nonempty
      then (chunk ++ [(r, h)], used)
      else chunk_loop rest (chunk ++ [(r, h)]) (used + h)
  end.

(** The chunks of a day: the loop [while row_i < total_rows], with
    [rows_left = rows_data[row_i:]]. [None] when the fuel runs out. *)
Fixpoint paginate (fuel : nat) (rows_left : list row)
    : option (list (list (row * Q) * Q)) :=
  match rows_left with
  | [] => Some []
  | _ =>
      match fuel with
      | O => None
      | S fuel' =>
          let c := chunk_loop rows_left [] 0 in
          option_map (cons c) (paginate fuel' (drop (length (fst c)) rows_left))
      end
  end.

(** The title of the page with index [page_idx] of a day. *)
Definition day_title (dia_nombre : string) (page_idx : nat) : string :=
  match page_idx with
  | O => dia_nombre
  | 1%nat => (dia_nombre ++ " (cont.)")%string
  | _ => (dia_nombre ++ " (cont. " ++ dec page_idx ++ ")")%string
  end.

(** The loop [for row, row_hh in zip(chunk, chunk_heights)]. *)
Fixpoint draw_rows (chunk : list (row * Q)) (yrow_top : Q) : list cmd :=
  match chunk with
  | [] => []
  | (r, row_hh) :: rest => DrawRow r row_hh yrow_top :: draw_rows rest (yrow_top - row_hh)
  end.

(** One table page, from its chunk. *)
Definition table_page (dia_nombre : string) (page_idx : nat)
    (c : list (row * Q) * Q) : page :=
  [DayHeader (day_title dia_nombre page_idx) dia_nombre;
   TableCard (th + snd c + 0.25 * inch);
   TableHeader table_top]
  ++ draw_rows (fst c) (table_top - th - 0.10 * inch)
  ++ [PageNumber ("Página " ++ dec (page_idx + 1))%string].

Fixpoint table_pages (dia_nombre : string) (page_idx : nat)
    (cs : list (list (row * Q) * Q)) : list page :=
  match cs with
  | [] => []
  | c :: cs' => table_page dia_nombre page_idx c :: table_pages dia_nombre (S page_idx) cs'
  end.

(** The page of a day without rows. *)
Definition empty_day_page (dia_nombre : string) : page :=
  [DayHeader dia_nombre dia_nombre;
   TableCard (th + 0.60 * inch);
   TableHeader table_top;
   DrawString (table_x + pad_x) (table_top - th - 0.35 * inch)
     (chars "Sin filas.") font_body 9].

(** The body of [for d in dias]. *)
Definition render_day (d : day) : option (list page) :=
  let dia_nombre := default "Día"%string (nombre d) in
  let rows_data := default [] (rows d) in
  let total_rows := length rows_data in
  if (total_rows =? 0)%nat then Some [empty_day_page dia_nombre]
  else option_map (table_pages dia_nombre 0) (paginate total_rows rows_data).

(** [for d in dias]: the pages of all days, in order. *)
Fixpoint render_days (dias : list day) : option (list page) :=
  match dias with
  | [] => Some []
  | d :: rest =>
      match render_day d, render_days rest with
      | Some pd, Some pr => Some (pd ++ pr)
      | _, _ => None
      end
  end.

End Paginator.

(** The height left for rows under the table header, as [export_pdf]
    computes it on each page. *)
Definition y_cursor : Q := table_top - th - 0.15 * inch.
Definition available_height : Q := y_cursor - bottom_margin.

(** The pages of the day tables, then the pages of the report, as
    [export_pdf] emits them after the cover. *)
Definition export_pages (glyph_width : string -> Q -> ascii -> Q) (has_unicode : bool)
    (dias : list day) (p : payload) (fuel : nat) : option (list page) :=
  match render_days (compute_row_height glyph_width) available_height dias,
        render_report_pages glyph_width has_unicode p fuel with
  | Some pd, Some pr => Some (pd ++ pr)
  | _, _ => None
  end.

(** ** The report record: [default_report] and [open_report] *)

Local Close Scope Q_scope.

(** What [json.load] returns. A number is kept as an integer: the loader
    only asks whether a value is a list or a dict. *)
#[warnings="-register-all"]
Inductive json :=
| JNull
| JBool (b : bool)
| JNum (z : Z)
| JStr (x : string)
| JArr (l : list json)
| JObj (m : gmap string json).

Definition STATUS_OPTIONS : list string :=
  ["WORK IN PROGRESS"; "DONE"; "ON HOLD"; "CANCELLED"]%string.
Definition PRIORITY_OPTIONS : list string :=
  ["BAJA"; "MEDIA"; "ALTA"; "URGENTE"]%string.
Definition BACKUP_OPTIONS : list string := ["PENDIENTE"; "COMPLETADO"]%string.

(** [options[k]] on one of the lists above. *)
Definition option_at (options : list string) (k : nat) : string := nth k options ""%string.

Definition default_dias : json :=
  JArr [JObj (<["nombre" := JStr "Día 1"]> (<["rows" := JArr []]> ∅))].

Definition default_rich : json :=
  JObj (<["text" := JStr ""]> (<["bold_ranges" := JArr []]>
         (<["italic_ranges" := JArr []]> ∅))).

(** [ReportApp.default_report] *)
Definition default_report : gmap string json :=
  <["logo_path" := JStr ""]>
  (<["status_general" := JStr (option_at STATUS_OPTIONS 0)]>
  (<["proyecto" := JStr ""]>
  (<["fecha_inicio" := JStr ""]>
  (<["fecha_fin" := JStr ""]>
  (<["encargado" := JStr ""]>
  (<["etapa" := JStr ""]>
  (<["prioridad" := JStr (option_at PRIORITY_OPTIONS 1)]>
  (<["dias" := default_dias]>
  (<["reporte_rich" := default_rich]> ∅))))))))).

(** The row that [EditorFrame.add_row] appends. *)
Definition new_row : gmap string json :=
  <["tarjeta" := JStr ""]>
  (<["dropbox" := JStr ""]>
  (<["backup_b" := JStr "PENDIENTE"]>
  (<["backup_expo" := JStr "PENDIENTE"]>
  (<["proxies" := JStr "PENDIENTE"]>
  (<["files_path" := JStr ""]>
  (<["peso" := JStr ""]>
  (<["desglose" := JStr ""]>
  (<["comentarios" := JStr ""]> ∅)))))))).

(** [m.setdefault(k, v)]: the dictionary afterwards. *)
Definition setdefault (k : string) (v : json) (m : gmap string json)
    : gmap string json :=
  match m !! k with
  | Some _ => m
  | None => <[k := v]> m
  end.

(** The three per-row status fields. *)
Definition STATUS_FIELDS : list string := ["backup_b"; "backup_expo"; "proxies"]%string.

(** The body of [for r in d["rows"]]; [None] is the exception raised when
    [r] has no [setdefault]. *)
Definition load_row (r : json) : option json :=
  match r with
  | JObj m =>
      Some (JObj (setdefault "proxies" (JStr "PENDIENTE")
                   (setdefault "backup_expo" (JStr "PENDIENTE")
                     (setdefault "backup_b" (JStr "PENDIENTE") m))))
  | _ => None
  end.

(** [for r in d["rows"]: ...]: a list is walked through; an empty string
    or an empty dict gives no round; anything else raises. *)
Definition load_rows (v : json) : option json :=
  match v with
  | JArr l => JArr <$> mapM load_row l
  | JObj m => if decide (m = ∅) then Some v else None
  | JStr x => if decide (x = ""%string) then Some v else None
  | _ => None
  end.

(** The body of [for d in base["dias"]]. *)
Definition load_day (d : json) : option json :=
  match d with
  | JObj m =>
      let m2 := setdefault "rows" (JArr []) (setdefault "nombre" (JStr "Día") m) in
      match m2 !! "rows" with
      | Some v => (fun v' => JObj (<["rows" := v']> m2)) <$> load_rows v
      | None => None
      end
  | _ => None
  end.

(** [ReportApp.open_report], the steps from [base = self.default_report()]
    to [base.setdefault("reporte_rich", ...)], for a file whose top-level
    value is the JSON object [data]: the new [report_data], or [None] when
    one of these steps raises, which is caught, the report shown being left
    as it was. A file may also hold a value that is not an object, on which
    [base.update(data)] raises (null, a number, a boolean) or reads pairs (a
    list, a string), and [show_frame] follows these steps inside the same
    [try]: neither is part of this function. *)
Definition open_report (data : gmap string json) : option (gmap string json) :=
  let base := data ∪ default_report in
  let base :=
    match base !! "dias" with
    | Some (JArr (_ :: _)) => base
    | _ => <["dias" := default_dias]> base
    end in
  match base !! "dias" with
  | Some (JArr ds) =>
      (fun ds' => setdefault "reporte_rich" default_rich (<["dias" := JArr ds']> base))
        <$> mapM load_day ds
  | _ => None
  end.

(** ** Further functions of the file *)

(** [x.replace(" ", "_")] *)
Definition replace_spaces (x : str) : str :=
  map (fun c => if Ascii.eqb c SPACE then Ascii.ascii_of_nat 95 else c) x.

(** The file name without extension that [save_report] proposes and
    [export_pdf] writes to:
    [(data.get("proyecto") or "reporte").strip().replace(" ", "_") or "reporte"].
    [None] is an absent key (or [None]). *)
Definition file_stem (proyecto : option str) : str :=
  let a := match proyecto with
           | Some x => if truthy x then x else chars "reporte"
           | None => chars "reporte"
           end in
  let b := replace_spaces (strip a) in
  if truthy b then b else chars "reporte".

(** The values [EditorFrame._insert_tree_row] shows for a row, one per
    column: [row.get(key, default)]. *)
Definition TREE_COLUMNS : list (string * json) :=
  [("tarjeta", JStr ""); ("dropbox", JStr "");
   ("backup_b", JStr "PENDIENTE"); ("backup_expo", JStr "PENDIENTE");
   ("proxies", JStr "PENDIENTE");
   ("files_path", JStr ""); ("peso", JStr ""); ("desglose", JStr "");
   ("comentarios", JStr "")]%string.

Definition tree_row_values (r : gmap string json) : list json :=
  map (fun kd => default (snd kd) (r !! fst kd)) TREE_COLUMNS.

(** [human_size]. The number of bytes is an [int]; from the first division
    on it is a float, and the quotient of an integer below [2^53] by a power
    of 1024 is exact in binary floating point, so the value is kept as the
    exact rational. [f"{v:.2f}"] prints the value rounded to hundredths, a
    tie going to the even last digit. *)

Local Open Scope Z_scope.

(** A non-negative rational rounded to an integer, ties to even. *)
Definition round_half_even (q : Q) : Z :=
  let n := Qnum q in
  let d := Z.pos (Qden q) in
  let fl := n / d in
  let twice := 2 * (n mod d) in
  if twice <? d then fl
  else if d <? twice then fl + 1
  else if Z.even fl then fl else fl + 1.

(** [f"{v:.0f}"] for [v >= 0] *)
Definition fmt0 (v : Q) : string := dec (Z.to_nat (round_half_even v)).

(** [f"{v:.2f}"] for [v >= 0] *)
Definition fmt2 (v : Q) : string :=
  let h := round_half_even (v * 100)%Q in
  let frac := Z.to_nat (h mod 100) in
  (dec (Z.to_nat (h / 100)) ++ "."
   ++ (if (frac <? 10)%nat then "0" else "") ++ dec frac)%string.

(** The loop [for unit in ["B", "KB", "MB", "GB", "TB"]], then the return
    after it. *)
Fixpoint human_size_loop (units : list string) (num_bytes : Q) : string :=
  match units with
  | [] => (fmt2 num_bytes ++ " PB")%string
  | unit :: rest =>
      if negb (Qle_bool 1024 num_bytes)
      then if String.eqb unit "B"
           then (fmt0 num_bytes ++ " " ++ unit)%string
           else (fmt2 num_bytes ++ " " ++ unit)%string
      else human_size_loop rest (num_bytes / 1024)%Q
  end.

Definition human_size (num_bytes : N) : string :=
  human_size_loop ["B"; "KB"; "MB"; "GB"; "TB"]%string (inject_Z (Z.of_N num_bytes)).

Local Close Scope Z_scope.

(* ===================================================================== *)
(** * Part II. Properties                                                  *)
(* ===================================================================== *)

(** ** The wrappers on small inputs *)

Example wrap_lines_demo :
  wrap_lines mono_width (chars "uno dos  tres abcdefghij") "Helvetica" 2 4
  = [chars "uno"; chars "dos"; chars "tres"; chars "abcd"; chars "efgh"; chars "ij"].
Proof. vm_compute. reflexivity. Qed.

Example wrap_offsets_demo :
  wrap_all mono_width (Payload (chars "hola  mundo cruel") [] []) 20 0 6 "Helvetica" 2
  = Some [(chars "hola ", 0, 6); (chars "mundo", 6, 12); (chars "cruel", 12, 17)].
Proof. vm_compute. reflexivity. Qed.

(** ** Run segmenter *)

Module Segmenter.

(** A drawn run as the pair the specification names: text and style. *)
Definition seg (r : run) : str * option style := (run_text r, run_style r).

(** No two neighbours of the list are equal. *)
Fixpoint adjacent_differ {A : Type} (l : list A) : Prop :=
  match l with
  | a :: (b :: _) as t => a ≠ b ∧ adjacent_differ t
  | _ => True
  end.

(** The style of every character of the runs, in order. *)
Definition char_styles (rs : list run) : list (option style) :=
  flat_map (fun r => repeat (run_style r) (length (run_text r))) rs.

(** The style of every offset of a line of [n] characters from [start]. *)
Definition offset_styles (p : payload) (start : Z) (n : nat) : list (option style) :=
  map (fun j => Some (style_for_offset p (start + Z.of_nat j))) (seq 0 n).

Lemma style_eqb_eq a b : style_eqb a b = true ↔ a = b.
Proof. destruct a, b; simpl; split; congruence. Qed.

Lemma adjacent_differ_snoc {A : Type} (l : list A) (a b : A) :
  adjacent_differ (l ++ [a]) → a ≠ b → adjacent_differ (l ++ [a; b]).
Proof.
  induction l as [|x l IH]; simpl; intros H Hab; [tauto|].
  destruct l as [|y l]; simpl in *; [tauto|].
  destruct H as [Hxy H]. split; [exact Hxy|]. apply IH; assumption.
Qed.

Lemma adjacent_differ_last {A : Type} (l : list A) (a : A) :
  adjacent_differ (l ++ [a]) → adjacent_differ l.
Proof.
  induction l as [|x l IH]; simpl; intros H; [exact I|].
  destruct l as [|y l]; simpl in *; [exact I|].
  destruct H as [Hxy H]. split; [exact Hxy|]. apply IH; assumption.
Qed.

Lemma offset_styles_S p start n :
  offset_styles p start (S n)
  = Some (style_for_offset p start) :: offset_styles p (start + 1) n.
Proof.
  unfold offset_styles. simpl. rewrite Z.add_0_r. f_equal.
  rewrite <- seq_shift, map_map. apply map_ext. intros j.
  do 2 f_equal. lia.
Qed.

Section Runs.

Variable glyph_width : string -> Q -> ascii -> Q.
Variable has_unicode : bool.
Variable p : payload.
Variable fs : Q.

(** The runs drawn if the line ended in state [st]. *)
Definition closing (st : rich_state) : list run :=
  snd (flush_run glyph_width has_unicode fs (cur_run st) (cur_style st) (cx st) (drawn st)).

(** States of the loop: no style yet and nothing collected, or a style and
    a run under way. *)
Definition wf (st : rich_state) : Prop :=
  match cur_style st with
  | None => cur_run st = [] ∧ drawn st = []
  | Some _ => cur_run st ≠ []
  end.

(** What holds of the runs closed so far. *)
Record runs_ok (rs : list run) (line : str) (start : Z) : Prop := RunsOk {
  ok_text : concat (map run_text rs) = line;
  ok_nonempty : Forall (fun r => run_text r ≠ []) rs;
  ok_styles : char_styles rs = offset_styles p start (length line);
  ok_maximal : adjacent_differ (map run_style rs)
}.

Lemma closing_wf st :
  wf st →
  closing st = match cur_style st with
               | None => []
               | Some _ => drawn st ++ [Run (cx st) (cur_run st) (cur_style st)]
               end.
Proof.
  unfold wf, closing, flush_run. destruct (cur_style st).
  - intros H. destruct (cur_run st); [congruence|]. reflexivity.
  - intros [-> ->]. reflexivity.
Qed.

Lemma char_styles_app rs1 rs2 :
  char_styles (rs1 ++ rs2) = char_styles rs1 ++ char_styles rs2.
Proof. unfold char_styles. apply flat_map_app. Qed.

Lemma offset_styles_snoc start n :
  offset_styles p start (n + 1)
  = offset_styles p start n ++ [Some (style_for_offset p (start + Z.of_nat n))].
Proof.
  unfold offset_styles. rewrite seq_app, map_app. reflexivity.
Qed.

(** One round of the loop keeps the state well formed and extends the runs
    by the character read, under the style of its offset. *)
Lemma rich_step_ok line start ch st :
  wf st →
  runs_ok (closing st) line start →
  let st' := rich_step glyph_width has_unicode p fs (start + Z.of_nat (length line)) ch st in
  wf st' ∧ runs_ok (closing st') (line ++ [ch]) start.
Proof.
  intros Hwf Hok st'.
  assert (Hwf' : wf st').
  { subst st'. unfold rich_step, wf in *. destruct (cur_style st) as [cs|] eqn:Hcs.
    - destruct (style_eqb _ cs).
      + simpl. intros Heq. apply app_eq_nil in Heq. destruct Heq; discriminate.
      + unfold flush_run. destruct (cur_run st); [congruence|]. simpl. discriminate.
    - simpl. discriminate. }
  split; [exact Hwf'|].
  rewrite closing_wf in Hok by exact Hwf. rewrite closing_wf by exact Hwf'.
  destruct Hok as [Ht Hn Hs Hm].
  subst st'. unfold rich_step in *. unfold wf in Hwf.
  destruct (cur_style st) as [cs|] eqn:Hcs.
  - destruct (style_eqb _ cs) eqn:Hsty.
    + apply style_eqb_eq in Hsty. simpl.
      rewrite map_app, concat_app in Ht. simpl in Ht. rewrite app_nil_r in Ht.
      apply Forall_app in Hn. destruct Hn as [Hn1 Hn2].
      rewrite char_styles_app in Hs. rewrite map_app in Hm.
      constructor.
      * rewrite map_app, concat_app. simpl. rewrite app_nil_r, <- Ht.
        rewrite app_assoc. reflexivity.
      * apply Forall_app. split; [exact Hn1|]. constructor; [|constructor].
        simpl. intros Heq. apply app_eq_nil in Heq. destruct Heq; discriminate.
      * rewrite char_styles_app, length_app. simpl.
        rewrite offset_styles_snoc, <- Hs. unfold char_styles. simpl.
        rewrite !app_nil_r, length_app, repeat_app, Hsty, app_assoc.
        reflexivity.
      * rewrite map_app. exact Hm.
    + unfold flush_run. destruct (cur_run st) as [|c0 r0] eqn:Hrun; [congruence|].
      simpl.
      rewrite map_app, concat_app in Ht. simpl in Ht. rewrite app_nil_r in Ht.
      rewrite map_app in Hm. simpl in Hm.
      constructor.
      * rewrite !map_app, !concat_app. simpl. rewrite app_nil_r, <- Ht.
        reflexivity.
      * apply Forall_app. split; [exact Hn|]. constructor; [|constructor].
        simpl. discriminate.
      * rewrite char_styles_app, length_app. simpl.
        rewrite offset_styles_snoc, <- Hs. reflexivity.
      * rewrite !map_app. simpl. rewrite <- app_assoc. simpl.
        apply adjacent_differ_snoc; [exact Hm|].
        intros Heq. injection Heq as Heq. rewrite Heq in Hsty.
        assert (style_eqb cs cs = true) by (apply style_eqb_eq; reflexivity).
        congruence.
  - destruct Hwf as [Hrun Hdr]. simpl. rewrite Hdr. simpl.
    simpl in Ht. subst line. simpl.
    constructor; simpl.
    + reflexivity.
    + constructor; [discriminate|constructor].
    + unfold char_styles, offset_styles. simpl. rewrite Z.add_0_r. reflexivity.
    + exact I.
Qed.

Lemma rich_loop_ok rest : ∀ line start st,
  wf st →
  runs_ok (closing st) line start →
  runs_ok
    (closing (rich_loop glyph_width has_unicode p fs rest (start + Z.of_nat (length line)) st))
    (line ++ rest) start.
Proof.
  induction rest as [|ch rest IH]; intros line start st Hwf Hok; simpl.
  - rewrite app_nil_r. exact Hok.
  - destruct (rich_step_ok line start ch st Hwf Hok) as [Hwf' Hok'].
    specialize (IH (line ++ [ch]) start _ Hwf' Hok').
    rewrite length_app in IH. simpl in IH.
    replace (start + Z.of_nat (length line) + 1)%Z
      with (start + Z.of_nat (length line + 1))%Z by lia.
    rewrite <- app_assoc in IH. exact IH.
Qed.

End Runs.

(** C5. The runs that [draw_rich_line] draws partition the line (their texts
    concatenate to it and none is empty), every character carries the style
    that [style_for_offset] gives its offset (containment in the bold and
    italic ranges), neighbouring runs differ in style (equal styles are
    merged, so the runs are maximal), and the line "abcdef" at offset 0 with
    [bold_ranges = [[0, 3]]] and no italic range gives the runs ("abc", bold)
    and ("def", normal). *)
Theorem draw_rich_line_maximal_runs :
  (∀ glyph_width has_unicode (p : payload) (line : str) (start : Z) (x fs : Q),
     let rs := draw_rich_line glyph_width has_unicode p line start x fs in
     concat (map run_text rs) = line
     ∧ Forall (fun r => run_text r ≠ []) rs
     ∧ char_styles rs = offset_styles p start (length line)
     ∧ adjacent_differ (map run_style rs))
  ∧ (∀ glyph_width has_unicode (t : str) (x fs : Q),
       map seg (draw_rich_line glyph_width has_unicode (Payload t [(0, 3)%Z] [])
                  (chars "abcdef") 0 x fs)
       = [(chars "abc", Some StB); (chars "def", Some StN)]).
Proof.
  split.
  - intros gw hu p line start x fs rs.
    pose proof (rich_loop_ok gw hu p fs line [] start (RichState x [] None [])) as H.
    simpl in H. rewrite Z.add_0_r in H.
    destruct H as [Ht Hn Hs Hm].
    + unfold wf. simpl. split; reflexivity.
    + constructor; simpl; try reflexivity; constructor.
    + subst rs. unfold draw_rich_line. repeat split; assumption.
  - intros gw hu t x fs. reflexivity.
Qed.

End Segmenter.

(** ** Page paginator *)

Module Paginator.

Local Open Scope Q_scope.

(** Total height of the rows of a chunk. *)
Definition chunk_height (chunk : list (row * Q)) : Q :=
  fold_right (fun rq acc => snd rq + acc) 0 chunk.

(** A row paired with its height, as the chunk keeps it. *)
Definition with_height (rh : row -> Q) (r : row) : row * Q := (r, rh r).

Lemma chunk_height_app c1 c2 :
  chunk_height (c1 ++ c2) == chunk_height c1 + chunk_height c2.
Proof.
  induction c1 as [|x c1 IH]; simpl.
  - lra.
  - rewrite IH. lra.
Qed.

Lemma Qle_bool_false x y : Qle_bool x y = false ↔ y < x.
Proof.
  split; intros H.
  - apply Qnot_le_lt. intros Hle. apply Qle_bool_iff in Hle. congruence.
  - destruct (Qle_bool x y) eqn:E; [|reflexivity].
    apply Qle_bool_iff in E. lra.
Qed.

Section Chunks.

Variable rh : row -> Q.
Variable available : Q.

(** A chunk the paginator may emit: not empty, and within the available
    height unless it is one row that alone is higher. *)
Definition chunk_ok (c : list (row * Q) * Q) : Prop :=
  fst c ≠ []
  ∧ (chunk_height (fst c) <= available
     ∨ ∃ r, fst c = [with_height rh r] ∧ available < rh r).

(** The chunk loop takes a prefix of the rows left and stays within the
    available height, an oversized first row apart. *)
Lemma chunk_loop_prefix rows_left : ∀ chunk used,
  used == chunk_height chunk →
  (chunk ≠ [] → chunk_height chunk <= available) →
  ∃ k, (k <= length rows_left)%nat
    ∧ fst (chunk_loop rh available rows_left chunk used)
      = chunk ++ map (with_height rh) (take k rows_left)
    ∧ (chunk = [] → rows_left ≠ [] → (1 <= k)%nat)
    ∧ (fst (chunk_loop rh available rows_left chunk used) ≠ [] →
       chunk_height (fst (chunk_loop rh available rows_left chunk used)) <= available
       ∨ (∃ r, fst (chunk_loop rh available rows_left chunk used)
                = [with_height rh r] ∧ available < rh r)).
Proof.
  induction rows_left as [|r rest IH]; intros chunk used Hused Hfit; simpl.
  - exists 0%nat. rewrite app_nil_r. repeat split; try lia; try congruence.
    intros Hne. left. apply Hfit, Hne.
  - destruct chunk as [|x chunk].
    + (* the first row of the chunk *)
      assert (Hcond1 : negb (Qle_bool (used + rh r) available) && false = false)
        by apply andb_false_r.
      rewrite Hcond1. destruct (Qle_bool (rh r) available) eqn:Hone; simpl.
      * destruct (IH [(r, rh r)] (used + rh r)) as (k & Hk & Hfst & _ & Hh).
        { simpl in *. lra. }
        { intros _. simpl in *. apply Qle_bool_iff in Hone. lra. }
        exists (S k). simpl. repeat split; try lia; assumption.
      * (* higher than the page: alone in its chunk *)
        exists 1%nat. simpl. repeat split; try lia.
        intros _. right. exists r. split; [reflexivity|].
        apply Qle_bool_false, Hone.
    + destruct (Qle_bool (used + rh r) available) eqn:Hsum; simpl.
      * (* a further row that fits *)
        rewrite andb_false_r.
        destruct (IH ((x :: chunk) ++ [(r, rh r)]) (used + rh r))
          as (k & Hk & Hfst & _ & Hh).
        { rewrite chunk_height_app. simpl in *. lra. }
        { intros _. rewrite chunk_height_app. apply Qle_bool_iff in Hsum.
          simpl in *. lra. }
        exists (S k). simpl. repeat split; try lia; try congruence.
        -- simpl in Hfst. rewrite Hfst. simpl. rewrite <- app_assoc. reflexivity.
        -- exact Hh.
      * (* a further row that does not fit: the chunk is closed *)
        exists 0%nat. simpl. rewrite app_nil_r. repeat split; try lia; try congruence.
        intros _. left. apply Hfit. discriminate.
Qed.

(** A chunk started on rows that are left is a non-empty prefix of them. *)
Lemma chunk_loop_first r rest :
  let c := chunk_loop rh available (r :: rest) [] 0 in
  ∃ k, (1 <= k <= S (length rest))%nat
    ∧ fst c = map (with_height rh) (take k (r :: rest))
    ∧ chunk_ok c.
Proof.
  intros c.
  destruct (chunk_loop_prefix (r :: rest) [] 0) as (k & Hk & Hfst & Hpos & Hh).
  { simpl. lra. }
  { congruence. }
  fold c in Hfst, Hh. simpl in Hfst.
  assert (Hk1 : (1 <= k)%nat) by (apply Hpos; [reflexivity|discriminate]).
  exists k. split; [simpl in Hk; lia|]. split; [exact Hfst|].
  assert (Hne : fst c ≠ []).
  { rewrite Hfst. destruct k; [lia|]. simpl. discriminate. }
  split; [exact Hne|]. apply Hh, Hne.
Qed.

(** With one unit of fuel per row the page loop ends, and its chunks are
    the rows in order, cut into admissible chunks. *)
Lemma paginate_spec fuel : ∀ rows_left,
  (length rows_left <= fuel)%nat →
  ∃ cs, paginate rh available fuel rows_left = Some cs
    ∧ concat (map fst cs) = map (with_height rh) rows_left
    ∧ Forall chunk_ok cs
    ∧ (length cs <= length rows_left)%nat.
Proof.
  induction fuel as [|fuel IH]; intros rows_left Hlen.
  - destruct rows_left; [|simpl in Hlen; lia].
    exists []. simpl. repeat split; [constructor|lia].
  - destruct rows_left as [|r rest].
    + exists []. simpl. repeat split; [constructor|lia].
    + destruct (chunk_loop_first r rest) as (k & Hk & Hfst & Hok).
      set (c := chunk_loop rh available (r :: rest) [] 0) in *.
      assert (Hlenc : length (fst c) = k).
      { rewrite Hfst, length_map, length_take. simpl. lia. }
      destruct (IH (drop k (r :: rest))) as (cs & Hcs & Hcat & Hall & Hn).
      { rewrite length_drop. simpl in *. lia. }
      exists (c :: cs).
      change (paginate rh available (S fuel) (r :: rest))
        with (option_map (cons c)
                (paginate rh available fuel (drop (length (fst c)) (r :: rest)))).
      rewrite Hlenc, Hcs. simpl. repeat split.
      * rewrite Hcat, Hfst, <- map_app, take_drop. reflexivity.
      * constructor; assumption.
      * rewrite length_drop in Hn. simpl in Hn. lia.
Qed.

End Chunks.

(** C2. With heights [rh] of the rows and a positive available height [A],
    the table paginator ends, and its chunks are the rows in their order
    (consecutive, none shared, none dropped); every chunk is non-empty and
    its total height is at most [A], unless it is a single row that alone is
    higher than [A], which starts the chunk it is in; a single row of height
    [2 * A] gives one chunk with that row alone. *)
Theorem paginate_chunks (rh : row → Q) (A : Q) (rows_data : list row) :
  0 < A →
  ∃ cs, paginate rh A (length rows_data) rows_data = Some cs
    ∧ concat (map fst cs) = map (with_height rh) rows_data
    ∧ Forall (chunk_ok rh A) cs
    ∧ (length cs <= length rows_data)%nat
    ∧ (∀ r, rows_data = [r] → rh r == 2 * A → cs = [([(r, rh r)], 0)]).
Proof.
  intros HA.
  destruct (paginate_spec rh A (length rows_data) rows_data) as (cs & Hcs & Hcat & Hok & Hn);
    [lia|].
  exists cs. repeat split; try assumption.
  intros r -> Hr. simpl in Hcs.
  assert (Hbig : Qle_bool (rh r) A = false) by (apply Qle_bool_false; lra).
  assert (Hbig0 : Qle_bool (0 + rh r) A = false) by (apply Qle_bool_false; lra).
  rewrite Hbig, Hbig0 in Hcs. simpl in Hcs. congruence.
Qed.

(** The theorem at one row of height 20 on a page of height 10. *)
Lemma paginate_chunks_witness :
  ∃ cs, paginate (fun _ => 20) 10 1 [∅] = Some cs
    ∧ concat (map fst cs) = map (with_height (fun _ => 20)) [∅]
    ∧ Forall (chunk_ok (fun _ => 20) 10) cs
    ∧ (length cs <= 1)%nat
    ∧ (∀ r, [∅] = [r] → 20 == 2 * 10 → cs = [([(r, 20)], 0)]).
Proof. apply (paginate_chunks (fun _ => 20) 10 [∅]). reflexivity. Defined.

End Paginator.

(** ** Page titles, and the pages of a day *)

Module Pages.

Import Paginator.
Local Open Scope Q_scope.

(** The title a page opens with, when it opens with a header. *)
Definition page_title (pg : page) : option string :=
  match pg with
  | DayHeader title_text _ :: _ => Some title_text
  | ReportFrame title :: _ => Some title
  | _ => None
  end.

(** The number of table rows drawn on a page. *)
Definition is_row (c : cmd) : bool :=
  match c with DrawRow _ _ _ => true | _ => false end.

Definition page_rows (pg : page) : nat := length (List.filter is_row pg).

(** A natural number as a length in points. *)
Definition Qn (n : nat) : Q := inject_Z (Z.of_nat n).

Lemma Qn_S n : Qn (S n) == Qn n + 1.
Proof. unfold Qn. rewrite Nat2Z.inj_succ, <- Z.add_1_r, inject_Z_plus. reflexivity. Qed.

Lemma Qn_le n m : (n <= m)%nat → Qn n <= Qn m.
Proof. intros H. unfold Qn. rewrite <- Zle_Qle. lia. Qed.

Lemma table_pages_length name cs : ∀ i, length (table_pages name i cs) = length cs.
Proof. induction cs as [|c cs IH]; intros i; simpl; [reflexivity|]. rewrite IH. reflexivity. Qed.

Lemma table_pages_lookup name cs : ∀ i k pg,
  table_pages name i cs !! k = Some pg →
  ∃ c, cs !! k = Some c ∧ pg = table_page name (i + k) c.
Proof.
  induction cs as [|c cs IH]; intros i k pg H; simpl in H.
  - discriminate.
  - destruct k as [|k]; simpl in H.
    + injection H as <-. exists c. rewrite Nat.add_0_r. split; reflexivity.
    + destruct (IH (S i) k pg H) as (c' & Hc & ->).
      exists c'. split; [exact Hc|]. f_equal. lia.
Qed.

Lemma draw_rows_count chunk : ∀ y,
  List.filter is_row (draw_rows chunk y) = draw_rows chunk y.
Proof.
  induction chunk as [|[r h] chunk IH]; intros y; simpl; [reflexivity|].
  rewrite IH. reflexivity.
Qed.

Lemma draw_rows_length chunk : ∀ y, length (draw_rows chunk y) = length chunk.
Proof.
  induction chunk as [|[r h] chunk IH]; intros y; simpl; [reflexivity|].
  rewrite IH. reflexivity.
Qed.

Lemma table_page_rows name i c : page_rows (table_page name i c) = length (fst c).
Proof.
  unfold page_rows, table_page. simpl. rewrite List.filter_app, draw_rows_count.
  simpl. rewrite length_app, draw_rows_length. simpl. lia.
Qed.

(** *** Rows of one height *)

(** The sizes of the chunks of [n] rows when [cap] rows fill a page. *)
Fixpoint chunk_sizes (cap fuel n : nat) : list nat :=
  match fuel, n with
  | S fuel', S _ => Nat.min cap n :: chunk_sizes cap fuel' (n - cap)
  | _, _ => []
  end.

Section Uniform.

Variable rh : row → Q.
Variable A h : Q.
Variable cap : nat.
Hypothesis cap_pos : (1 <= cap)%nat.
Hypothesis cap_fits : Qn cap * h <= A.
Hypothesis cap_full : A < (Qn cap + 1) * h.

Lemma h_pos : 0 < h.
Proof. nra. Qed.

(** On rows of height [h], a chunk is filled up to [cap] rows. *)
Lemma chunk_loop_uniform rows_left : ∀ chunk used,
  Forall (fun r => rh r == h) rows_left →
  used == Qn (length chunk) * h →
  (length chunk <= cap)%nat →
  fst (chunk_loop rh A rows_left chunk used)
  = chunk ++ map (with_height rh) (take (cap - length chunk) rows_left).
Proof.
  pose proof h_pos as Hh.
  induction rows_left as [|r rest IH]; intros chunk used Hall Hused Hlen; simpl.
  - rewrite take_nil, app_nil_r. reflexivity.
  - inversion Hall as [|r' rest' Hr Hrest]; subst.
    destruct (Nat.eq_dec (length chunk) cap) as [Heq|Hne].
    + (* the chunk is full *)
      assert (Hover : Qle_bool (used + rh r) A = false).
      { apply Qle_bool_false. rewrite Hused, Hr, Heq. nra. }
      rewrite Hover. replace (cap - length chunk)%nat with 0%nat by lia.
      destruct chunk as [|x chunk]; [simpl in Heq; lia|].
      simpl. rewrite app_nil_r. reflexivity.
    + assert (Hlt : (S (length chunk) <= cap)%nat) by lia.
      pose proof (Qn_le _ _ Hlt) as HQ. rewrite Qn_S in HQ.
      assert (Hin : Qle_bool (used + rh r) A = true).
      { apply Qle_bool_iff. rewrite Hused, Hr. nra. }
      assert (Hone : Qle_bool (rh r) A = true).
      { apply Qle_bool_iff. rewrite Hr.
        pose proof (Qn_le _ _ cap_pos) as H1. unfold Qn at 1 in H1. simpl in H1.
        assert (0 <= Qn (length chunk)) by (apply (Qn_le 0), Nat.le_0_l).
        nra. }
      rewrite Hin, Hone. simpl.
      rewrite (IH (chunk ++ [(r, rh r)]) (used + rh r) Hrest).
      * rewrite length_app. simpl.
        replace (cap - length chunk)%nat with (S (cap - (length chunk + 1)))%nat by lia.
        simpl. rewrite <- app_assoc. reflexivity.
      * rewrite length_app. simpl. rewrite Nat.add_1_r, Qn_S, Hused, Hr. ring.
      * rewrite length_app. simpl. lia.
Qed.

Lemma paginate_uniform fuel : ∀ rows_left,
  Forall (fun r => rh r == h) rows_left →
  (length rows_left <= fuel)%nat →
  ∃ cs, paginate rh A fuel rows_left = Some cs
    ∧ map (fun c => length (fst c)) cs = chunk_sizes cap fuel (length rows_left).
Proof.
  induction fuel as [|fuel IH]; intros rows_left Hall Hlen.
  - destruct rows_left; [|simpl in Hlen; lia]. exists []. split; reflexivity.
  - destruct rows_left as [|r rest].
    + exists []. split; reflexivity.
    + set (c := chunk_loop rh A (r :: rest) [] 0).
      assert (Hfst : fst c = map (with_height rh) (take cap (r :: rest))).
      { subst c. rewrite chunk_loop_uniform; try assumption.
        - simpl. rewrite Nat.sub_0_r. reflexivity.
        - simpl. unfold Qn. simpl. ring.
        - simpl. lia. }
      assert (Hlenc : length (fst c) = Nat.min cap (S (length rest))).
      { rewrite Hfst, length_map, length_take. reflexivity. }
      destruct (IH (drop (length (fst c)) (r :: rest))) as (cs & Hcs & Hsizes).
      { apply Forall_drop, Hall. }
      { rewrite length_drop, Hlenc. simpl in *. lia. }
      exists (c :: cs).
      change (paginate rh A (S fuel) (r :: rest))
        with (option_map (cons c) (paginate rh A fuel (drop (length (fst c)) (r :: rest)))).
      rewrite Hcs. split; [reflexivity|].
      cbn [map]. rewrite Hsizes, Hlenc, length_drop.
      cbn [length chunk_sizes]. f_equal. f_equal. lia.
Qed.

End Uniform.

(** *** Titles *)

Lemma day_title_cases name :
  day_title name 0 = name
  ∧ day_title name 1 = (name ++ " (cont.)")%string
  ∧ ∀ k, (2 <= k)%nat → day_title name k = (name ++ " (cont. " ++ dec k ++ ")")%string.
Proof.
  repeat split. intros k Hk. destruct k as [|[|k]]; [lia|lia|reflexivity].
Qed.

Section ReportTitles.

Variable glyph_width : string → Q → ascii → Q.
Variable has_unicode : bool.
Variable p : payload.

(** The lines of a page are added after what the page opens with. *)
Lemma report_lines_title fuel : ∀ start_off y used pg pg' off',
  report_lines glyph_width has_unicode p fuel start_off y used pg = Some (pg', off') →
  ∃ more, pg' = pg ++ more.
Proof.
  induction fuel as [|fuel IH]; intros start_off y used pg pg' off' H; simpl in H.
  - destruct (_ && _); [discriminate|]. injection H as <- <-.
    exists []. rewrite app_nil_r. reflexivity.
  - destruct (_ && _).
    + destruct (wrap_text_with_offsets _ _ _ _ _ _) as [[[line|] [ls|]] next].
      * apply IH in H. destruct H as (more & ->).
        rewrite <- app_assoc. eexists. reflexivity.
      * injection H as <- <-. exists []. rewrite app_nil_r. reflexivity.
      * injection H as <- <-. exists []. rewrite app_nil_r. reflexivity.
      * injection H as <- <-. exists []. rewrite app_nil_r. reflexivity.
    + injection H as <- <-. exists []. rewrite app_nil_r. reflexivity.
Qed.

Lemma report_pages_titles fuel : ∀ start_off page_num pages k pg,
  report_pages glyph_width has_unicode p fuel start_off page_num = Some pages →
  pages !! k = Some pg →
  page_title pg = Some (report_title (page_num + k)).
Proof.
  induction fuel as [|fuel IH]; intros start_off page_num pages k pg H Hk; simpl in H.
  - destruct (_ <? _)%nat; [discriminate|]. injection H as <-. discriminate.
  - destruct (_ <? _)%nat; [|injection H as <-; discriminate].
    destruct (_ && _).
    + destruct (wrap_text_with_offsets _ _ _ _ _ _) as [[[line|] [ls|]] next].
      * destruct (report_lines _ _ _ _ _ _ _ _) as [[pg0 off0]|] eqn:Hl; [|discriminate].
        destruct (report_pages _ _ _ _ _ _) as [rest|] eqn:Hr; [|discriminate].
        injection H as <-.
        destruct k as [|k]; simpl in Hk.
        -- injection Hk as <-. apply report_lines_title in Hl.
           destruct Hl as (more & ->). simpl. rewrite Nat.add_0_r. reflexivity.
        -- rewrite (IH _ _ _ _ _ Hr Hk). f_equal. f_equal. lia.
      * destruct (report_pages _ _ _ _ _ _) as [rest|] eqn:Hr; [|discriminate].
        injection H as <-. destruct k as [|k]; simpl in Hk.
        -- injection Hk as <-. simpl. rewrite Nat.add_0_r. reflexivity.
        -- rewrite (IH _ _ _ _ _ Hr Hk). f_equal. f_equal. lia.
      * destruct (report_pages _ _ _ _ _ _) as [rest|] eqn:Hr; [|discriminate].
        injection H as <-. destruct k as [|k]; simpl in Hk.
        -- injection Hk as <-. simpl. rewrite Nat.add_0_r. reflexivity.
        -- rewrite (IH _ _ _ _ _ Hr Hk). f_equal. f_equal. lia.
      * destruct (report_pages _ _ _ _ _ _) as [rest|] eqn:Hr; [|discriminate].
        injection H as <-. destruct k as [|k]; simpl in Hk.
        -- injection Hk as <-. simpl. rewrite Nat.add_0_r. reflexivity.
        -- rewrite (IH _ _ _ _ _ Hr Hk). f_equal. f_equal. lia.
    + destruct (report_pages _ _ _ _ _ _) as [rest|] eqn:Hr; [|discriminate].
      injection H as <-. destruct k as [|k]; simpl in Hk.
      -- injection Hk as <-. simpl. rewrite Nat.add_0_r. reflexivity.
      -- rewrite (IH _ _ _ _ _ Hr Hk). f_equal. f_equal. lia.
Qed.

End ReportTitles.


(** *** The pages of the days *)

Lemma render_day_total rh A (d : day) : ∃ pages, render_day rh A d = Some pages.
Proof.
  unfold render_day. destruct (_ =? 0)%nat; [eexists; reflexivity|].
  destruct (paginate_spec rh A _ (default [] (rows d)) (Nat.le_refl _)) as (cs & -> & _).
  eexists. reflexivity.
Qed.

Lemma render_days_total rh A dias : ∃ pages, render_days rh A dias = Some pages.
Proof.
  induction dias as [|d rest [pr Hr]]; simpl; [eexists; reflexivity|].
  destruct (render_day_total rh A d) as [pd ->]. rewrite Hr. eexists. reflexivity.
Qed.

Lemma render_day_titles rh A (d : day) pages k pg :
  render_day rh A d = Some pages →
  pages !! k = Some pg →
  page_title pg = Some (day_title (default "Día"%string (nombre d)) k).
Proof.
  unfold render_day. destruct (_ =? 0)%nat.
  - intros [= <-] Hk. destruct k as [|k]; [|discriminate].
    injection Hk as <-. reflexivity.
  - destruct (paginate _ _ _ _) as [cs|]; [|discriminate]. intros [= <-] Hk.
    apply table_pages_lookup in Hk. destruct Hk as (c & _ & ->). reflexivity.
Qed.

Lemma render_report_titles gw hu (p : payload) fuel pages k pg :
  render_report_pages gw hu p fuel = Some pages →
  pages !! k = Some pg →
  page_title pg = Some (report_title (k + 1)).
Proof.
  unfold render_report_pages. destruct (negb _).
  - intros [= <-] Hk. destruct k as [|k]; [|discriminate].
    injection Hk as <-. reflexivity.
  - intros H Hk. rewrite (report_pages_titles _ _ _ _ _ _ _ _ _ H Hk).
    f_equal. f_equal. lia.
Qed.

(** *** The day tables of [export_pdf] *)

(** A row of [export_pdf] is at least as high as the badge minimum, 34.56
    points, and a row of one line is exactly that high. *)
Lemma compute_row_height_min gw (r : row) : 34.56 <= compute_row_height gw r.
Proof.
  unfold compute_row_height.
  apply Qle_trans with (Qmax (h_text gw r) h_badge_min); [|apply Q.le_max_l].
  apply Qle_trans with h_badge_min; [|apply Q.le_max_r].
  vm_compute. discriminate.
Qed.

Lemma compute_row_height_one_line gw (r : row) :
  max_lines gw r = 1%nat → compute_row_height gw r == 34.56.
Proof.
  intros H. unfold compute_row_height, h_text. rewrite H. reflexivity.
Qed.

Lemma chunk_height_lower h (c : list (row * Q)) :
  Forall (fun x => h <= snd x) c → Qn (length c) * h <= chunk_height c.
Proof.
  induction 1 as [|x c Hx _ IH]; cbn [length chunk_height fold_right].
  - change (Qn 0) with 0%Q. lra.
  - change (fold_right _ 0 c) with (chunk_height c). rewrite Qn_S.
    assert (E : (Qn (length c) + 1) * h == Qn (length c) * h + h) by ring.
    rewrite E. lra.
Qed.

(** No page of a day table of [export_pdf] holds more than sixteen rows:
    567.36 points are available and a row takes 34.56 at least. *)
Lemma export_page_rows gw (d : day) pages pg :
  render_day (compute_row_height gw) available_height d = Some pages →
  In pg pages →
  (page_rows pg <= 16)%nat.
Proof.
  unfold render_day. destruct (_ =? 0)%nat.
  - intros [= <-] [<-|[]]. unfold page_rows. simpl. lia.
  - destruct (paginate_spec (compute_row_height gw) available_height _
                (default [] (rows d)) (Nat.le_refl _)) as (cs & -> & Hcat & Hok & _).
    simpl. intros [= <-] Hin.
    apply list_elem_of_In, list_elem_of_lookup in Hin. destruct Hin as [k Hk].
    apply table_pages_lookup in Hk. destruct Hk as (c & Hc & ->).
    rewrite table_page_rows.
    rewrite Forall_lookup in Hok. destruct (Hok k c Hc) as [_ [Hfit|(r & -> & _)]];
      [|simpl; lia].
    assert (Hall : Forall (fun x => 34.56 <= snd x) (fst c)).
    { apply Forall_forall. intros x Hx.
      assert (Hin : In x (concat (map fst cs))).
      { apply in_concat. exists (fst c). split.
        - apply in_map, list_elem_of_In, list_elem_of_lookup. exists k. exact Hc.
        - apply list_elem_of_In, Hx. }
      rewrite Hcat in Hin. apply in_map_iff in Hin.
      destruct Hin as (r & <- & _). apply compute_row_height_min. }
    apply chunk_height_lower in Hall.
    destruct (Nat.le_gt_cases (length (fst c)) 16) as [Hle|Hgt]; [exact Hle|].
    exfalso. apply (Qn_le 17) in Hgt. change (Qn 17) with 17%Q in Hgt.
    assert (HA : available_height == 567.36) by reflexivity.
    nra.
Qed.

(** Fifty rows of one line each: sixteen of them fill a page. *)
Lemma fifty_rows gw name (rows_data : list row) :
  length rows_data = 50%nat →
  Forall (fun r => max_lines gw r = 1%nat) rows_data →
  ∃ pages,
    render_day (compute_row_height gw) available_height
      (Day (Some name) (Some rows_data)) = Some pages
    ∧ map page_rows pages = [16; 16; 16; 2]%nat
    ∧ map page_title pages
      = [Some name; Some (name ++ " (cont.)")%string;
         Some (name ++ " (cont. 2)")%string; Some (name ++ " (cont. 3)")%string].
Proof.
  intros Hlen Hall.
  assert (Hfit : Qn 16 * 34.56 <= available_height) by (vm_compute; discriminate).
  assert (Hfull : available_height < (Qn 16 + 1) * 34.56) by reflexivity.
  assert (Hh : Forall (fun r => compute_row_height gw r == 34.56) rows_data).
  { eapply Forall_impl; [exact Hall|]. intros r Hr.
    apply compute_row_height_one_line, Hr. }
  destruct (paginate_uniform (compute_row_height gw) available_height 34.56 16
              ltac:(lia) Hfit Hfull 50%nat rows_data Hh ltac:(lia))
    as (cs & Hcs & Hsizes).
  unfold render_day. simpl. rewrite Hlen, Hcs. simpl.
  rewrite Hlen in Hsizes. simpl in Hsizes.
  destruct cs as [|c1 [|c2 [|c3 [|c4 [|c5 cs]]]]]; try discriminate.
  injection Hsizes as H1 H2 H3 H4.
  eexists. split; [reflexivity|]. split.
  - simpl. rewrite !table_page_rows, H1, H2, H3, H4. reflexivity.
  - reflexivity.
Qed.

(** C8, as the code has it. The first page of a day carries the name of the
    day, the second the name followed by " (cont.)" with no counter, and
    page [k + 1] for [k >= 2] the name followed by " (cont. k)"; the first
    page of the report is titled "Reporte" and page [pn >= 2] of it
    "Reporte (cont. pn)". With the row heights and the page of
    [export_pdf] no page of a day table holds more than sixteen rows, so
    that twenty never fit: fifty rows of one line give four table pages of
    16, 16, 16 and 2 rows, titled with the name, the name and " (cont.)",
    the name and " (cont. 2)", the name and " (cont. 3)". *)
Theorem continued_titles :
  (∀ rh A (d : day) pages k pg,
     render_day rh A d = Some pages →
     pages !! k = Some pg →
     page_title pg = Some (day_title (default "Día"%string (nombre d)) k))
  ∧ (∀ name,
       day_title name 0 = name
       ∧ day_title name 1 = (name ++ " (cont.)")%string
       ∧ ∀ k, (2 <= k)%nat →
           day_title name k = (name ++ " (cont. " ++ dec k ++ ")")%string)
  ∧ (∀ gw hu (p : payload) fuel pages k pg,
       render_report_pages gw hu p fuel = Some pages →
       pages !! k = Some pg →
       page_title pg = Some (report_title (k + 1)))
  ∧ (report_title 1 = "Reporte"%string
     ∧ ∀ pn, (2 <= pn)%nat →
         report_title pn = ("Reporte (cont. " ++ dec pn ++ ")")%string)
  ∧ (∀ gw (d : day) pages pg,
       render_day (compute_row_height gw) available_height d = Some pages →
       In pg pages →
       (page_rows pg <= 16)%nat)
  ∧ (∀ gw name (rows_data : list row),
       length rows_data = 50%nat →
       Forall (fun r => max_lines gw r = 1%nat) rows_data →
       ∃ pages,
         render_day (compute_row_height gw) available_height
           (Day (Some name) (Some rows_data)) = Some pages
         ∧ map page_rows pages = [16; 16; 16; 2]%nat
         ∧ map page_title pages
           = [Some name; Some (name ++ " (cont.)")%string;
              Some (name ++ " (cont. 2)")%string;
              Some (name ++ " (cont. 3)")%string]).
Proof.
  split; [exact render_day_titles|].
  split; [exact day_title_cases|].
  split; [exact render_report_titles|].
  split; [|split; [exact export_page_rows|exact fifty_rows]].
  split; [reflexivity|].
  intros pn Hpn. unfold report_title.
  destruct (Nat.eqb_spec pn 1); [lia|reflexivity].
Qed.

(** The scenario at fifty empty rows, as [export_pdf] lays them out. *)
Lemma continued_titles_witness :
  ∃ pages,
    render_day (compute_row_height mono_width) available_height
      (Day (Some "Día 1"%string) (Some (repeat ∅ 50))) = Some pages
    ∧ map page_rows pages = [16; 16; 16; 2]%nat
    ∧ map page_title pages
      = [Some "Día 1"%string; Some ("Día 1" ++ " (cont.)")%string;
         Some ("Día 1" ++ " (cont. 2)")%string;
         Some ("Día 1" ++ " (cont. 3)")%string].
Proof.
  destruct continued_titles as (_ & _ & _ & _ & _ & H).
  apply (H mono_width "Día 1"%string (repeat ∅ 50)).
  - reflexivity.
  - apply Forall_forall. intros r Hr.
    apply list_elem_of_In, repeat_spec in Hr. subst r. vm_compute. reflexivity.
Defined.

(** The second page of a day carries no counter: its title is not the
    name followed by " (cont. n)" for any [n]. *)
Lemma day_title_second_page_no_counter :
  ¬ ∃ n, day_title "Día 1" 1 = ("Día 1" ++ " (cont. " ++ dec n ++ ")")%string.
Proof.
  intros [n H]. vm_compute in H. discriminate H.
Qed.

(** With the heights and the page of [export_pdf], sixteen one-line rows
    fill a page: fifty empty rows take four pages. *)
Example fifty_empty_rows_in_export :
  option_map (map page_rows)
    (render_day (compute_row_height mono_width) available_height
       (Day (Some "Día 1"%string) (Some (repeat ∅ 50))))
  = Some [16; 16; 16; 2]%nat.
Proof. vm_compute. reflexivity. Qed.

(** C9. A day without rows gives one page: the day header under the name of
    the day, the table card, the table header and the line "Sin filas.";
    the renderer then goes on with the days that follow, and with the report
    after the last day. *)
Theorem empty_day_one_page rh A gw hu (p : payload) fuel (d : day) (rest : list day) :
  default [] (rows d) = [] →
  let name := default "Día"%string (nombre d) in
  let pg := [DayHeader name name;
             TableCard (th + 0.60 * inch);
             TableHeader table_top;
             DrawString (table_x + pad_x) (table_top - th - 0.35 * inch)
               (chars "Sin filas.") font_body 9] in
  render_day rh A d = Some [pg]
  ∧ (∃ pages, render_days rh A rest = Some pages
        ∧ render_days rh A (d :: rest) = Some (pg :: pages))
  ∧ export_pages gw hu (d :: rest) p fuel
    = option_map (cons pg) (export_pages gw hu rest p fuel).
Proof.
  intros Hrows name pg.
  assert (Hd : ∀ rh A, render_day rh A d = Some [pg]).
  { intros rh' A'. unfold render_day. rewrite Hrows. reflexivity. }
  split; [apply Hd|]. split.
  - destruct (render_days_total rh A rest) as [pages Hp].
    exists pages. split; [exact Hp|]. simpl. rewrite Hd, Hp. reflexivity.
  - unfold export_pages. simpl. rewrite Hd.
    destruct (render_days _ _ rest); [|reflexivity].
    destruct (render_report_pages _ _ _ _); reflexivity.
Qed.

(** The theorem at a day without rows followed by a day of one row. *)
Lemma empty_day_one_page_witness :
  let d := Day (Some "Día 1"%string) (Some []) in
  let rest := [Day (Some "Día 2"%string) (Some [∅])] in
  let pg := [DayHeader "Día 1" "Día 1";
             TableCard (th + 0.60 * inch);
             TableHeader table_top;
             DrawString (table_x + pad_x) (table_top - th - 0.35 * inch)
               (chars "Sin filas.") font_body 9] in
  render_day (fun _ => 1) 20 d = Some [pg]
  ∧ (∃ pages, render_days (fun _ => 1) 20 rest = Some pages
        ∧ render_days (fun _ => 1) 20 (d :: rest) = Some (pg :: pages))
  ∧ export_pages mono_width false (d :: rest) (Payload [] [] []) 1
    = option_map (cons pg) (export_pages mono_width false rest (Payload [] [] []) 1).
Proof.
  apply (empty_day_one_page (fun _ => 1) 20 mono_width false (Payload [] [] []) 1%nat
           (Day (Some "Día 1"%string) (Some [])) [Day (Some "Día 2"%string) (Some [∅])]).
  reflexivity.
Defined.

End Pages.

(** ** Row heights *)

Module RowHeight.

Local Open Scope Q_scope.

(** The texts of the five wrapped cells of a row. *)
Definition cell_texts (r : row) : list str :=
  [row_get r "tarjeta"; files_name_of r; row_get r "peso";
   row_get r "desglose"; row_get r "comentarios"].

Lemma wrap_lines_empty gw fn fsz mw : wrap_lines gw [] fn fsz mw = [[]].
Proof. reflexivity. Qed.

Lemma fold_max_ge (l : list nat) : ∀ n, In n l → (n <= fold_right Nat.max 1 l)%nat.
Proof.
  induction l as [|m l IH]; intros n Hin; simpl in *; [tauto|].
  destruct Hin as [->|Hin]; [lia|]. specialize (IH n Hin). lia.
Qed.

Lemma fold_max_attained (l : list nat) :
  fold_right Nat.max 1%nat l = 1%nat ∨ In (fold_right Nat.max 1%nat l) l.
Proof.
  induction l as [|m l IH]; simpl; [left; reflexivity|].
  destruct (Nat.max_spec m (fold_right Nat.max 1%nat l)) as [[_ ->]|[_ ->]].
  - destruct IH as [IH|IH]; [left; exact IH|right; right; exact IH].
  - right; left; reflexivity.
Qed.

Lemma fold_max_pos (l : list nat) : (1 <= fold_right Nat.max 1 l)%nat.
Proof. induction l; simpl; lia. Qed.

(** C6, as the code has it. The height of a row is the maximum of
    [max_lines * line_h + 2 * pad_y_cell], the badge minimum and the absolute
    floor, where [max_lines] is the largest number of wrapped lines over the
    five text cells and at least 1. A row whose text cells are all empty has
    one line and the height of the badge minimum, 34.56 points, which is above
    the absolute floor of 33.12 points. *)
Theorem compute_row_height_formula gw (r : row) :
  compute_row_height gw r
  = Qmax (Qmax (inject_Z (Z.of_nat (max_lines gw r)) * line_h + 2 * pad_y_cell)
               h_badge_min)
         absolute_floor
  ∧ (1 <= max_lines gw r)%nat
  ∧ (∀ ls, In ls (row_cells gw r) → (length ls <= max_lines gw r)%nat)
  ∧ (max_lines gw r = 1%nat
     ∨ ∃ ls, In ls (row_cells gw r) ∧ length ls = max_lines gw r)
  ∧ (Forall (fun t => t = []) (cell_texts r) →
     max_lines gw r = 1%nat
     ∧ compute_row_height gw r == h_badge_min
     ∧ h_badge_min == 34.56
     ∧ absolute_floor == 33.12).
Proof.
  split; [reflexivity|]. split; [apply fold_max_pos|]. split; [|split].
  - intros ls Hin. apply fold_max_ge, in_map, Hin.
  - destruct (fold_max_attained (map (@length str) (row_cells gw r))) as [H|H].
    + left. exact H.
    + right. apply in_map_iff in H. destruct H as (ls & Hlen & Hin).
      exists ls. split; assumption.
  - intros Hall. unfold cell_texts in Hall.
    repeat match goal with
           | H : Forall _ (_ :: _) |- _ => inversion H; clear H; subst
           end.
    assert (Hml : max_lines gw r = 1%nat).
    { unfold max_lines, row_cells.
      repeat match goal with H : _ = [] |- _ => rewrite H; clear H end.
      reflexivity. }
    split; [exact Hml|]. split; [|split; reflexivity].
    unfold compute_row_height, h_text. rewrite Hml. reflexivity.
Qed.

(** The theorem at the row without fields. *)
Lemma compute_row_height_formula_witness :
  max_lines mono_width ∅ = 1%nat
  ∧ compute_row_height mono_width ∅ == h_badge_min
  ∧ h_badge_min == 34.56
  ∧ absolute_floor == 33.12.
Proof.
  destruct (compute_row_height_formula mono_width ∅) as (_ & _ & _ & _ & H).
  apply H. repeat constructor.
Defined.

(** A row without text is not as high as the absolute floor: it is higher. *)
Lemma empty_row_above_floor :
  ¬ (compute_row_height mono_width ∅ == absolute_floor).
Proof. vm_compute. discriminate. Qed.

End RowHeight.

(** ** Defaults of the report record *)

Module Defaults.

(** The seven cover fields kept as texts. *)
Definition TEXT_FIELDS : list string :=
  ["logo_path"; "proyecto"; "fecha_inicio"; "fecha_fin"; "encargado"; "etapa"]%string.

(** The days that the loader walks through: those of the file when it has
    a non-empty list of them, else the one day of a fresh record. *)
Definition source_dias (data : gmap string json) : list json :=
  match data !! "dias" with
  | Some (JArr (d :: ds)) => d :: ds
  | _ => match default_dias with JArr ds => ds | _ => [] end
  end.

(** A row as loaded from a row of the file: the three status fields are
    those of the file when present and PENDIENTE when absent; every other
    field is as in the file (absent when absent there). *)
Definition row_loaded (r r' : json) : Prop :=
  ∃ m m', r = JObj m ∧ r' = JObj m'
    ∧ ∀ k, m' !! k = if decide (k ∈ STATUS_FIELDS)
                     then Some (default (JStr "PENDIENTE") (m !! k))
                     else m !! k.

Definition rows_loaded (v v' : json) : Prop :=
  match v with
  | JArr rs => ∃ rs', v' = JArr rs' ∧ Forall2 row_loaded rs rs'
  | _ => v' = v
  end.

(** A day as loaded from a day of the file. *)
Definition day_loaded (d d' : json) : Prop :=
  ∃ m m', d = JObj m ∧ d' = JObj m'
    ∧ m' !! "nombre" = Some (default (JStr "Día") (m !! "nombre"))
    ∧ (∃ v', m' !! "rows" = Some v' ∧ rows_loaded (default (JArr []) (m !! "rows")) v')
    ∧ ∀ k, k ≠ "nombre"%string → k ≠ "rows"%string → m' !! k = m !! k.

(** Files the loader accepts: every day is an object whose rows, when
    present, are a list of objects. *)
Definition row_wf (r : json) : Prop := ∃ m, r = JObj m.

Definition day_wf (d : json) : Prop :=
  ∃ m, d = JObj m
    ∧ match m !! "rows" with
      | None => True
      | Some (JArr rs) => Forall row_wf rs
      | Some _ => False
      end.

Lemma setdefault_lookup k v (m : gmap string json) k' :
  setdefault k v m !! k'
  = if decide (k = k') then Some (default v (m !! k)) else m !! k'.
Proof.
  unfold setdefault. destruct (m !! k) as [w|] eqn:Hk; case_decide; subst;
    simpl; try reflexivity.
  - exact Hk.
  - apply lookup_insert_eq.
  - apply lookup_insert_ne. assumption.
Qed.

Lemma load_row_loaded r r' : load_row r = Some r' → row_loaded r r'.
Proof.
  destruct r as [| | | | |m]; simpl; try discriminate. intros [= <-].
  exists m. eexists. split; [reflexivity|]. split; [reflexivity|].
  intros k. rewrite !setdefault_lookup.
  destruct (decide (k ∈ STATUS_FIELDS)) as [Hin|Hout].
  - unfold STATUS_FIELDS in Hin. rewrite !elem_of_cons in Hin.
    destruct Hin as [->|[->|[->|Hin]]]; [reflexivity..|].
    apply elem_of_nil in Hin. contradiction.
  - repeat case_decide; try reflexivity; subst k; exfalso; apply Hout;
      unfold STATUS_FIELDS; rewrite !elem_of_cons; auto.
Qed.

Lemma load_rows_loaded v v' : load_rows v = Some v' → rows_loaded v v'.
Proof.
  destruct v as [| | |x|l|m]; simpl; try discriminate.
  - case_decide; [|discriminate]. intros [= <-]. reflexivity.
  - destruct (mapM load_row l) as [l'|] eqn:Hl; [|discriminate].
    simpl. intros [= <-]. exists l'. split; [reflexivity|].
    apply mapM_Some in Hl. eapply Forall2_impl; [exact Hl|].
    intros r r' H. apply load_row_loaded, H.
  - case_decide; [|discriminate]. intros [= <-]. reflexivity.
Qed.

Lemma load_day_loaded d d' : load_day d = Some d' → day_loaded d d'.
Proof.
  destruct d as [| | | | |m]; simpl; try discriminate.
  rewrite !setdefault_lookup. simpl.
  destruct (load_rows _) as [v'|] eqn:Hv; [|discriminate]. simpl. intros [= <-].
  exists m. eexists. split; [reflexivity|]. split; [reflexivity|]. split; [|split].
  - rewrite lookup_insert_ne by discriminate. rewrite !setdefault_lookup. reflexivity.
  - exists v'. split; [apply lookup_insert_eq|].
    apply load_rows_loaded, Hv.
  - intros k Hn Hr. rewrite lookup_insert_ne by congruence.
    rewrite !setdefault_lookup. repeat case_decide; congruence.
Qed.

Lemma load_row_total r : row_wf r → is_Some (load_row r).
Proof. intros [m ->]. eexists. reflexivity. Qed.

Lemma load_day_total d : day_wf d → is_Some (load_day d).
Proof.
  intros (m & -> & Hrows). simpl. rewrite !setdefault_lookup. simpl.
  destruct (m !! "rows") as [v|] eqn:Hv; simpl.
  - destruct v; try contradiction. simpl.
    assert (is_Some (mapM load_row l)) as [l' ->]; [|eexists; reflexivity].
    apply mapM_is_Some. eapply Forall_impl; [exact Hrows|].
    intros r Hr. apply load_row_total, Hr.
  - eexists. reflexivity.
Qed.

Lemma base_dias (data : gmap string json) :
  let base := data ∪ default_report in
  match base !! "dias" with
  | Some (JArr (_ :: _)) => base
  | _ => <["dias" := default_dias]> base
  end !! "dias" = Some (JArr (source_dias data)).
Proof.
  intros base. subst base. unfold source_dias.
  rewrite lookup_union. destruct (data !! "dias") as [v|] eqn:Hd; simpl.
  - change (default_report !! "dias") with (Some default_dias). simpl.
    destruct v as [| | | |[|d ds]|]; try apply lookup_insert_eq.
    rewrite lookup_union, Hd. reflexivity.
  - change (default_report !! "dias") with (Some default_dias). simpl.
    rewrite lookup_union, Hd. reflexivity.
Qed.

Lemma base_other (data : gmap string json) k :
  k ≠ "dias"%string →
  let base := data ∪ default_report in
  match base !! "dias" with
  | Some (JArr (_ :: _)) => base
  | _ => <["dias" := default_dias]> base
  end !! k
  = match data !! k with Some v => Some v | None => default_report !! k end.
Proof.
  intros Hk base.
  assert (Hb : base !! k = match data !! k with Some v => Some v | None => default_report !! k end).
  { subst base. rewrite lookup_union. destruct (data !! k), (default_report !! k); reflexivity. }
  destruct (base !! "dias") as [[| | | |[|d ds]|]|]; try exact Hb;
    rewrite lookup_insert_ne by congruence; exact Hb.
Qed.

(** What [open_report] returns, field by field. *)
Lemma open_report_spec (data base : gmap string json) :
  open_report data = Some base →
  (∀ k, k ≠ "dias"%string →
     base !! k = match data !! k with Some v => Some v | None => default_report !! k end)
  ∧ ∃ ds', base !! "dias" = Some (JArr ds') ∧ Forall2 day_loaded (source_dias data) ds'.
Proof.
  unfold open_report. intros H.
  pose proof (base_dias data) as Hd. pose proof (base_other data) as Ho.
  simpl in Hd, Ho.
  set (b := match (data ∪ default_report) !! "dias" with
            | Some (JArr (_ :: _)) => data ∪ default_report
            | _ => <["dias" := default_dias]> (data ∪ default_report)
            end) in *.
  rewrite Hd in H.
  destruct (mapM load_day (source_dias data)) as [ds'|] eqn:Hm; [|discriminate].
  simpl in H. injection H as <-. split.
  - intros k Hk. rewrite setdefault_lookup. case_decide as Hr.
    + subst k. rewrite lookup_insert_ne by discriminate.
      rewrite (Ho "reporte_rich"%string) by discriminate.
      destruct (data !! "reporte_rich"); reflexivity.
    + rewrite lookup_insert_ne by congruence. apply Ho, Hk.
  - exists ds'. split.
    + rewrite setdefault_lookup. case_decide; [discriminate|]. apply lookup_insert_eq.
    + apply mapM_Some in Hm. eapply Forall2_impl; [exact Hm|].
      intros d d' Hl. apply load_day_loaded, Hl.
Qed.

Lemma open_report_total (data : gmap string json) :
  Forall day_wf (source_dias data) → is_Some (open_report data).
Proof.
  intros Hwf. unfold open_report.
  pose proof (base_dias data) as Hd. simpl in Hd. rewrite Hd.
  assert (is_Some (mapM load_day (source_dias data))) as [ds' ->];
    [|eexists; reflexivity].
  apply mapM_is_Some. eapply Forall_impl; [exact Hwf|].
  intros d Hday. apply load_day_total, Hday.
Qed.


(** C7, as the code has it. In a fresh record the text fields of the cover
    are empty, the status is the first status option and the priority is the
    second priority option (MEDIA); there is one day "Día 1" without rows
    and an empty report text. In a loaded record every cover field absent
    from the file has the value of the fresh record and every field present
    keeps its value; each day has a name ("Día" when absent) and rows (none
    when absent); in each row an absent status field is PENDIENTE, and the
    other fields stay as in the file: an absent one is read as the empty
    string. The loader accepts every file whose days are objects with lists
    of objects as rows. *)
Theorem record_defaults :
  (∀ k, k ∈ TEXT_FIELDS → default_report !! k = Some (JStr ""))
  ∧ default_report !! "status_general" = Some (JStr (option_at STATUS_OPTIONS 0))
  ∧ default_report !! "prioridad" = Some (JStr (option_at PRIORITY_OPTIONS 1))
  ∧ option_at PRIORITY_OPTIONS 1 = "MEDIA"%string
  ∧ default_report !! "dias" = Some default_dias
  ∧ default_report !! "reporte_rich" = Some default_rich
  ∧ (∀ k, k ∈ STATUS_FIELDS → new_row !! k = Some (JStr (option_at BACKUP_OPTIONS 0)))
  ∧ (∀ data base, open_report data = Some base →
       (∀ k, k ≠ "dias"%string → data !! k = None → base !! k = default_report !! k)
       ∧ (∀ k v, k ≠ "dias"%string → data !! k = Some v → base !! k = Some v)
       ∧ ∃ ds', base !! "dias" = Some (JArr ds')
                ∧ Forall2 day_loaded (source_dias data) ds')
  ∧ (∀ data, Forall day_wf (source_dias data) → is_Some (open_report data))
  ∧ (∀ (r : row) k, r !! k = None → row_get r k = []).
Proof.
  split.
  { intros k Hk. unfold TEXT_FIELDS in Hk. rewrite !elem_of_cons in Hk.
    destruct Hk as [->|[->|[->|[->|[->|[->|Hk]]]]]]; [reflexivity..|].
    apply elem_of_nil in Hk. contradiction. }
  do 5 (split; [reflexivity|]).
  split.
  { intros k Hk. unfold STATUS_FIELDS in Hk. rewrite !elem_of_cons in Hk.
    destruct Hk as [->|[->|[->|Hk]]]; [reflexivity..|].
    apply elem_of_nil in Hk. contradiction. }
  split; [|split].
  - intros data base H. apply open_report_spec in H. destruct H as (Hk & Hd).
    split; [|split].
    + intros k Hne Hnone. rewrite (Hk k Hne), Hnone. reflexivity.
    + intros k v Hne Hsome. rewrite (Hk k Hne), Hsome. reflexivity.
    + exact Hd.
  - exact open_report_total.
  - intros r k Hnone. unfold row_get. rewrite Hnone. reflexivity.
Qed.

(** The theorem at the empty file: it loads, and the priority of the
    loaded record is that of the fresh one. *)
Lemma record_defaults_witness :
  ∃ base, open_report ∅ = Some base
    ∧ base !! "prioridad" = default_report !! "prioridad".
Proof.
  destruct record_defaults as (_ & _ & _ & _ & _ & _ & _ & Hload & Htotal & _).
  destruct (Htotal ∅) as [base Hbase].
  - repeat constructor. eexists. split; [reflexivity|]. vm_compute. constructor.
  - exists base. split; [exact Hbase|].
    destruct (Hload ∅ base Hbase) as (Habsent & _).
    apply Habsent; [discriminate|reflexivity].
Defined.

(** The default priority is not the first option of its list, neither in a
    fresh record nor in a record loaded from a file without priority. *)
Lemma priority_default_not_first :
  ¬ (default_report !! "prioridad" = Some (JStr (option_at PRIORITY_OPTIONS 0))
     ∨ ∃ base, open_report ∅ = Some base
         ∧ base !! "prioridad" = Some (JStr (option_at PRIORITY_OPTIONS 0))).
Proof.
  intros [H|(base & Hbase & H)].
  - vm_compute in H. discriminate H.
  - destruct (open_report_spec ∅ base Hbase) as (Hk & _).
    rewrite (Hk "prioridad"%string) in H by discriminate.
    vm_compute in H. discriminate H.
Qed.

End Defaults.

(** ** Offset-indexed wrapper *)

Module OffsetWrapper.

(** The spans [[a, b)] of the list follow one another from [lo] to [hi]:
    together they cover [[lo, hi)] with no gap and no overlap. *)
Fixpoint tiles (spans : list (nat * nat)) (lo hi : nat) : Prop :=
  match spans with
  | [] => lo = hi
  | (a, b) :: rest => a = lo ∧ lo <= b ∧ tiles rest b hi
  end.

(** The span of the text a returned line holds: from its start offset to its
    start offset plus its length. *)
Definition source_span (t : str * nat * nat) : nat * nat :=
  let '(line, line_start, _) := t in (line_start, line_start + length line).

(** The span of the text a call consumes: from its start offset to the
    next offset. *)
Definition consumed_span (t : str * nat * nat) : nat * nat :=
  let '(_, line_start, next_off) := t in (line_start, next_off).

(** The characters a call drops between the line and the next offset:
    spaces at a wrap, or the paragraph break. *)
Definition dropped (skip : str) : Prop :=
  Forall (fun c => c = SPACE) skip ∨ skip = [NEWLINE].

Lemma index_of_Some c (x : str) k :
  index_of c x = Some k → x !! k = Some c.
Proof.
  revert k. induction x as [|d x IH]; intros k H; simpl in H; [discriminate|].
  destruct (Ascii.eqb_spec d c) as [->|Hne].
  - injection H as <-. reflexivity.
  - destruct (index_of c x) as [j|]; [|discriminate].
    injection H as <-. simpl. apply IH. reflexivity.
Qed.

Lemma leading_spaces_le (x : str) : leading_spaces x <= length x.
Proof.
  induction x as [|c x IH]; simpl; [lia|]. destruct (Ascii.eqb c SPACE); simpl; lia.
Qed.

Lemma leading_spaces_take (x : str) :
  Forall (fun c => c = SPACE) (take (leading_spaces x) x).
Proof.
  induction x as [|c x IH]; simpl; [constructor|].
  destruct (Ascii.eqb_spec c SPACE) as [->|Hne]; simpl; constructor; auto.
Qed.

Lemma take_take_le {A : Type} (l : list A) a b : a <= b → take a (take b l) = take a l.
Proof. intros H. rewrite take_take. f_equal. lia. Qed.

Lemma take_drop_take {A : Type} (l : list A) a b m :
  a + m <= b → take m (drop a (take b l)) = take m (drop a l).
Proof.
  intros H. apply list_eq. intros i.
  rewrite !lookup_take, !lookup_drop, lookup_take.
  repeat case_decide; try reflexivity; lia.
Qed.

Section Wrapper.

Variable glyph_width : string → Q → ascii → Q.
Variable p : payload.
Variable max_w : Q.
Variable font_name : string.
Variable font_size : Q.

Local Abbreviation wrap := (fun start =>
  wrap_text_with_offsets glyph_width p start max_w font_name font_size).

(** The loop over a paragraph: the cut is within the paragraph, and the
    last space seen, if any, is a space of the paragraph. *)
Lemma scan_fit_spec (para : str) rest : ∀ i best_cut last_space,
  drop i para = rest →
  i <= length para →
  best_cut <= i →
  (last_space < Z.of_nat (length para))%Z →
  ((0 <= last_space)%Z → para !! Z.to_nat last_space = Some SPACE) →
  let r := scan_fit glyph_width font_name font_size max_w para rest i best_cut last_space in
  fst r <= length para
  ∧ (snd r < Z.of_nat (length para))%Z
  ∧ ((0 <= snd r)%Z → para !! Z.to_nat (snd r) = Some SPACE).
Proof.
  induction rest as [|c rest IH]; intros i bc ls Hdrop Hi Hbc Hls Hsp; simpl.
  - repeat split; [lia|exact Hls|exact Hsp].
  - assert (Hlook : para !! i = Some c).
    { rewrite <- (Nat.add_0_r i), <- lookup_drop, Hdrop. reflexivity. }
    assert (Hlt : i < length para) by (apply lookup_lt_Some in Hlook; exact Hlook).
    assert (Hls' : ((if Ascii.eqb c SPACE then Z.of_nat i else ls) < Z.of_nat (length para))%Z).
    { destruct (Ascii.eqb c SPACE); lia. }
    assert (Hsp' : (0 <= (if Ascii.eqb c SPACE then Z.of_nat i else ls))%Z →
                   para !! Z.to_nat (if Ascii.eqb c SPACE then Z.of_nat i else ls) = Some SPACE).
    { destruct (Ascii.eqb_spec c SPACE) as [->|Hne]; [|exact Hsp].
      intros _. rewrite Nat2Z.id. exact Hlook. }
    destruct (Qle_bool _ max_w).
    + apply IH; try lia; try assumption.
      rewrite Nat.add_1_r. erewrite drop_S in Hdrop by exact Hlook.
      injection Hdrop as Hdrop. exact Hdrop.
    + simpl. repeat split; [lia|exact Hls'|exact Hsp'].
Qed.

(** One call below the end of the text: it returns a line, starting at the
    offset given; the next offset is further on and not beyond the end; and
    the text from the offset given to the next one is the line followed by
    the characters dropped. *)
Lemma wrap_step start :
  start < length (text p) →
  ∃ line next_off skip,
    wrap start = (Some line, Some start, next_off)
    ∧ start < next_off <= length (text p)
    ∧ drop start (text p) = line ++ skip ++ drop next_off (text p)
    ∧ dropped skip.
Proof.
  intros Hstart. unfold wrap_text_with_offsets.
  destruct (Nat.leb_spec (length (text p)) start) as [Hge|_]; [lia|].
  destruct (text p !! start) as [c|] eqn:Hc;
    [|apply lookup_ge_None in Hc; lia].
  rewrite nth_lookup, Hc. simpl.
  pose proof (drop_S _ _ _ Hc) as Hrem.
  destruct (Ascii.eqb_spec c NEWLINE) as [->|Hnl].
  { exists [], (start + 1), [NEWLINE]. repeat split; try lia.
    - simpl. rewrite Hrem, Nat.add_1_r. reflexivity.
    - right. reflexivity. }
  unfold find_from. rewrite Hrem. simpl.
  destruct (Ascii.eqb_spec c NEWLINE) as [Heq|_]; [contradiction|].
  set (rem := drop (S start) (text p)) in *.
  assert (Hlen : length (drop start (text p)) = length (text p) - start)
    by apply length_drop.
  rewrite Hrem in Hlen. simpl in Hlen.
  (* the length of the paragraph, and what ends it *)
  set (plen := match index_of NEWLINE rem with
               | Some k => S k
               | None => length (text p) - start
               end).
  assert (Hplen : 1 <= plen <= S (length rem)).
  { subst plen. destruct (index_of NEWLINE rem) as [k|] eqn:Hk; [|lia].
    apply index_of_Some, lookup_lt_Some in Hk. lia. }
  assert (Hpara_end :
    match option_map (Nat.add start) (option_map S (index_of NEWLINE rem)) with
    | Some k => k
    | None => length (text p)
    end - start = plen).
  { subst plen. destruct (index_of NEWLINE rem); simpl; lia. }
  rewrite Hpara_end.
  set (para := take plen (c :: rem)).
  assert (Hparalen : length para = plen).
  { subst para. rewrite length_take. simpl. lia. }
  destruct (scan_fit glyph_width font_name font_size max_w para para 0 0 (-1))
    as [best_cut last_space] eqn:Hscan.
  pose proof (scan_fit_spec para para 0 0 (-1)%Z eq_refl) as Hspec.
  simpl in Hspec. rewrite Hscan in Hspec. simpl in Hspec.
  destruct Hspec as (Hbc & Hls & Hsp); try lia.
  rewrite Hparalen in *.
  destruct (Nat.eqb_spec best_cut plen) as [Hfull|Hcut].
  { (* the rest of the paragraph is one line *)
    subst plen.
    destruct (index_of NEWLINE rem) as [k|] eqn:Hk; simpl.
    - exists para, (start + S k + 1), [NEWLINE].
      apply index_of_Some in Hk. pose proof (lookup_lt_Some _ _ _ Hk) as Hklt.
      repeat split; try lia.
      + subst para. simpl. f_equal.
        replace (start + S k + 1) with (S start + S k) by lia.
        rewrite <- (drop_drop (text p) (S k) (S start)). fold rem.
        rewrite <- (take_drop k rem) at 1. f_equal.
        apply drop_S, Hk.
      + right. reflexivity.
    - exists para, (length (text p)), [].
      repeat split; try lia.
      + rewrite drop_all. subst para. simpl. rewrite !app_nil_r.
        rewrite take_ge by (simpl; lia). reflexivity.
      + left. constructor. }
  destruct (Z.ltb_spec 0 last_space) as [Hpos|Hneg].
  { (* break at the last space *)
    set (ls := Z.to_nat last_space).
    assert (Hlslt : ls < plen) by (subst ls; lia).
    assert (Hlsp : para !! ls = Some SPACE) by (apply Hsp; lia).
    set (m := leading_spaces (drop (ls + 1) para)).
    assert (Hm : ls + 1 + m <= plen).
    { subst m. pose proof (leading_spaces_le (drop (ls + 1) para)) as H.
      rewrite length_drop, Hparalen in H. lia. }
    exists (take ls para), (start + ls + 1 + m), (SPACE :: take m (drop (ls + 1) para)).
    repeat split; try lia.
    - rewrite <- (take_drop ls (c :: rem)) at 1.
      subst para. rewrite take_take_le by lia. f_equal.
      assert (Hls2 : (c :: rem) !! ls = Some SPACE).
      { rewrite lookup_take in Hlsp. case_decide; [exact Hlsp|discriminate]. }
      erewrite drop_S by exact Hls2. simpl. f_equal.
      rewrite <- (take_drop m (drop (S ls) (c :: rem))) at 1. f_equal.
      + rewrite Nat.add_1_r. symmetry. apply take_drop_take. lia.
      + rewrite drop_drop. rewrite <- Hrem, drop_drop. f_equal. lia.
    - left. constructor; [reflexivity|]. apply leading_spaces_take. }
  (* cut inside a word *)
  exists (take (Nat.max 1 best_cut) para), (start + Nat.max 1 best_cut), [].
  repeat split; try lia.
  - simpl. subst para. rewrite take_take_le by lia.
    rewrite <- (take_drop (Nat.max 1 best_cut) (c :: rem)) at 1. f_equal.
    rewrite <- Hrem, drop_drop. reflexivity.
  - left. constructor.
Qed.

(** What holds of a triple [(line, line_start, next_off)] returned. *)
Definition line_ok (t : str * nat * nat) : Prop :=
  let '(line, line_start, next_off) := t in
  line_start < next_off <= length (text p)
  ∧ ∃ skip, drop line_start (text p) = line ++ skip ++ drop next_off (text p)
            ∧ dropped skip.

(** Repeated calls from [start_offset]: with more fuel than characters
    left they come to the end of the text. *)
Lemma wrap_all_spec fuel : ∀ start,
  start <= length (text p) →
  length (text p) - start < fuel →
  ∃ ts, wrap_all glyph_width p fuel start max_w font_name font_size = Some ts
    ∧ tiles (map consumed_span ts) start (length (text p))
    ∧ Forall line_ok ts
    ∧ length ts <= length (text p) - start.
Proof.
  induction fuel as [|fuel IH]; intros start Hle Hfuel; [lia|].
  simpl. destruct (Nat.eq_dec start (length (text p))) as [->|Hne].
  - unfold wrap_text_with_offsets. rewrite Nat.leb_refl.
    exists []. simpl. repeat split; [constructor|lia].
  - destruct (wrap_step start) as (line & next & skip & -> & Hnext & Hsrc & Hskip); [lia|].
    destruct (IH next) as (ts & -> & Htiles & Hall & Hlen); [lia|lia|].
    exists ((line, start, next) :: ts). simpl. repeat split; try lia.
    + exact Htiles.
    + constructor; [|exact Hall]. split; [lia|]. exists skip. split; assumption.
Qed.

End Wrapper.

(** *** The pages of the report *)

Section Report.

Variable glyph_width : string → Q → ascii → Q.
Variable has_unicode : bool.
Variable p : payload.

Lemma first_line_fits : Qle_bool (0 + lh) max_h = true.
Proof. vm_compute. reflexivity. Qed.

(** The lines of one page: the loop ends, and it moves on in the text when
    there is text left and room for a line. *)
Lemma report_lines_total fuel : ∀ start y used pg,
  start <= length (text p) →
  length (text p) - start <= fuel →
  ∃ pg' off',
    report_lines glyph_width has_unicode p fuel start y used pg = Some (pg', off')
    ∧ start <= off' <= length (text p)
    ∧ (start < length (text p) → Qle_bool (used + lh) max_h = true → start < off').
Proof.
  induction fuel as [|fuel IH]; intros start y used pg Hle Hfuel.
  - assert (start = length (text p)) as -> by lia.
    simpl. rewrite Nat.ltb_irrefl. simpl.
    exists pg, (length (text p)). repeat split; lia.
  - simpl. destruct (Nat.ltb_spec start (length (text p))) as [Hlt|Hge]; simpl.
    + destruct (Qle_bool (used + lh) max_h) eqn:Hfit.
      * destruct (wrap_step glyph_width p max_w (FONT_N has_unicode) fs start Hlt)
          as (line & next & skip & -> & Hnext & _).
        edestruct (IH next) as (pg' & off' & -> & Hoff & _); [lia|lia|].
        exists pg', off'. repeat split; lia.
      * exists pg, start. repeat split; try lia; try discriminate.
    + exists pg, start. repeat split; lia.
Qed.

(** The pages of the report: with one unit of fuel per character the loop
    ends, with at most one page per character. *)
Lemma report_pages_total fuel : ∀ start page_num,
  start <= length (text p) →
  length (text p) - start <= fuel →
  ∃ pages,
    report_pages glyph_width has_unicode p fuel start page_num = Some pages
    ∧ length pages <= length (text p) - start
    ∧ (start < length (text p) → 1 <= length pages).
Proof.
  induction fuel as [|fuel IH]; intros start pn Hle Hfuel.
  - assert (start = length (text p)) as -> by lia.
    simpl. rewrite Nat.ltb_irrefl. exists []. repeat split; simpl; lia.
  - cbn [report_pages].
    destruct (Nat.ltb_spec start (length (text p))) as [Hlt|Hge].
    + destruct (report_lines_total (S fuel) start text_y_top 0
                  [ReportFrame (report_title pn)] Hle Hfuel)
        as (pg & off & -> & Hoff & Hmove).
      specialize (Hmove Hlt first_line_fits).
      destruct (IH off (pn + 1)) as (pages & -> & Hlen & _); [lia|lia|].
      exists (pg :: pages). repeat split; simpl; lia.
    + exists []. repeat split; simpl; lia.
Qed.

Lemma render_report_pages_total :
  ∃ pages,
    render_report_pages glyph_width has_unicode p (length (text p)) = Some pages
    ∧ 1 <= length pages <= Nat.max 1 (length (text p)).
Proof.
  unfold render_report_pages. destruct (strip (text p)) as [|c x] eqn:Hs; simpl.
  - eexists. split; [reflexivity|simpl; lia].
  - destruct (report_pages_total (length (text p)) 0 1)
      as (pages & Hp & Hlen & Hpos); [lia|lia|].
    exists pages. split; [exact Hp|].
    assert (0 < length (text p)); [|lia].
    destruct (text p); [discriminate|simpl; lia].
Qed.

End Report.

Lemma tiles_last (ts : list (str * nat * nat)) : ∀ lo hi,
  tiles (map consumed_span ts) lo hi → ts ≠ [] → snd <$> last ts = Some hi.
Proof.
  induction ts as [|[[line a] b] ts IH]; intros lo hi H Hne; [congruence|].
  simpl in H. destruct H as (_ & _ & H).
  destruct ts as [|t ts]; [simpl in *; congruence|].
  rewrite last_cons_cons. apply (IH b hi H). discriminate.
Qed.

(** C3. Below the end of the text one call returns a line and a next offset
    strictly greater than the offset given, and not beyond the end; the
    calls repeated from offset 0 end after at most [length text] lines, the
    offsets following one another up to [length text], which the last call
    returns; and the page loop of the report ends as well. *)
Theorem wrap_offsets_advance gw hu (p : payload) (mw : Q) fn (fsz : Q) (start : nat) :
  start < length (text p) →
  (∃ line next_off,
     wrap_text_with_offsets gw p start mw fn fsz = (Some line, Some start, next_off)
     ∧ start < next_off <= length (text p))
  ∧ (∃ ts, wrap_all gw p (S (length (text p))) 0 mw fn fsz = Some ts
       ∧ length ts <= length (text p)
       ∧ tiles (map consumed_span ts) 0 (length (text p))
       ∧ snd <$> last ts = Some (length (text p)))
  ∧ (∃ pages, render_report_pages gw hu p (length (text p)) = Some pages
       ∧ 1 <= length pages <= Nat.max 1 (length (text p))).
Proof.
  intros Hstart. split; [|split].
  - destruct (wrap_step gw p mw fn fsz start Hstart) as (line & next & skip & Hw & Hn & _).
    exists line, next. split; assumption.
  - destruct (wrap_all_spec gw p mw fn fsz (S (length (text p))) 0)
      as (ts & Hts & Htiles & _ & Hlen); [lia|lia|].
    exists ts. repeat split; try assumption; [lia|].
    apply (tiles_last ts 0 _ Htiles).
    destruct ts; [simpl in Htiles; lia|discriminate].
  - apply render_report_pages_total.
Qed.

(** The theorem at the text "hola mundo cruel", from offset 5, on lines six
    characters wide. *)
Lemma wrap_offsets_advance_witness :
  (∃ line next_off,
     wrap_text_with_offsets mono_width (Payload (chars "hola mundo cruel") [] [])
       5 6 "Helvetica" 2 = (Some line, Some 5, next_off)
     ∧ 5 < next_off <= 16)
  ∧ (∃ ts, wrap_all mono_width (Payload (chars "hola mundo cruel") [] [])
             17 0 6 "Helvetica" 2 = Some ts
       ∧ length ts <= 16
       ∧ tiles (map consumed_span ts) 0 16
       ∧ snd <$> last ts = Some 16)
  ∧ (∃ pages, render_report_pages mono_width false
                (Payload (chars "hola mundo cruel") [] []) 16 = Some pages
       ∧ 1 <= length pages <= Nat.max 1 16).
Proof.
  apply (wrap_offsets_advance mono_width false
           (Payload (chars "hola mundo cruel") [] []) 6 "Helvetica" 2 5).
  simpl. lia.
Defined.

(** C1, as the code has it. The calls repeated from offset 0 return lines
    whose consumed spans, from the start offset of a line to the next offset,
    cover [[0, length text)] with no gap and no overlap. Each line is the
    text at its start offset, and between the end of the line and the next
    offset the wrapper drops either the spaces of the wrap or the one
    paragraph break: these characters are in no line's source span. *)
Theorem wrap_spans_tile gw (p : payload) (mw : Q) fn (fsz : Q) :
  ∃ ts, wrap_all gw p (S (length (text p))) 0 mw fn fsz = Some ts
    ∧ tiles (map consumed_span ts) 0 (length (text p))
    ∧ Forall (fun t =>
        let '(line, line_start, next_off) := t in
        ∃ skip,
          drop line_start (text p) = line ++ skip ++ drop next_off (text p)
          ∧ next_off = line_start + length line + length skip
          ∧ dropped skip) ts.
Proof.
  destruct (wrap_all_spec gw p mw fn fsz (S (length (text p))) 0)
    as (ts & Hts & Htiles & Hall & _); [lia|lia|].
  exists ts. split; [exact Hts|]. split; [exact Htiles|].
  eapply Forall_impl; [exact Hall|].
  intros [[line ls] next] (Hn & skip & Hsrc & Hskip).
  exists skip. repeat split; try assumption.
  apply (f_equal (@length ascii)) in Hsrc.
  rewrite !length_app, !length_drop in Hsrc. lia.
Qed.

(** On the text "a", paragraph break, "b" the lines are "a" at offset 0 and
    "b" at offset 2: the source spans [[0, 1)] and [[2, 3)] leave offset 1,
    the paragraph break, uncovered. *)
Lemma source_spans_leave_gap :
  ¬ ∃ ts, wrap_all mono_width (Payload (chars "a" ++ NEWLINE :: chars "b") [] [])
            4 0 100 "Helvetica" 10 = Some ts
          ∧ tiles (map source_span ts) 0 3.
Proof.
  intros (ts & Hts & Htiles). vm_compute in Hts. injection Hts as <-.
  simpl in Htiles. lia.
Qed.

End OffsetWrapper.

(** ** Word wrapper *)

Module WordWrapper.

Local Open Scope Q_scope.

(** *** What [strip] removes *)

Definition blank (c : ascii) : Prop := isspace c = true.
Definition ink (c : ascii) : Prop := isspace c = false.

Lemma last_rev {A : Type} (l : list A) : last (rev l) = head l.
Proof. destruct l as [|a l]; [reflexivity|]. simpl. apply last_snoc. Qed.

Lemma elem_of_rev {A : Type} (l : list A) (a : A) : a ∈ rev l ↔ a ∈ l.
Proof. rewrite !list_elem_of_In. symmetry. apply in_rev. Qed.

Lemma lstrip_spec (x : str) :
  ∃ pre, x = pre ++ lstrip x
    ∧ Forall blank pre
    ∧ ∀ c, head (lstrip x) = Some c → ink c.
Proof.
  induction x as [|c x (pre & Hx & Hpre & Hhead)]; simpl.
  - exists []. repeat split; [constructor|discriminate].
  - destruct (isspace c) eqn:Hc.
    + exists (c :: pre). simpl. rewrite <- Hx. repeat split; [|exact Hhead].
      constructor; assumption.
    + exists []. repeat split; [constructor|]. intros d [= <-]. exact Hc.
Qed.

Lemma rstrip_spec (x : str) :
  ∃ post, x = rstrip x ++ post
    ∧ Forall blank post
    ∧ ∀ c, last (rstrip x) = Some c → ink c.
Proof.
  unfold rstrip. destruct (lstrip_spec (rev x)) as (pre & Hx & Hpre & Hhead).
  exists (rev pre). repeat split.
  - rewrite <- rev_app_distr, <- Hx, rev_involutive. reflexivity.
  - apply Forall_rev, Hpre.
  - intros c Hc. apply Hhead. rewrite last_rev in Hc. exact Hc.
Qed.

(** [strip] keeps a middle part of the string, takes blanks off both ends,
    and leaves no blank at either end. *)
Lemma strip_spec (x : str) :
  ∃ pre post, x = pre ++ strip x ++ post
    ∧ Forall blank pre ∧ Forall blank post
    ∧ (∀ c, head (strip x) = Some c → ink c)
    ∧ (∀ c, last (strip x) = Some c → ink c).
Proof.
  unfold strip. destruct (lstrip_spec x) as (pre & Hx & Hpre & Hhead).
  destruct (rstrip_spec (lstrip x)) as (post & Hy & Hpost & Hlast).
  exists pre, post. repeat split; try assumption.
  - rewrite <- Hy. exact Hx.
  - intros c Hc. apply Hhead. rewrite Hy.
    destruct (rstrip (lstrip x)); [discriminate|]. exact Hc.
Qed.

Lemma lstrip_ink (x : str) : lstrip x ≠ [] ↔ Exists ink x.
Proof.
  induction x as [|c x IH]; simpl.
  - split; [congruence|]. intros H. inversion H.
  - destruct (isspace c) eqn:Hc.
    + rewrite IH. split; [intros H; right; exact H|].
      intros H. inversion H as [? ? Hi|]; subst; [|assumption].
      unfold ink in Hi. congruence.
    + split; [|discriminate]. intros _. left. exact Hc.
Qed.

Lemma Exists_ink_rev (x : str) : Exists ink (rev x) ↔ Exists ink x.
Proof. rewrite !Exists_exists. setoid_rewrite elem_of_rev. reflexivity. Qed.

Lemma strip_ink (x : str) : strip x ≠ [] ↔ Exists ink x.
Proof.
  unfold strip, rstrip.
  split.
  - intros H. apply lstrip_ink.
    intros Hnil. rewrite Hnil in H. apply H. reflexivity.
  - intros H Hnil. apply (f_equal (@rev ascii)) in Hnil.
    rewrite rev_involutive in Hnil. simpl in Hnil.
    revert Hnil. apply lstrip_ink. apply Exists_ink_rev.
    (* the ink of [x] is in [lstrip x] *)
    destruct (lstrip_spec x) as (pre & Hx & Hpre & _).
    rewrite Hx in H. apply Exists_app in H. destruct H as [H|H]; [|exact H].
    exfalso. apply Exists_exists in H. destruct H as (c & Hin & Hc).
    rewrite Forall_forall in Hpre. specialize (Hpre c Hin).
    unfold blank, ink in *. congruence.
Qed.

Lemma strip_ink_keeps (x : str) : Exists ink x → Exists ink (strip x).
Proof.
  intros H. apply strip_ink in H.
  destruct (strip_spec x) as (_ & _ & _ & _ & _ & Hhead & _).
  destruct (strip x) as [|c y]; [congruence|].
  left. apply Hhead. reflexivity.
Qed.

Lemma strip_elem (x : str) c : c ∈ strip x → c ∈ x.
Proof.
  intros H. destruct (strip_spec x) as (pre & post & Hx & _).
  rewrite Hx. rewrite !elem_of_app. auto.
Qed.

Lemma isspace_SPACE : isspace SPACE = true.
Proof. reflexivity. Qed.

Lemma isspace_TAB : isspace TAB = true.
Proof. reflexivity. Qed.

(** *** Tokens of [split(" ")] *)

Lemma split_space_aux_spec (x : str) : ∀ acc,
  Forall (fun w => (SPACE ∉ w) ∧ (∀ c, c ∈ w → c ∈ x ∨ c ∈ acc)) (split_space_aux x acc)
  ∨ SPACE ∈ acc.
Proof.
  induction x as [|c x IH]; intros acc; simpl.
  - destruct (decide (SPACE ∈ acc)) as [Hin|Hout]; [right; exact Hin|left].
    constructor; [|constructor]. split.
    + rewrite elem_of_rev. exact Hout.
    + intros d Hd. right. rewrite elem_of_rev in Hd. exact Hd.
  - destruct (decide (SPACE ∈ acc)) as [Hin|Hout]; [right; exact Hin|left].
    destruct (Ascii.eqb_spec c SPACE) as [->|Hne].
    + constructor.
      * split; [rewrite elem_of_rev; exact Hout|].
        intros d Hd. right. rewrite elem_of_rev in Hd. exact Hd.
      * destruct (IH []) as [H|H]; [|apply elem_of_nil in H; contradiction].
        eapply Forall_impl; [exact H|]. intros w [Hw Hc]. split; [exact Hw|].
        intros d Hd. destruct (Hc d Hd) as [Hx|Hn].
        -- left. right. exact Hx.
        -- apply elem_of_nil in Hn. contradiction.
    + destruct (IH (c :: acc)) as [H|H].
      * eapply Forall_impl; [exact H|]. intros w [Hw Hc]. split; [exact Hw|].
        intros d Hd. destruct (Hc d Hd) as [Hx|Hn].
        -- left. right. exact Hx.
        -- apply elem_of_cons in Hn. destruct Hn as [->|Hn]; [left; left|right; exact Hn].
      * apply elem_of_cons in H. destruct H as [H|H]; [congruence|contradiction].
Qed.

(** A token holds no space, and only characters of the string split. *)
Lemma split_space_tokens (x : str) :
  Forall (fun w => (SPACE ∉ w) ∧ (∀ c, c ∈ w → c ∈ x)) (split_space x).
Proof.
  destruct (split_space_aux_spec x []) as [H|H]; [|apply elem_of_nil in H; contradiction].
  eapply Forall_impl; [exact H|]. intros w [Hw Hc]. split; [exact Hw|].
  intros c Hin. destruct (Hc c Hin) as [Hx|Hn]; [exact Hx|].
  apply elem_of_nil in Hn. contradiction.
Qed.

Lemma split_space_aux_head (x : str) : ∀ acc,
  ∃ w rest, split_space_aux x acc = (rev acc ++ w) :: rest.
Proof.
  induction x as [|c x IH]; intros acc; simpl.
  - exists [], []. rewrite app_nil_r. reflexivity.
  - destruct (Ascii.eqb c SPACE).
    + exists [], (split_space_aux x []). rewrite app_nil_r. reflexivity.
    + destruct (IH (c :: acc)) as (w & rest & ->). exists (c :: w), rest.
      simpl. rewrite <- app_assoc. reflexivity.
Qed.

(** The first token of a string that starts with ink starts with it. *)
Lemma split_space_first c (x : str) :
  ink c → ∃ w rest, split_space (c :: x) = (c :: w) :: rest.
Proof.
  intros Hc. unfold split_space. simpl.
  destruct (Ascii.eqb_spec c SPACE) as [->|_].
  - unfold ink in Hc. rewrite isspace_SPACE in Hc. discriminate.
  - destruct (split_space_aux_head x [c]) as (w & rest & ->).
    exists w, rest. reflexivity.
Qed.

(** *** The loop of [wrap_lines] *)

Section Wrap.

Variable glyph_width : string → Q → ascii → Q.
Variable font_name : string.
Variable font_size max_width : Q.

Local Abbreviation W x := (stringWidth glyph_width x font_name font_size).
Local Abbreviation step :=
  (fun (st : wrap_state) (w : str) =>
     if negb (truthy w) then st
     else add_token glyph_width font_name font_size max_width w st).

Lemma W_app (a b : str) : W (a ++ b) == W a + W b.
Proof.
  induction a as [|c a IH]; simpl.
  - lra.
  - unfold stringWidth in *. simpl. rewrite IH. lra.
Qed.

(** A line the wrapper may return: within the width, or one character that
    alone is wider. *)
Definition fits (l : str) : Prop :=
  W l <= max_width ∨ ∃ c, l = [c] ∧ max_width < W [c].

Lemma truthy_nonempty (x : str) : truthy x = true ↔ x ≠ [].
Proof. destruct x; simpl; split; congruence. Qed.

Lemma cut_fold_buf (tok : str) : ∀ ls buf,
  tok ≠ [] ∨ buf ≠ [] →
  snd (fold_left (cut_step glyph_width font_name font_size max_width) tok (ls, buf)) ≠ [].
Proof.
  induction tok as [|ch tok IH]; intros ls buf H; simpl.
  - destruct H; congruence.
  - destruct (Qle_bool _ max_width); apply IH; right.
    + intros Heq. apply app_eq_nil in Heq. destruct Heq; discriminate.
    + discriminate.
Qed.

Lemma cut_fold_lines (tok : str) : ∀ ls buf,
  ls ≠ [] →
  fst (fold_left (cut_step glyph_width font_name font_size max_width) tok (ls, buf)) ≠ [].
Proof.
  induction tok as [|ch tok IH]; intros ls buf H; simpl; [exact H|].
  destruct (Qle_bool _ max_width); apply IH; [exact H|].
  destruct (truthy buf); [|exact H].
  intros Heq. apply app_eq_nil in Heq. destruct Heq; discriminate.
Qed.

(** The two ways [wrap_lines] returns: the one empty line, or the lines
    collected by the loop and the last [flush]. *)
Lemma wrap_lines_cases (text : str) :
  let x := strip (replace_tabs text) in
  let out := lines (flush (fold_left step (split_space x) (WrapState [] []))) in
  (wrap_lines glyph_width text font_name font_size max_width = [[]]
   ∧ (x = [] ∨ out = []))
  ∨ (x ≠ [] ∧ out ≠ []
     ∧ wrap_lines glyph_width text font_name font_size max_width = out).
Proof.
  intros x out. unfold wrap_lines. fold x.
  destruct x as [|c x'] eqn:Hx; [left; split; [reflexivity|left; reflexivity]|].
  cbn [truthy negb]. cbv zeta. fold out.
  destruct out as [|l ls]; [left; split; [reflexivity|right; reflexivity]|].
  right. repeat split; discriminate.
Qed.

(** **** Widths *)

Section Widths.

Hypothesis blank_width : ∀ c, blank c → 0 <= glyph_width font_name font_size c.

Lemma W_blank (x : str) : Forall blank x → 0 <= W x.
Proof.
  induction 1 as [|c x Hc _ IH]; unfold stringWidth in *; simpl.
  - lra.
  - specialize (blank_width c Hc). lra.
Qed.

Lemma W_strip (x : str) : W (strip x) <= W x.
Proof.
  destruct (strip_spec x) as (pre & post & Hx & Hpre & Hpost & _).
  rewrite Hx at 2. rewrite !W_app.
  pose proof (W_blank pre Hpre). pose proof (W_blank post Hpost). lra.
Qed.

Definition inv_width (st : wrap_state) : Prop :=
  Forall fits (lines st) ∧ (cur st = [] ∨ W (cur st) <= max_width).

Lemma flush_width st : inv_width st → inv_width (flush st).
Proof.
  intros [Hl Hc]. unfold flush. split; simpl; [|left; reflexivity].
  destruct (truthy (strip (cur st))) eqn:Ht; [|exact Hl].
  apply Forall_app. split; [exact Hl|]. constructor; [|constructor].
  left. destruct Hc as [Hc|Hc].
  - rewrite Hc in Ht. discriminate.
  - pose proof (W_strip (cur st)). lra.
Qed.

Lemma cut_fold_width (tok : str) : ∀ ls buf,
  Forall fits ls → buf = [] ∨ fits buf →
  let r := fold_left (cut_step glyph_width font_name font_size max_width) tok (ls, buf) in
  Forall fits (fst r) ∧ (snd r = [] ∨ fits (snd r)).
Proof.
  induction tok as [|ch tok IH]; intros ls buf Hl Hb; simpl; [split; assumption|].
  destruct (Qle_bool _ max_width) eqn:Hfit.
  - apply IH; [exact Hl|]. right. left. apply Qle_bool_iff, Hfit.
  - apply IH.
    + destruct buf as [|b buf]; simpl; [exact Hl|].
      apply Forall_app. split; [exact Hl|]. constructor; [|constructor].
      destruct Hb as [Hb|Hb]; [discriminate|exact Hb].
    + right. destruct (Qlt_le_dec max_width (W [ch])) as [Hwide|Hok].
      * right. exists ch. split; [reflexivity|exact Hwide].
      * left. exact Hok.
Qed.

Lemma add_token_width tok st :
  inv_width st →
  inv_width (add_token glyph_width font_name font_size max_width tok st).
Proof.
  intros Hinv. unfold add_token.
  destruct (Qle_bool (W (strip _)) max_width) eqn:Htest.
  { destruct Hinv as [Hl _]. split; simpl; [exact Hl|].
    right. apply Qle_bool_iff, Htest. }
  set (st1 := if truthy (cur st) then flush st else st).
  assert (Hst1 : inv_width st1 ∧ cur st1 = []).
  { subst st1. destruct (cur st) as [|c x] eqn:Hc; simpl.
    - split; [exact Hinv|exact Hc].
    - split; [apply flush_width, Hinv|reflexivity]. }
  destruct Hst1 as [[Hl1 _] Hc1].
  destruct (Qle_bool (W tok) max_width) eqn:Htok.
  { split; simpl; [exact Hl1|]. right. apply Qle_bool_iff, Htok. }
  destruct (fold_left _ tok (lines st1, [])) as [ls buf] eqn:Hfold.
  pose proof (cut_fold_width tok (lines st1) [] Hl1 (or_introl eq_refl)) as Hcut.
  rewrite Hfold in Hcut. simpl in Hcut. destruct Hcut as [Hls Hbuf].
  split; simpl; [|left; exact Hc1].
  destruct buf as [|b buf]; simpl; [exact Hls|].
  apply Forall_app. split; [exact Hls|]. constructor; [|constructor].
  destruct Hbuf as [Hbuf|Hbuf]; [discriminate|exact Hbuf].
Qed.

Lemma wrap_fold_width (words : list str) : ∀ st,
  inv_width st → inv_width (fold_left step words st).
Proof.
  induction words as [|w words IH]; intros st Hinv; simpl; [exact Hinv|].
  apply IH. destruct (truthy w); simpl; [apply add_token_width|]; exact Hinv.
Qed.

End Widths.

(** **** Spaces and tabs *)

(** No space at either end, and no tab. *)
Definition tidy (l : str) : Prop :=
  head l ≠ Some SPACE ∧ last l ≠ Some SPACE ∧ (TAB ∉ l).

Definition inv_tidy (st : wrap_state) : Prop :=
  Forall (fun l => l ≠ [] ∧ tidy l) (lines st) ∧ (TAB ∉ cur st).

Lemma strip_tidy (x : str) : TAB ∉ x → tidy (strip x).
Proof.
  intros Htab. destruct (strip_spec x) as (_ & _ & _ & _ & _ & Hhead & Hlast).
  repeat split.
  - intros H. apply Hhead in H. unfold ink in H. rewrite isspace_SPACE in H. discriminate.
  - intros H. apply Hlast in H. unfold ink in H. rewrite isspace_SPACE in H. discriminate.
  - intros H. apply Htab, strip_elem, H.
Qed.

Lemma spaceless_tidy (l : str) : SPACE ∉ l → TAB ∉ l → tidy l.
Proof.
  intros Hs Ht. repeat split; [| |exact Ht].
  - intros H. apply Hs. destruct l; [discriminate|]. injection H as ->. left.
  - intros H. apply Hs. apply last_Some in H. destruct H as (l' & ->).
    apply elem_of_app. right. left.
Qed.

Lemma flush_tidy st : inv_tidy st → inv_tidy (flush st).
Proof.
  intros [Hl Hc]. unfold flush. split; simpl; [|apply not_elem_of_nil].
  destruct (truthy (strip (cur st))) eqn:Ht; [|exact Hl].
  apply Forall_app. split; [exact Hl|]. constructor; [|constructor].
  split; [apply truthy_nonempty, Ht|apply strip_tidy, Hc].
Qed.

Lemma cut_fold_tidy (tok : str) : ∀ ls buf,
  SPACE ∉ tok → TAB ∉ tok →
  Forall (fun l => l ≠ [] ∧ tidy l) ls →
  SPACE ∉ buf → TAB ∉ buf →
  let r := fold_left (cut_step glyph_width font_name font_size max_width) tok (ls, buf) in
  Forall (fun l => l ≠ [] ∧ tidy l) (fst r) ∧ (SPACE ∉ snd r) ∧ (TAB ∉ snd r).
Proof.
  induction tok as [|ch tok IH]; intros ls buf Hs Ht Hl Hbs Hbt; simpl;
    [repeat split; assumption|].
  apply not_elem_of_cons in Hs, Ht. destruct Hs as [Hs1 Hs], Ht as [Ht1 Ht].
  destruct (Qle_bool _ max_width).
  - apply IH; try assumption.
    + rewrite elem_of_app, list_elem_of_singleton. intros [H|H]; [auto|congruence].
    + rewrite elem_of_app, list_elem_of_singleton. intros [H|H]; [auto|congruence].
  - apply IH; try assumption.
    + destruct buf as [|b buf]; simpl; [exact Hl|].
      apply Forall_app. split; [exact Hl|]. constructor; [|constructor].
      split; [discriminate|apply spaceless_tidy; assumption].
    + rewrite list_elem_of_singleton. congruence.
    + rewrite list_elem_of_singleton. congruence.
Qed.

Lemma add_token_tidy tok st :
  SPACE ∉ tok → TAB ∉ tok →
  inv_tidy st →
  inv_tidy (add_token glyph_width font_name font_size max_width tok st).
Proof.
  intros Hs Ht Hinv. unfold add_token.
  destruct (Qle_bool (W (strip _)) max_width).
  { destruct Hinv as [Hl Hc]. split; simpl; [exact Hl|].
    intros H. apply strip_elem in H. apply elem_of_app in H.
    destruct H as [H|H]; [auto|]. apply elem_of_cons in H.
    destruct H as [H|H]; [discriminate|auto]. }
  set (st1 := if truthy (cur st) then flush st else st).
  assert (Hst1 : inv_tidy st1).
  { subst st1. destruct (truthy (cur st)); [apply flush_tidy|]; exact Hinv. }
  destruct Hst1 as [Hl1 Hc1].
  destruct (Qle_bool (W tok) max_width).
  { split; simpl; assumption. }
  destruct (fold_left _ tok (lines st1, [])) as [ls buf] eqn:Hfold.
  pose proof (cut_fold_tidy tok (lines st1) [] Hs Ht Hl1
                (not_elem_of_nil _) (not_elem_of_nil _)) as Hcut.
  rewrite Hfold in Hcut. simpl in Hcut. destruct Hcut as (Hls & Hbs & Hbt).
  split; simpl; [|exact Hc1].
  destruct buf as [|b buf]; simpl; [exact Hls|].
  apply Forall_app. split; [exact Hls|]. constructor; [|constructor].
  split; [discriminate|apply spaceless_tidy; assumption].
Qed.

Lemma wrap_fold_tidy (words : list str) : ∀ st,
  Forall (fun w => (SPACE ∉ w) ∧ (TAB ∉ w)) words →
  inv_tidy st → inv_tidy (fold_left step words st).
Proof.
  induction words as [|w words IH]; intros st Hw Hinv; simpl; [exact Hinv|].
  inversion Hw as [|? ? [Hs Ht] Hrest]; subst.
  apply IH; [exact Hrest|].
  destruct (truthy w); simpl; [apply add_token_tidy|]; assumption.
Qed.

(** **** At least one line *)

(** Something will be printed: a line is out already, or the line under
    way holds ink. *)
Definition inv_ink (st : wrap_state) : Prop :=
  lines st ≠ [] ∨ Exists ink (cur st).

Lemma flush_ink st : inv_ink st → lines (flush st) ≠ [].
Proof.
  intros [H|H]; unfold flush; simpl.
  - destruct (truthy _); [|exact H].
    intros Heq. apply app_eq_nil in Heq. destruct Heq; congruence.
  - apply strip_ink, truthy_nonempty in H. rewrite H.
    intros Heq. apply app_eq_nil in Heq. destruct Heq; discriminate.
Qed.

Lemma add_token_ink tok st :
  inv_ink st ∨ Exists ink tok →
  inv_ink (add_token glyph_width font_name font_size max_width tok st).
Proof.
  intros H. unfold add_token.
  destruct (Qle_bool (W (strip _)) max_width).
  { unfold inv_ink. simpl.
    destruct H as [[H|H]|H]; [left; exact H| |];
      right; apply strip_ink_keeps, Exists_app.
    - left. exact H.
    - right. right. exact H. }
  set (st1 := if truthy (cur st) then flush st else st).
  assert (Hst1 : inv_ink st → lines st1 ≠ []).
  { intros Hi. subst st1. destruct (cur st) as [|c x] eqn:Hc; simpl.
    - destruct Hi as [Hi|Hi]; [exact Hi|]. rewrite Hc in Hi. inversion Hi.
    - apply flush_ink, Hi. }
  destruct (Qle_bool (W tok) max_width).
  { unfold inv_ink. simpl. destruct H as [H|H]; [left; apply Hst1, H|right; exact H]. }
  destruct (fold_left _ tok (lines st1, [])) as [ls buf] eqn:Hfold.
  left. simpl.
  destruct H as [H|H].
  - pose proof (cut_fold_lines tok (lines st1) [] (Hst1 H)) as Hls.
    rewrite Hfold in Hls. simpl in Hls.
    destruct (truthy buf); [|exact Hls].
    intros Heq. apply app_eq_nil in Heq. destruct Heq; congruence.
  - assert (Hbuf : buf ≠ []).
    { pose proof (cut_fold_buf tok (lines st1) []) as Hb.
      rewrite Hfold in Hb. apply Hb. left. intros ->. inversion H. }
    apply truthy_nonempty in Hbuf. rewrite Hbuf.
    intros Heq. apply app_eq_nil in Heq. destruct Heq; discriminate.
Qed.

Lemma wrap_fold_ink (words : list str) : ∀ st,
  inv_ink st → inv_ink (fold_left step words st).
Proof.
  induction words as [|w words IH]; intros st Hinv; simpl; [exact Hinv|].
  apply IH. destruct (truthy w); simpl; [|exact Hinv].
  apply add_token_ink. left. exact Hinv.
Qed.

End Wrap.

Lemma replace_tabs_no_tab (x : str) : TAB ∉ replace_tabs x.
Proof.
  unfold replace_tabs. induction x as [|c x IH]; simpl; [apply not_elem_of_nil|].
  apply not_elem_of_cons. split; [|exact IH].
  destruct (Ascii.eqb c TAB) eqn:E; intros H.
  - discriminate H.
  - subst c. rewrite Ascii.eqb_refl in E. discriminate E.
Qed.

Lemma replace_tabs_ink (x : str) : Exists ink x → Exists ink (replace_tabs x).
Proof.
  unfold replace_tabs. induction 1 as [c x Hc|c x _ IH]; simpl.
  - left. destruct (Ascii.eqb_spec c TAB) as [->|_]; [|exact Hc].
    unfold ink in Hc. rewrite isspace_TAB in Hc. discriminate.
  - right. exact IH.
Qed.

(** C4. For a positive maximum width, and advance widths that are not
    negative on the blanks [strip] removes, the word wrapper returns at least
    one line, and every line is within the maximum width or is a single
    character that alone is wider. *)
Theorem wrap_lines_fit gw (text : str) fn (fsz mw : Q) :
  (∀ c, isspace c = true → 0 <= gw fn fsz c) →
  0 < mw →
  wrap_lines gw text fn fsz mw ≠ []
  ∧ Forall (fun l => stringWidth gw l fn fsz <= mw
                     ∨ ∃ c, l = [c] ∧ mw < stringWidth gw [c] fn fsz)
      (wrap_lines gw text fn fsz mw).
Proof.
  intros Hblank Hmw. split.
  - destruct (wrap_lines_cases gw fn fsz mw text) as [[-> _]|(_ & Hne & ->)];
      [discriminate|exact Hne].
  - destruct (wrap_lines_cases gw fn fsz mw text) as [[-> _]|(_ & _ & ->)].
    + constructor; [|constructor]. left. unfold stringWidth. simpl. lra.
    + apply (flush_width gw fn fsz mw Hblank), (wrap_fold_width gw fn fsz mw Hblank).
      split; simpl; [constructor|left; reflexivity].
Qed.

(** The theorem at a text with a long word, eight characters to the line. *)
Lemma wrap_lines_fit_witness :
  wrap_lines mono_width (chars "uno dos  tres abcdefghij") "Helvetica" 2 4 ≠ []
  ∧ Forall (fun l => stringWidth mono_width l "Helvetica" 2 <= 4
                     ∨ ∃ c, l = [c] ∧ 4 < stringWidth mono_width [c] "Helvetica" 2)
      (wrap_lines mono_width (chars "uno dos  tres abcdefghij") "Helvetica" 2 4).
Proof.
  apply (wrap_lines_fit mono_width (chars "uno dos  tres abcdefghij") "Helvetica" 2 4).
  - intros c _. vm_compute. discriminate.
  - reflexivity.
Defined.

(** C10. No line the word wrapper returns starts or ends with a space or
    holds a tab; and when the input holds a character that is not white
    space, no line returned is empty. *)
Theorem wrap_lines_tidy gw (text : str) fn (fsz mw : Q) :
  Forall (fun l => head l ≠ Some SPACE ∧ last l ≠ Some SPACE ∧ (TAB ∉ l))
    (wrap_lines gw text fn fsz mw)
  ∧ (Exists (fun c => isspace c = false) text →
     Forall (fun l => l ≠ []) (wrap_lines gw text fn fsz mw)).
Proof.
  pose proof (wrap_lines_cases gw fn fsz mw text) as Hcases. simpl in Hcases.
  set (x := strip (replace_tabs text)) in *.
  assert (Htab : TAB ∉ x).
  { intros H. apply strip_elem in H. revert H. apply replace_tabs_no_tab. }
  assert (Hwords : Forall (fun w => (SPACE ∉ w) ∧ (TAB ∉ w)) (split_space x)).
  { eapply Forall_impl; [apply split_space_tokens|]. intros w [Hs Hc].
    split; [exact Hs|]. intros H. apply Htab, Hc, H. }
  assert (Hinit : inv_tidy (WrapState [] [])).
  { split; simpl; [constructor|apply not_elem_of_nil]. }
  pose proof (flush_tidy _
                (wrap_fold_tidy gw fn fsz mw (split_space x) (WrapState [] []) Hwords Hinit))
    as [Hl _].
  split.
  - destruct Hcases as [[-> _]|(_ & _ & ->)].
    + constructor; [|constructor]. repeat split; try discriminate. apply not_elem_of_nil.
    + eapply Forall_impl; [exact Hl|]. intros l' [_ Ht]. exact Ht.
  - intros Hink. apply replace_tabs_ink, strip_ink_keeps in Hink. fold x in Hink.
    destruct (strip_spec (replace_tabs text)) as (_ & _ & _ & _ & _ & Hhead & _).
    fold x in Hhead.
    assert (Hout : lines (flush (fold_left
              (fun st w => if negb (truthy w) then st
                           else add_token gw fn fsz mw w st)
              (split_space x) (WrapState [] []))) ≠ []).
    { apply flush_ink. destruct x as [|c x']; [inversion Hink|].
      destruct (split_space_first c x' (Hhead c eq_refl)) as (w & rest & ->).
      simpl. apply wrap_fold_ink, add_token_ink. right. left. apply (Hhead c eq_refl). }
    destruct Hcases as [[_ [Heq|Heq]]|(_ & _ & ->)].
    + rewrite Heq in Hink. inversion Hink.
    + contradiction.
    + eapply Forall_impl; [exact Hl|]. intros l' [Hne _]. exact Hne.
Qed.

(** The theorem at a text with tabs and blanks at both ends. *)
Lemma wrap_lines_tidy_witness :
  Forall (fun l => l ≠ [])
    (wrap_lines mono_width (SPACE :: TAB :: chars "uno dos " ++ [TAB]) "Helvetica" 2 4).
Proof.
  apply (wrap_lines_tidy mono_width (SPACE :: TAB :: chars "uno dos " ++ [TAB]) "Helvetica" 2 4).
  right. right. left. reflexivity.
Defined.

End WordWrapper.

(** ** More on small inputs *)

Example human_size_demo :
  map human_size [0; 1023; 1024; 1152; 1536; 1048575; 1048576; 5368709120]%N
  = ["0 B"; "1023 B"; "1.00 KB"; "1.12 KB"; "1.50 KB"; "1024.00 KB"; "1.00 MB";
     "5.00 GB"]%string.
Proof. vm_compute. reflexivity. Qed.

Example file_stem_demo :
  map file_stem [None; Some []; Some (chars "   "); Some (chars " Mi  Proyecto ")]
  = [chars "reporte"; chars "reporte"; chars "reporte"; chars "Mi__Proyecto"].
Proof. vm_compute. reflexivity. Qed.

(* ===================================================================== *)
(** * Part III. Further properties of the code                             *)
(* ===================================================================== *)

(** ** Word wrapper: blank input, and what the lines hold *)

Module WordWrapperMore.

Import WordWrapper.
Local Open Scope Q_scope.

(** The characters of a string that are not white space, in order. *)
Definition inked (x : str) : str := List.filter (fun c => negb (isspace c)) x.

Lemma inked_app (a b : str) : inked (a ++ b) = inked a ++ inked b.
Proof. apply List.filter_app. Qed.

Lemma inked_cons c (x : str) : inked (c :: x) = inked [c] ++ inked x.
Proof. apply (inked_app [c] x). Qed.

Lemma inked_blank (x : str) : Forall blank x → inked x = [].
Proof.
  induction 1 as [|c x Hc _ IH]; [reflexivity|].
  rewrite inked_cons, IH. unfold inked, blank in *. simpl. rewrite Hc. reflexivity.
Qed.

Arguments inked : simpl never.

Lemma inked_strip (x : str) : inked (strip x) = inked x.
Proof.
  destruct (strip_spec x) as (pre & post & Hx & Hpre & Hpost & _).
  rewrite Hx at 2. rewrite !inked_app, (inked_blank pre Hpre), (inked_blank post Hpost).
  rewrite app_nil_r. reflexivity.
Qed.

Lemma inked_replace_tabs (x : str) : inked (replace_tabs x) = inked x.
Proof.
  unfold replace_tabs. induction x as [|c x IH]; [reflexivity|].
  cbn [map]. rewrite inked_cons, IH, (inked_cons c x). f_equal.
  destruct (Ascii.eqb_spec c TAB) as [->|_]; reflexivity.
Qed.

Lemma inked_split_aux (x : str) : ∀ acc,
  inked (concat (split_space_aux x acc)) = inked (rev acc ++ x).
Proof.
  induction x as [|c x IH]; intros acc; simpl.
  - rewrite !app_nil_r. reflexivity.
  - destruct (Ascii.eqb_spec c SPACE) as [->|_].
    + cbn [concat]. rewrite !inked_app, IH, (inked_cons SPACE x). reflexivity.
    + rewrite IH. simpl. rewrite <- app_assoc. reflexivity.
Qed.

(** Splitting at spaces loses spaces only. *)
Lemma inked_split (x : str) : inked (concat (split_space x)) = inked x.
Proof. apply (inked_split_aux x []). Qed.

Lemma strip_blank (x : str) : Forall blank x → strip x = [].
Proof.
  intros H. destruct (strip x) as [|c y] eqn:Hs; [reflexivity|].
  assert (Hink : Exists ink x) by (apply strip_ink; rewrite Hs; discriminate).
  apply Exists_exists in Hink. destruct Hink as (d & Hd & Hi).
  rewrite Forall_forall in H. specialize (H d Hd).
  unfold blank, ink in *. congruence.
Qed.

Section Content.

Variable glyph_width : string → Q → ascii → Q.
Variable font_name : string.
Variable font_size max_width : Q.

(** The ink the loop holds: in the lines out, then in the line under way. *)
Definition content (st : wrap_state) : str :=
  inked (concat (lines st)) ++ inked (cur st).

Lemma concat_snoc (ls : list str) (l : str) : concat (ls ++ [l]) = concat ls ++ l.
Proof. rewrite concat_app. simpl. rewrite app_nil_r. reflexivity. Qed.

Lemma flush_content st : content (flush st) = content st.
Proof.
  unfold content, flush. simpl. rewrite app_nil_r.
  destruct (strip (cur st)) as [|c y] eqn:Hs; simpl.
  - rewrite <- (inked_strip (cur st)), Hs. simpl. rewrite app_nil_r. reflexivity.
  - rewrite concat_snoc, inked_app, <- Hs, inked_strip. reflexivity.
Qed.

Lemma cut_fold_content (tok : str) : ∀ ls buf,
  let r := fold_left (cut_step glyph_width font_name font_size max_width) tok (ls, buf) in
  inked (concat (fst r)) ++ inked (snd r)
  = inked (concat ls) ++ inked buf ++ inked tok.
Proof.
  induction tok as [|ch tok IH]; intros ls buf; simpl.
  - rewrite app_nil_r. reflexivity.
  - rewrite (inked_cons ch tok).
    destruct (Qle_bool _ max_width); rewrite IH.
    + rewrite inked_app. rewrite <- !app_assoc. reflexivity.
    + destruct buf as [|b buf]; simpl.
      * reflexivity.
      * rewrite concat_snoc, inked_app. rewrite <- !app_assoc. reflexivity.
Qed.

Lemma add_token_content tok st :
  content (add_token glyph_width font_name font_size max_width tok st)
  = content st ++ inked tok.
Proof.
  unfold add_token.
  destruct (Qle_bool (stringWidth _ (strip _) _ _) max_width).
  { unfold content. simpl. rewrite inked_strip, inked_app. simpl.
    rewrite <- app_assoc. reflexivity. }
  set (st1 := if truthy (cur st) then flush st else st).
  assert (Hst1 : content st1 = content st ∧ inked (cur st1) = []).
  { subst st1. destruct (cur st) as [|c x] eqn:Hc; simpl.
    - split; [reflexivity|rewrite Hc; reflexivity].
    - split; [apply flush_content|reflexivity]. }
  destruct Hst1 as [Hcont Hcur]. rewrite <- Hcont.
  destruct (Qle_bool (stringWidth _ tok _ _) max_width).
  { unfold content. simpl. rewrite Hcur, app_nil_r. reflexivity. }
  destruct (fold_left _ tok (lines st1, [])) as [ls buf] eqn:Hfold.
  pose proof (cut_fold_content tok (lines st1) []) as Hcut.
  rewrite Hfold in Hcut. simpl in Hcut.
  unfold content. simpl. rewrite Hcur, !app_nil_r.
  destruct buf as [|b buf]; simpl.
  - simpl in Hcut. rewrite app_nil_r in Hcut. exact Hcut.
  - rewrite concat_snoc, inked_app. exact Hcut.
Qed.

Lemma wrap_fold_content (words : list str) : ∀ st,
  content (fold_left
             (fun st w => if negb (truthy w) then st
                          else add_token glyph_width font_name font_size max_width w st)
             words st)
  = content st ++ inked (concat words).
Proof.
  induction words as [|w words IH]; intros st; simpl.
  - rewrite app_nil_r. reflexivity.
  - rewrite IH, inked_app, app_assoc. f_equal.
    destruct w as [|c w]; simpl.
    + rewrite app_nil_r. reflexivity.
    + apply add_token_content.
Qed.

End Content.

(** X1. A text that is empty or holds white space only wraps to the one
    empty line. *)
Theorem wrap_lines_blank gw (text : str) fn (fsz mw : Q) :
  Forall (fun c => isspace c = true) text →
  wrap_lines gw text fn fsz mw = [[]].
Proof.
  intros Hblank. unfold wrap_lines.
  assert (Hs : strip (replace_tabs text) = []).
  { apply strip_blank. unfold replace_tabs. apply Forall_map.
    eapply Forall_impl; [exact Hblank|]. intros c Hc. unfold blank.
    destruct (Ascii.eqb c TAB); [reflexivity|exact Hc]. }
  rewrite Hs. reflexivity.
Qed.

Lemma wrap_lines_blank_witness :
  wrap_lines mono_width [SPACE; TAB; NEWLINE] "Helvetica" 2 4 = [[]].
Proof.
  apply (wrap_lines_blank mono_width [SPACE; TAB; NEWLINE] "Helvetica" 2 4).
  repeat constructor.
Defined.

(** X2. The characters of the lines that are not white space are those of
    the text, in the same order: the word wrapper loses, adds and moves no
    visible character, whatever the widths. *)
Theorem wrap_lines_keeps_ink gw (text : str) fn (fsz mw : Q) :
  inked (concat (wrap_lines gw text fn fsz mw)) = inked text.
Proof.
  pose proof (wrap_lines_cases gw fn fsz mw text) as Hcases. simpl in Hcases.
  pose proof (wrap_fold_content gw fn fsz mw
                (split_space (strip (replace_tabs text))) (WrapState [] [])) as Hfold.
  rewrite <- flush_content in Hfold. unfold content at 2 in Hfold. simpl in Hfold.
  rewrite inked_split, inked_strip, inked_replace_tabs in Hfold.
  unfold content, flush in Hfold. simpl in Hfold. rewrite app_nil_r in Hfold.
  destruct Hcases as [[-> [Hx|Hout]]|(_ & _ & ->)].
  - simpl. rewrite <- (inked_replace_tabs text), <- (inked_strip (replace_tabs text)), Hx.
    reflexivity.
  - simpl. rewrite <- Hfold. unfold flush in Hout. simpl in Hout. rewrite Hout. reflexivity.
  - unfold flush. simpl. exact Hfold.
Qed.

End WordWrapperMore.

(** ** Offset wrapper: what a returned line is *)

Module OffsetWrapperMore.

Import OffsetWrapper.

Lemma index_of_first c (x : str) : ∀ k, index_of c x = Some k → c ∉ take k x.
Proof.
  induction x as [|d x IH]; intros k H; simpl in H; [discriminate|].
  destruct (Ascii.eqb_spec d c) as [->|Hne].
  - injection H as <-. simpl. apply not_elem_of_nil.
  - destruct (index_of c x) as [j|] eqn:Hj; [|discriminate].
    injection H as <-. simpl. apply not_elem_of_cons. split; [congruence|].
    apply IH. reflexivity.
Qed.

Lemma index_of_None c (x : str) : index_of c x = None → c ∉ x.
Proof.
  induction x as [|d x IH]; intros H; simpl in H; [apply not_elem_of_nil|].
  destruct (Ascii.eqb_spec d c) as [->|Hne]; [discriminate|].
  destruct (index_of c x); [discriminate|].
  apply not_elem_of_cons. split; [congruence|]. apply IH. reflexivity.
Qed.

Lemma leading_spaces_stop (x : str) : x !! leading_spaces x ≠ Some SPACE.
Proof.
  induction x as [|c x IH]; simpl; [discriminate|].
  destruct (Ascii.eqb_spec c SPACE) as [->|Hne]; simpl; [exact IH|congruence].
Qed.

Section Cases.

Variable glyph_width : string → Q → ascii → Q.
Variable p : payload.
Variable mw : Q.
Variable font_name : string.
Variable font_size : Q.

Local Abbreviation W x := (stringWidth glyph_width x font_name font_size).
Local Abbreviation wrap start :=
  (wrap_text_with_offsets glyph_width p start mw font_name font_size).

(** The loop over a paragraph accepts every prefix up to the cut, and the
    last space it saw is not beyond the cut. *)
Lemma scan_fit_fits (para : str) rest : ∀ i last_space,
  (∀ j, 1 <= j <= i → (W (take j para) <= mw)%Q) →
  (last_space <= Z.of_nat i)%Z →
  let r := scan_fit glyph_width font_name font_size mw para rest i i last_space in
  (∀ j, 1 <= j <= fst r → (W (take j para) <= mw)%Q)
  ∧ (snd r <= Z.of_nat (fst r))%Z.
Proof.
  induction rest as [|c rest IH]; intros i ls Hfit Hls; simpl.
  - split; assumption.
  - destruct (Qle_bool _ mw) eqn:Hq.
    + apply IH.
      * intros j Hj. destruct (Nat.eq_dec j (i + 1)) as [->|Hne].
        -- apply Qle_bool_iff, Hq.
        -- apply Hfit. lia.
      * destruct (Ascii.eqb c SPACE); lia.
    + simpl. split; [exact Hfit|]. destruct (Ascii.eqb c SPACE); lia.
Qed.

(** The four ways a call below the end of the text returns. *)
Lemma wrap_cases start :
  (start < length (text p)) →
  let rem := drop start (text p) in
  (head rem = Some NEWLINE ∧ wrap start = (Some [], Some start, (start + 1)))
  ∨ ∃ plen bc ls line next_off,
      let para := take plen rem in
      (1 <= plen <= length rem)
      ∧ (NEWLINE ∉ para)
      ∧ (rem !! plen = Some NEWLINE ∨ plen = length rem)
      ∧ scan_fit glyph_width font_name font_size mw para para 0 0 (-1) = (bc, ls)
      ∧ wrap start = (Some line, Some start, next_off)
      ∧ ((bc = plen ∧ line = para)
         ∨ (bc ≠ plen ∧ (0 < ls)%Z ∧ line = take (Z.to_nat ls) para
            ∧ next_off = (start + Z.to_nat ls + 1
                          + leading_spaces (drop (Z.to_nat ls + 1) para)))
         ∨ (bc ≠ plen ∧ (ls <= 0)%Z ∧ line = take (Nat.max 1 bc) para
            ∧ next_off = (start + Nat.max 1 bc))).
Proof.
  intros Hstart rem. unfold wrap_text_with_offsets.
  destruct (Nat.leb_spec (length (text p)) start) as [Hge|_]; [lia|].
  destruct (text p !! start) as [c|] eqn:Hc;
    [|apply lookup_ge_None in Hc; lia].
  rewrite nth_lookup, Hc. simpl.
  pose proof (drop_S _ _ _ Hc) as Hrem. fold rem in Hrem.
  destruct (Ascii.eqb_spec c NEWLINE) as [->|Hnl].
  { left. rewrite Hrem. split; reflexivity. }
  right. unfold find_from. fold rem. rewrite Hrem. simpl.
  destruct (Ascii.eqb_spec c NEWLINE) as [Heq|_]; [contradiction|].
  set (rem' := drop (S start) (text p)) in *.
  assert (Hlen : length rem = (length (text p) - start))
    by apply length_drop.
  rewrite Hrem in Hlen. simpl in Hlen.
  set (plen := match index_of NEWLINE rem' with
               | Some k => S k
               | None => (length (text p) - start)
               end).
  assert (Hplen : (1 <= plen <= S (length rem'))).
  { subst plen. destruct (index_of NEWLINE rem') as [k|] eqn:Hk; [|lia].
    apply index_of_Some, lookup_lt_Some in Hk. lia. }
  assert (Hpara_end :
    (match option_map (Nat.add start) (option_map S (index_of NEWLINE rem')) with
     | Some k => k
     | None => length (text p)
     end - start = plen)).
  { subst plen. destruct (index_of NEWLINE rem'); simpl; lia. }
  rewrite Hpara_end.
  assert (Hnonl : NEWLINE ∉ take plen (c :: rem')).
  { subst plen. destruct (index_of NEWLINE rem') as [k|] eqn:Hk.
    - simpl. apply not_elem_of_cons. split; [congruence|].
      apply index_of_first, Hk.
    - rewrite take_ge by (simpl; lia). intros Hin.
      apply elem_of_cons in Hin. destruct Hin as [Hin|Hin]; [congruence|].
      revert Hin. apply index_of_None, Hk. }
  assert (Hend : (c :: rem') !! plen = Some NEWLINE ∨ plen = S (length rem')).
  { subst plen. destruct (index_of NEWLINE rem') as [k|] eqn:Hk.
    - left. simpl. apply index_of_Some, Hk.
    - right. lia. }
  destruct (scan_fit glyph_width font_name font_size mw
              (take plen (c :: rem')) (take plen (c :: rem')) 0 0 (-1))
    as [bc ls] eqn:Hscan.
  assert (Hparalen : length (take plen (c :: rem')) = plen).
  { rewrite length_take. simpl. lia. }
  rewrite Hparalen.
  destruct (Nat.eqb_spec bc plen) as [Hfull|Hcut];
    [|destruct (Z.ltb_spec 0 ls) as [Hpos|Hneg]];
    exists plen, bc, ls; eexists; eexists; cbv zeta;
    (split; [simpl; lia|]); (split; [exact Hnonl|]);
    (split; [simpl; exact Hend|]); (split; [exact Hscan|]);
    (split; [reflexivity|]).
  - left. split; [exact Hfull|reflexivity].
  - right. left. repeat split; assumption.
  - right. right. repeat split; assumption.
Qed.

Lemma wrap_Some_lt start line o next_off :
  wrap start = (Some line, o, next_off) → start < length (text p).
Proof.
  unfold wrap_text_with_offsets.
  destruct (Nat.leb_spec (length (text p)) start); [discriminate|lia].
Qed.

Lemma scan_bounds (para : str) bc ls :
  scan_fit glyph_width font_name font_size mw para para 0 0 (-1) = (bc, ls) →
  bc <= length para
  ∧ (ls < Z.of_nat (length para))%Z
  ∧ (ls <= Z.of_nat bc)%Z
  ∧ (∀ j, 1 <= j <= bc → (W (take j para) <= mw)%Q).
Proof.
  intros Hscan.
  pose proof (scan_fit_spec glyph_width mw font_name font_size para para 0 0 (-1)%Z eq_refl)
    as Hspec.
  pose proof (scan_fit_fits para para 0 (-1)%Z) as Hfits.
  simpl in Hspec, Hfits. rewrite Hscan in Hspec, Hfits. simpl in Hspec, Hfits.
  destruct Hspec as (Hbc & Hls & _); try lia.
  destruct Hfits as (Hf & Hle); try lia.
  repeat split; assumption.
Qed.

End Cases.

(** X3. For a maximum width that is not negative, a line the offset wrapper
    returns is within the maximum width, or is a single character that alone
    is wider. *)
Theorem wrap_offsets_line_fits gw (p : payload) (mw : Q) fn (fsz : Q)
    (start : nat) (line : str) (o : option nat) (next_off : nat) :
  (0 <= mw)%Q →
  wrap_text_with_offsets gw p start mw fn fsz = (Some line, o, next_off) →
  (stringWidth gw line fn fsz <= mw)%Q
  ∨ ∃ c, line = [c] ∧ (mw < stringWidth gw [c] fn fsz)%Q.
Proof.
  intros Hmw Hw. pose proof (wrap_Some_lt _ _ _ _ _ _ _ _ _ Hw) as Hlt.
  destruct (wrap_cases gw p mw fn fsz start Hlt)
    as [[_ Heq]|(plen & bc & ls & line' & next' & Hplen & _ & _ & Hscan & Heq & Hcase)];
    rewrite Hw in Heq; injection Heq as -> _ _.
  { left. unfold stringWidth. simpl. exact Hmw. }
  apply scan_bounds in Hscan. destruct Hscan as (Hbc & Hls & Hle & Hfits).
  set (para := take plen (drop start (text p))) in *.
  assert (Hparalen : length para = plen).
  { subst para. rewrite length_take. lia. }
  destruct Hcase as [[Hfull ->]|[(_ & Hpos & -> & _)|(_ & Hneg & -> & _)]].
  - left. rewrite <- (take_ge para bc) by lia. apply Hfits. lia.
  - left. apply Hfits. lia.
  - destruct bc as [|bc'].
    + simpl. destruct para as [|c para'].
      * left. unfold stringWidth. simpl. exact Hmw.
      * simpl. rewrite take_0.
        destruct (Qlt_le_dec mw (stringWidth gw [c] fn fsz)) as [Hwide|Hok].
        -- right. exists c. split; [reflexivity|exact Hwide].
        -- left. exact Hok.
    + left. apply Hfits. lia.
Qed.

Lemma wrap_offsets_line_fits_witness :
  (stringWidth mono_width (chars "hola ") "Helvetica" 2 <= 6)%Q
  ∨ ∃ c, chars "hola " = [c] ∧ (6 < stringWidth mono_width [c] "Helvetica" 2)%Q.
Proof.
  apply (wrap_offsets_line_fits mono_width (Payload (chars "hola  mundo cruel") [] [])
           6 "Helvetica" 2 0 (chars "hola ") (Some 0) 6).
  - vm_compute. discriminate.
  - vm_compute. reflexivity.
Defined.

(** X4. A line the offset wrapper returns holds no paragraph break. *)
Theorem wrap_offsets_line_no_break gw (p : payload) (mw : Q) fn (fsz : Q)
    (start : nat) (line : str) (o : option nat) (next_off : nat) :
  wrap_text_with_offsets gw p start mw fn fsz = (Some line, o, next_off) →
  NEWLINE ∉ line.
Proof.
  intros Hw. pose proof (wrap_Some_lt _ _ _ _ _ _ _ _ _ Hw) as Hlt.
  destruct (wrap_cases gw p mw fn fsz start Hlt)
    as [[_ Heq]|(plen & bc & ls & line' & next' & _ & Hnonl & _ & _ & Heq & Hcase)];
    rewrite Hw in Heq; injection Heq as -> _ _.
  { apply not_elem_of_nil. }
  assert (Htake : ∀ k, NEWLINE ∉ take k (take plen (drop start (text p)))).
  { intros k Hin. apply Hnonl.
    rewrite <- (take_drop k (take plen (drop start (text p)))).
    apply elem_of_app. left. exact Hin. }
  destruct Hcase as [[_ ->]|[(_ & _ & -> & _)|(_ & _ & -> & _)]];
    [exact Hnonl|apply Htake|apply Htake].
Qed.

Lemma wrap_offsets_line_no_break_witness :
  NEWLINE ∉ chars "hola ".
Proof.
  apply (wrap_offsets_line_no_break mono_width
           (Payload (chars "hola  mundo" ++ NEWLINE :: chars "cruel") [] [])
           6 "Helvetica" 2 0 (chars "hola ") (Some 0) 6).
  vm_compute. reflexivity.
Defined.

(** X5. When the wrapper breaks a line at a space and drops it, it drops
    the spaces that follow as well: the character at the next offset is not
    a space. *)
Theorem wrap_offsets_no_leading_space gw (p : payload) (mw : Q) fn (fsz : Q)
    (start : nat) (line : str) (o : option nat) (next_off : nat) :
  wrap_text_with_offsets gw p start mw fn fsz = (Some line, o, next_off) →
  start + length line < next_off →
  text p !! (start + length line) = Some SPACE →
  text p !! next_off ≠ Some SPACE.
Proof.
  intros Hw Hdrop Hsp. pose proof (wrap_Some_lt _ _ _ _ _ _ _ _ _ Hw) as Hlt.
  destruct (wrap_cases gw p mw fn fsz start Hlt)
    as [[Hhead Heq]|(plen & bc & ls & line' & next' & Hplen & _ & Hend & Hscan & Heq & Hcase)];
    rewrite Hw in Heq; injection Heq as -> _ ->.
  { simpl in Hsp. rewrite Nat.add_0_r in Hsp.
    rewrite <- (Nat.add_0_r start), <- lookup_drop in Hsp.
    destruct (drop start (text p)); [discriminate|].
    simpl in *. injection Hhead as ->. injection Hsp as Hsp. discriminate Hsp. }
  apply scan_bounds in Hscan. destruct Hscan as (Hbc & Hls & Hle & _).
  set (rem := drop start (text p)) in *.
  set (para := take plen rem) in *.
  assert (Hparalen : length para = plen).
  { subst para. rewrite length_take. lia. }
  rewrite Hparalen in *.
  assert (Hstop : rem !! plen ≠ Some SPACE).
  { destruct Hend as [->| ->]; [discriminate|].
    rewrite lookup_ge_None_2 by lia. discriminate. }
  destruct Hcase as [[_ ->]|[(_ & Hpos & -> & ->)|(_ & _ & -> & ->)]].
  - rewrite Hparalen, <- lookup_drop in Hsp. contradiction.
  - set (k := Z.to_nat ls) in *.
    assert (Hk : k < plen) by (subst k; lia).
    set (m := leading_spaces (drop (k + 1) para)).
    assert (Hm : k + 1 + m <= plen).
    { subst m. pose proof (leading_spaces_le (drop (k + 1) para)) as H.
      rewrite length_drop, Hparalen in H. lia. }
    replace (start + k + 1 + m) with (start + (k + 1 + m)) by lia.
    rewrite <- lookup_drop. fold rem.
    destruct (Nat.eq_dec (k + 1 + m) plen) as [->|Hne]; [exact Hstop|].
    pose proof (leading_spaces_stop (drop (k + 1) para)) as Hls'. fold m in Hls'.
    rewrite lookup_drop in Hls'. subst para.
    rewrite lookup_take in Hls'. case_decide; [exact Hls'|lia].
  - rewrite length_take, Hparalen in Hdrop. lia.
Qed.

Lemma wrap_offsets_no_leading_space_witness :
  text (Payload (chars "hola  mundo cruel") [] []) !! 6 ≠ Some SPACE.
Proof.
  apply (wrap_offsets_no_leading_space mono_width (Payload (chars "hola  mundo cruel") [] [])
           6 "Helvetica" 2 0 (chars "hola ") (Some 0) 6).
  - vm_compute. reflexivity.
  - simpl. lia.
  - reflexivity.
Defined.

End OffsetWrapperMore.

(** ** Run segmenter: unstyled lines, and ranges away from the line *)

Module SegmenterMore.

Section Loop.

Variable glyph_width : string → Q → ascii → Q.
Variable has_unicode : bool.
Variable fs : Q.

Lemma rich_loop_plain (p : payload) :
  (∀ off, style_for_offset p off = StN) →
  ∀ (line : str) off st,
    cur_style st = Some StN →
    rich_loop glyph_width has_unicode p fs line off st
    = RichState (cx st) (cur_run st ++ line) (Some StN) (drawn st).
Proof.
  intros Hplain line. induction line as [|ch line IH]; intros off st Hst; simpl.
  - rewrite app_nil_r. destruct st; simpl in *. congruence.
  - rewrite IH.
    + unfold rich_step. rewrite Hst, Hplain. simpl. rewrite <- app_assoc. reflexivity.
    + unfold rich_step. rewrite Hst, Hplain. reflexivity.
Qed.

(** The loop reads the payload only through the styles of the offsets of
    the line. *)
Lemma rich_loop_local (p p' : payload) (line : str) : ∀ off st,
  (∀ j, (j < length line)%nat →
        style_for_offset p (off + Z.of_nat j) = style_for_offset p' (off + Z.of_nat j)) →
  rich_loop glyph_width has_unicode p fs line off st
  = rich_loop glyph_width has_unicode p' fs line off st.
Proof.
  induction line as [|ch line IH]; intros off st Hsame; simpl; [reflexivity|].
  assert (Hstep : rich_step glyph_width has_unicode p fs off ch st
                  = rich_step glyph_width has_unicode p' fs off ch st).
  { unfold rich_step. specialize (Hsame 0%nat). simpl in Hsame.
    rewrite Z.add_0_r in Hsame. rewrite Hsame by lia. reflexivity. }
  rewrite Hstep. apply IH. intros j Hj.
  specialize (Hsame (S j)). simpl length in Hsame.
  replace (off + 1 + Z.of_nat j)%Z with (off + Z.of_nat (S j))%Z by lia.
  apply Hsame. lia.
Qed.

End Loop.

(** X6. With no bold and no italic range, a line that is not empty is drawn
    as one run: the whole line, in the normal style, at the abscissa given. *)
Theorem draw_rich_line_plain gw hu (p : payload) (line : str) (start : Z) (x fs : Q) :
  bold_ranges p = [] → italic_ranges p = [] → line ≠ [] →
  draw_rich_line gw hu p line start x fs = [Run x line (Some StN)].
Proof.
  intros Hb Hi Hne.
  assert (Hplain : ∀ off, style_for_offset p off = StN).
  { intros off. unfold style_for_offset. rewrite Hb, Hi. reflexivity. }
  destruct line as [|ch line]; [congruence|].
  unfold draw_rich_line. cbn [rich_loop].
  assert (Hfirst : rich_step gw hu p fs start ch (RichState x [] None [])
                   = RichState x [ch] (Some StN) []).
  { unfold rich_step. cbn [cur_style cx drawn]. rewrite Hplain. reflexivity. }
  rewrite Hfirst, (rich_loop_plain gw hu fs p Hplain) by reflexivity.
  reflexivity.
Qed.

Lemma draw_rich_line_plain_witness :
  draw_rich_line mono_width false (Payload (chars "hola mundo") [] []) (chars "mundo") 5 72 10
  = [Run 72 (chars "mundo") (Some StN)].
Proof.
  apply (draw_rich_line_plain mono_width false (Payload (chars "hola mundo") [] [])
           (chars "mundo") 5 72 10); [reflexivity|reflexivity|discriminate].
Defined.

(** X7. The runs of a line depend on the ranges only through the styles of
    the offsets of the line: two payloads that give every offset of the line
    the same style draw the same runs, so a range that lies outside the line
    changes nothing on it. *)
Theorem draw_rich_line_local gw hu (p p' : payload) (line : str) (start : Z) (x fs : Q) :
  (∀ j, (j < length line)%nat →
        style_for_offset p (start + Z.of_nat j) = style_for_offset p' (start + Z.of_nat j)) →
  draw_rich_line gw hu p line start x fs = draw_rich_line gw hu p' line start x fs.
Proof.
  intros Hsame. unfold draw_rich_line.
  rewrite (rich_loop_local gw hu fs p p' line start _ Hsame). reflexivity.
Qed.

Lemma draw_rich_line_local_witness :
  draw_rich_line mono_width false (Payload (chars "hola mundo") [(0, 4)%Z] [(20, 30)%Z])
    (chars "mundo") 5 72 10
  = draw_rich_line mono_width false (Payload (chars "hola mundo") [] [])
      (chars "mundo") 5 72 10.
Proof.
  apply (draw_rich_line_local mono_width false
           (Payload (chars "hola mundo") [(0, 4)%Z] [(20, 30)%Z])
           (Payload (chars "hola mundo") [] []) (chars "mundo") 5 72 10).
  intros j Hj. simpl in Hj.
  do 5 (destruct j as [|j]; [reflexivity|]). lia.
Defined.

End SegmenterMore.

(** ** Page paginator: full pages, card heights, rows above the margin *)

Module PaginatorMore.

Import Paginator Pages.
Local Open Scope Q_scope.

Section Loop.

Variable rh : row → Q.
Variable A : Q.

(** A chunk that holds one row higher than the page. *)
Definition oversized (chunk : list (row * Q)) : Prop :=
  ∃ r, chunk = [with_height rh r] ∧ A < rh r.

(** The chunk loop, with what it leaves in [used] and the row it stops at. *)
Lemma chunk_loop_stop rows_left : ∀ chunk used,
  used == chunk_height chunk →
  let c := chunk_loop rh A rows_left chunk used in
  ∃ k, fst c = chunk ++ map (with_height rh) (take k rows_left)
    ∧ (snd c == chunk_height (fst c)
       ∨ (chunk = [] ∧ snd c = used ∧ oversized (fst c)))
    ∧ ∀ r, rows_left !! k = Some r →
        (chunk = [] ∧ oversized (fst c)) ∨ A < chunk_height (fst c) + rh r.
Proof.
  induction rows_left as [|r rest IH]; intros chunk used Hused; simpl.
  - exists 0%nat. rewrite app_nil_r. repeat split; [left; exact Hused|discriminate].
  - destruct chunk as [|x chunk].
    + rewrite andb_false_r.
      destruct (Qle_bool (rh r) A) eqn:Hone; simpl.
      * destruct (IH [(r, rh r)] (used + rh r)) as (k & Hfst & Hsnd & Hstop).
        { simpl in *. lra. }
        exists (S k). simpl. repeat split; [exact Hfst| |].
        -- destruct Hsnd as [Hsnd|(Hnil & _)]; [left; exact Hsnd|discriminate].
        -- intros r' Hr'. destruct (Hstop r' Hr') as [(Hnil & _)|H];
             [discriminate|right; exact H].
      * exists 1%nat. simpl.
        assert (Hover : oversized [(r, rh r)]).
        { exists r. split; [reflexivity|]. apply Qle_bool_false, Hone. }
        repeat split; [right; repeat split; exact Hover|].
        intros r' _. left. split; [reflexivity|exact Hover].
    + destruct (Qle_bool (used + rh r) A) eqn:Hsum; simpl.
      * rewrite andb_false_r.
        destruct (IH ((x :: chunk) ++ [(r, rh r)]) (used + rh r))
          as (k & Hfst & Hsnd & Hstop).
        { rewrite chunk_height_app. simpl in *. lra. }
        exists (S k). simpl. repeat split.
        -- simpl in Hfst. rewrite Hfst. simpl. rewrite <- app_assoc. reflexivity.
        -- destruct Hsnd as [Hsnd|(Hnil & _)]; [left; exact Hsnd|discriminate].
        -- intros r' Hr'. destruct (Hstop r' Hr') as [(Hnil & _)|H];
             [discriminate|right; exact H].
      * exists 0%nat. simpl. rewrite app_nil_r.
        repeat split; [left; exact Hused|].
        intros r' [= <-]. right. apply Qle_bool_false in Hsum. simpl in *. lra.
Qed.

Lemma paginate_cons fuel r rest :
  paginate rh A (S fuel) (r :: rest)
  = option_map (cons (chunk_loop rh A (r :: rest) [] 0))
      (paginate rh A fuel
         (drop (length (fst (chunk_loop rh A (r :: rest) [] 0))) (r :: rest))).
Proof. reflexivity. Qed.

(** The first chunk of rows that are left starts with the first of them. *)
Lemma paginate_head fuel r rest cs :
  paginate rh A fuel (r :: rest) = Some cs →
  ∃ c cs', cs = c :: cs' ∧ head (fst c) = Some (with_height rh r).
Proof.
  destruct fuel as [|fuel]; [discriminate|]. rewrite paginate_cons.
  destruct (paginate _ _ fuel _) as [cs'|]; [|discriminate].
  intros [= <-]. eexists. exists cs'. split; [reflexivity|].
  destruct (chunk_loop_first rh A r rest) as (k & Hk & Hfst & _).
  change (head (fst (chunk_loop rh A (r :: rest) [] 0)) = Some (with_height rh r)).
  rewrite Hfst. destruct k; [lia|reflexivity].
Qed.

(** Every chunk but an oversized one accounts in [used] for the rows it
    holds; every chunk followed by another is full: the row that opens the
    next chunk would not have fitted. *)
Lemma paginate_more fuel : ∀ rows_left cs,
  paginate rh A fuel rows_left = Some cs →
  Forall (fun c => snd c == chunk_height (fst c)
                   ∨ (snd c = 0 ∧ oversized (fst c))) cs
  ∧ ∀ i c1 c2 rq,
      cs !! i = Some c1 → cs !! S i = Some c2 → head (fst c2) = Some rq →
      oversized (fst c1) ∨ A < chunk_height (fst c1) + snd rq.
Proof.
  induction fuel as [|fuel IH]; intros rows_left cs H.
  - destruct rows_left; [|discriminate]. injection H as <-.
    split; [constructor|]. intros i c1 c2 rq Hc1. discriminate.
  - destruct rows_left as [|r rest].
    { injection H as <-. split; [constructor|]. intros i c1 c2 rq Hc1. discriminate. }
    rewrite paginate_cons in H.
    set (c := chunk_loop rh A (r :: rest) [] 0) in *.
    destruct (paginate rh A fuel _) as [cs'|] eqn:Hcs'; [|discriminate].
    injection H as <-.
    destruct (IH _ _ Hcs') as [Hall Hfull].
    destruct (chunk_loop_stop (r :: rest) [] 0) as (k & Hfst & Hsnd & Hstop);
      [simpl; lra|].
    fold c in Hfst, Hsnd, Hstop. simpl in Hfst.
    split.
    + constructor; [|exact Hall].
      destruct Hsnd as [Hsnd|(_ & Hz & Hov)]; [left; exact Hsnd|right; split; assumption].
    + intros i c1 c2 rq Hc1 Hc2 Hrq. destruct i as [|i].
      * injection Hc1 as <-. simpl in Hc2.
        assert (Hlen : length (fst c) = Nat.min k (S (length rest))).
        { rewrite Hfst, length_map, length_take. reflexivity. }
        rewrite Hlen in Hcs'.
        destruct (drop (Nat.min k (S (length rest))) (r :: rest)) as [|r' rest'] eqn:Hdrop.
        { destruct fuel; simpl in Hcs'; injection Hcs' as <-; discriminate. }
        destruct (paginate_head _ _ _ _ Hcs') as (c' & cs'' & -> & Hhead).
        injection Hc2 as <-. rewrite Hhead in Hrq. injection Hrq as <-. simpl.
        assert (Hk : (k <= S (length rest))%nat).
        { destruct (Nat.le_gt_cases k (S (length rest))) as [Hle|Hgt]; [exact Hle|].
          rewrite Nat.min_r in Hdrop by lia.
          rewrite drop_ge in Hdrop by (simpl; lia). discriminate. }
        rewrite Nat.min_l in Hdrop by lia.
        assert (Hr' : (r :: rest) !! k = Some r').
        { rewrite <- (Nat.add_0_r k), <- lookup_drop, Hdrop. reflexivity. }
        destruct (Hstop r' Hr') as [[_ Hov]|Hlt]; [left; exact Hov|right; exact Hlt].
      * simpl in Hc1, Hc2. apply (Hfull i c1 c2 rq Hc1 Hc2 Hrq).
Qed.

End Loop.

(** X8. The paginator fills its pages: whenever a chunk is followed by
    another, the row that opens the next chunk did not fit after the rows of
    the chunk (their heights together exceed the available height), unless
    the chunk is a single row that alone is higher than the page. *)
Theorem paginate_pages_full (rh : row → Q) (A : Q) (rows_data : list row)
    (cs : list (list (row * Q) * Q)) (i : nat) (c1 c2 : list (row * Q) * Q)
    (rq : row * Q) :
  paginate rh A (length rows_data) rows_data = Some cs →
  cs !! i = Some c1 → cs !! S i = Some c2 → head (fst c2) = Some rq →
  oversized rh A (fst c1) ∨ A < chunk_height (fst c1) + snd rq.
Proof.
  intros H. destruct (paginate_more rh A _ _ _ H) as [_ Hfull]. apply Hfull.
Qed.

Lemma paginate_pages_full_witness :
  oversized (fun _ => 4) 10 [(∅, 4); (∅, 4)] ∨ 10 < chunk_height [(∅, 4); (∅, 4)] + 4.
Proof.
  apply (paginate_pages_full (fun _ => 4) 10 [∅; ∅; ∅]
           [([(∅, 4); (∅, 4)], 0 + 4 + 4); ([(∅, 4)], 0 + 4)] 0
           ([(∅, 4); (∅, 4)], 0 + 4 + 4) ([(∅, 4)], 0 + 4) (∅, 4));
    reflexivity.
Defined.

(** X9. The height the page loop adds up for the card of a table page is
    the total height of the rows of the chunk, except for a row higher than
    the page, placed alone: its height is not added, and the card is drawn
    with the height of the table header only. *)
Theorem paginate_used_height (rh : row → Q) (A : Q) (rows_data : list row)
    (cs : list (list (row * Q) * Q)) :
  paginate rh A (length rows_data) rows_data = Some cs →
  Forall (fun c => snd c == chunk_height (fst c)
                   ∨ (snd c = 0 ∧ oversized rh A (fst c))) cs.
Proof.
  intros H. destruct (paginate_more rh A _ _ _ H) as [Hall _]. exact Hall.
Qed.

Lemma paginate_used_height_witness :
  Forall (fun c => snd c == chunk_height (fst c)
                   ∨ (snd c = 0 ∧ oversized (fun _ => 20) 10 (fst c)))
    [([(∅, 20)], 0)].
Proof.
  apply (paginate_used_height (fun _ => 20) 10 [∅]). reflexivity.
Defined.

End PaginatorMore.

(** ** The pages of the days: rows above the margin, pages per day *)

Module PagesMore.

Import Paginator Pages PaginatorMore.
Local Open Scope Q_scope.

Lemma compute_row_height_pos gw (r : row) : h_badge_min <= compute_row_height gw r.
Proof.
  unfold compute_row_height.
  apply Qle_trans with (Qmax (h_text gw r) h_badge_min);
    [apply Q.le_max_r|apply Q.le_max_l].
Qed.

(** The rows of a chunk are drawn one under the other from [y] down, none
    lower than [y] less the height of the chunk. *)
Lemma draw_rows_bottoms (chunk : list (row * Q)) : ∀ y r h y',
  Forall (fun rq => 0 <= snd rq) chunk →
  In (DrawRow r h y') (draw_rows chunk y) →
  y - chunk_height chunk <= y' - h ∧ y' <= y.
Proof.
  induction chunk as [|[r0 h0] chunk IH]; intros y r h y' Hpos Hin; simpl in Hin.
  - contradiction.
  - inversion Hpos as [|? ? Hh0 Hrest]; subst. simpl in Hh0.
    assert (Hch : 0 <= chunk_height chunk).
    { clear -Hrest. induction Hrest as [|rq l Hq _ IHl]; simpl; lra. }
    destruct Hin as [Heq|Hin].
    + injection Heq as <- <- <-. simpl. lra.
    + destruct (IH _ _ _ _ Hrest Hin) as [H1 H2]. simpl. lra.
Qed.

Lemma table_page_rows_in name i c r h y :
  In (DrawRow r h y) (table_page name i c) →
  In (DrawRow r h y) (draw_rows (fst c) (table_top - th - 0.10 * inch)).
Proof.
  unfold table_page. intros Hin.
  apply in_app_or in Hin. destruct Hin as [Hin|Hin].
  - simpl in Hin. destruct Hin as [H|[H|[H|[]]]]; discriminate.
  - apply in_app_or in Hin. destruct Hin as [Hin|Hin]; [exact Hin|].
    simpl in Hin. destruct Hin as [H|[]]. discriminate.
Qed.

(** X10. On the table pages of a day, as [export_pdf] lays them out, every
    row is drawn wholly above the bottom margin, unless it is a row higher
    than the page, which is then the only row of its page. *)
Theorem rows_above_margin gw (d : day) (pages : list page) (pg : page)
    (r : row) (h y : Q) :
  render_day (compute_row_height gw) available_height d = Some pages →
  In pg pages →
  In (DrawRow r h y) pg →
  bottom_margin < y - h ∨ (page_rows pg = 1%nat ∧ available_height < h).
Proof.
  unfold render_day. destruct (_ =? 0)%nat.
  { intros [= <-] [<-|[]] Hin. simpl in Hin.
    destruct Hin as [H|[H|[H|[H|[]]]]]; discriminate. }
  destruct (paginate _ _ _ _) as [cs|] eqn:Hcs; [|discriminate].
  intros [= <-] Hpg Hrow.
  apply list_elem_of_In, list_elem_of_lookup in Hpg. destruct Hpg as [i Hi].
  apply table_pages_lookup in Hi. destruct Hi as (c & Hc & ->).
  destruct (paginate_spec (compute_row_height gw) available_height _
              (default [] (rows d)) (Nat.le_refl _))
    as (cs0 & Hcs0 & Hcat & Hok & _).
  rewrite Hcs in Hcs0. injection Hcs0 as <-.
  assert (Hcin : In c cs) by (apply list_elem_of_In, list_elem_of_lookup; eauto).
  rewrite Forall_forall in Hok. specialize (Hok c (proj2 (list_elem_of_In _ _) Hcin)).
  apply table_page_rows_in in Hrow.
  destruct Hok as [_ [Hfit|(r0 & Hone & Hbig)]].
  - left.
    assert (Hpos : Forall (fun rq : row * Q => 0 <= snd rq) (fst c)).
    { apply Forall_forall. intros rq Hrq.
      assert (Hin : In rq (concat (map fst cs))).
      { apply in_concat. exists (fst c). split; [apply in_map, Hcin|].
        apply list_elem_of_In, Hrq. }
      rewrite Hcat in Hin. apply in_map_iff in Hin. destruct Hin as (r1 & <- & _).
      simpl. pose proof (compute_row_height_pos gw r1) as Hp.
      assert (0 <= h_badge_min) by (vm_compute; discriminate). lra. }
    destruct (draw_rows_bottoms _ _ _ _ _ Hpos Hrow) as [Hb _].
    assert (Hgeom : table_top - th - 0.10 * inch - available_height
                    == bottom_margin + 0.05 * inch) by (vm_compute; reflexivity).
    assert (Hinch : 0 < 0.05 * inch) by (vm_compute; reflexivity).
    lra.
  - right. rewrite table_page_rows, Hone. split; [reflexivity|].
    rewrite Hone in Hrow. simpl in Hrow. destruct Hrow as [Heq|[]].
    injection Heq as _ <- _. exact Hbig.
Qed.

Lemma rows_above_margin_witness :
  bottom_margin < (table_top - th - 0.10 * inch) - compute_row_height mono_width ∅
  ∨ (page_rows (table_page "Día 1" 0 ([(∅, compute_row_height mono_width ∅)],
                                       0 + compute_row_height mono_width ∅)) = 1%nat
     ∧ available_height < compute_row_height mono_width ∅).
Proof.
  apply (rows_above_margin mono_width (Day (Some "Día 1"%string) (Some [∅]))
           [table_page "Día 1" 0 ([(∅, compute_row_height mono_width ∅)],
                                  0 + compute_row_height mono_width ∅)]
           (table_page "Día 1" 0 ([(∅, compute_row_height mono_width ∅)],
                                  0 + compute_row_height mono_width ∅))
           ∅ (compute_row_height mono_width ∅) (table_top - th - 0.10 * inch)).
  - reflexivity.
  - left. reflexivity.
  - right. right. right. left. reflexivity.
Defined.

(** X11. Every day gives at least one page and at most one page per row,
    and the pages of a list of days are the pages of its days one after the
    other: the pages of two lists of days put end to end are the pages of
    the first followed by those of the second. *)
Theorem render_days_pages (rh : row → Q) (A : Q) :
  (∀ d : day, ∃ pages,
      render_day rh A d = Some pages
      ∧ (1 <= length pages <= Nat.max 1 (length (default [] (rows d))))%nat)
  ∧ (∀ dias1 dias2 : list day, ∃ p1 p2,
      render_days rh A dias1 = Some p1
      ∧ render_days rh A dias2 = Some p2
      ∧ render_days rh A (dias1 ++ dias2) = Some (p1 ++ p2)).
Proof.
  split.
  - intros d. unfold render_day.
    destruct (default [] (rows d)) as [|r rest] eqn:Hrows.
    + eexists. split; [reflexivity|simpl; lia].
    + destruct (paginate_spec rh A _ (r :: rest) (Nat.le_refl _))
        as (cs & Hcs & Hcat & _ & Hlen).
      replace ((length (r :: rest) =? 0)%nat) with false by reflexivity.
      rewrite Hcs. eexists. split; [reflexivity|].
      rewrite table_pages_length. split; [|simpl in *; lia].
      destruct cs; [discriminate|simpl; lia].
  - intros dias1 dias2. induction dias1 as [|d dias1 (p1 & p2 & H1 & H2 & H12)].
    + destruct (render_days_total rh A dias2) as [p2 H2].
      exists [], p2. repeat split; assumption.
    + destruct (render_day_total rh A d) as [pd Hd].
      exists (pd ++ p1), p2. simpl. rewrite Hd, H1, H12, app_assoc.
      repeat split; assumption.
Qed.

End PagesMore.

(** ** Row heights and the cells of a row *)

Module RowHeightMore.

Import WordWrapper.
Local Open Scope Q_scope.

(** Font, size and inner width of the five wrapped cells, in the order of
    [row_cells]. *)
Definition cell_layout : list (string * Q * Q) :=
  [(font_bold, fs_tarjeta, col_width 0 - 2 * pad_x);
   (font_body, fs_body, col_width 4 - 2 * pad_x);
   (font_body, fs_body, col_width 5 - 2 * pad_x);
   (font_body, fs_body, col_width 6 - 2 * pad_x);
   (font_body, fs_body, col_width 7 - 2 * pad_x)].

Lemma wrap_lines_all_fit gw (text : str) fn (fsz mw : Q) :
  (∀ c, isspace c = true → 0 <= gw fn fsz c) →
  0 < mw →
  Forall (fits gw fn fsz mw) (wrap_lines gw text fn fsz mw).
Proof.
  intros Hblank Hmw.
  destruct (wrap_lines_cases gw fn fsz mw text) as [[-> _]|(_ & _ & ->)].
  - constructor; [|constructor]. left. unfold stringWidth. simpl. lra.
  - apply (flush_width gw fn fsz mw Hblank), (wrap_fold_width gw fn fsz mw Hblank).
    split; simpl; [constructor|left; reflexivity].
Qed.

(** X12. A row is never lower than the badge minimum of 34.56 points, and
    it is high enough for each of its cells: a cell wrapped to [n] lines
    needs [n * line_h + 2 * pad_y_cell], and the row has at least that. *)
Theorem compute_row_height_covers gw (r : row) :
  h_badge_min <= compute_row_height gw r
  ∧ h_badge_min == 34.56
  ∧ ∀ ls, In ls (row_cells gw r) →
      inject_Z (Z.of_nat (length ls)) * line_h + 2 * pad_y_cell
      <= compute_row_height gw r.
Proof.
  assert (Hmax : ∀ a b c, a <= Qmax (Qmax a b) c).
  { intros a b c. apply Qle_trans with (Qmax a b); apply Q.le_max_l. }
  split; [|split; [reflexivity|]].
  - unfold compute_row_height.
    apply Qle_trans with (Qmax (h_text gw r) h_badge_min);
      [apply Q.le_max_r|apply Q.le_max_l].
  - intros ls Hin. unfold compute_row_height.
    eapply Qle_trans; [|apply Hmax]. unfold h_text.
    assert (Hle : (length ls <= max_lines gw r)%nat).
    { unfold max_lines. apply RowHeight.fold_max_ge, in_map, Hin. }
    assert (HQ : inject_Z (Z.of_nat (length ls)) <= inject_Z (Z.of_nat (max_lines gw r))).
    { rewrite <- Zle_Qle. lia. }
    assert (Hlh : 0 < line_h) by reflexivity.
    nra.
Qed.

(** X13. In a table row every wrapped line of every cell is within the
    inner width of its column, or is a single character that alone is wider,
    when the advance widths of the blanks are not negative: the inner widths
    of the five text columns are positive. *)
Theorem row_cells_fit gw (r : row) :
  (∀ c, isspace c = true → 0 <= gw font_bold fs_tarjeta c) →
  (∀ c, isspace c = true → 0 <= gw font_body fs_body c) →
  Forall2 (fun ls lay =>
             0 < snd lay
             ∧ Forall (fun l => stringWidth gw l (fst (fst lay)) (snd (fst lay)) <= snd lay
                                ∨ ∃ c, l = [c]
                                       ∧ snd lay < stringWidth gw [c] (fst (fst lay)) (snd (fst lay)))
                 ls)
    (row_cells gw r) cell_layout.
Proof.
  intros Hbold Hbody. unfold row_cells, cell_layout.
  repeat (constructor;
          [split; [reflexivity|];
           apply wrap_lines_all_fit; [assumption|reflexivity]|]).
  constructor.
Qed.

Lemma row_cells_fit_witness :
  Forall2 (fun ls lay =>
             0 < snd lay
             ∧ Forall (fun l => stringWidth mono_width l (fst (fst lay)) (snd (fst lay)) <= snd lay
                                ∨ ∃ c, l = [c]
                                       ∧ snd lay < stringWidth mono_width [c] (fst (fst lay)) (snd (fst lay)))
                 ls)
    (row_cells mono_width (<["tarjeta" := chars "A001 camara principal del rodaje"]> ∅))
    cell_layout.
Proof.
  apply (row_cells_fit mono_width (<["tarjeta" := chars "A001 camara principal del rodaje"]> ∅)).
  - intros c _. vm_compute. discriminate.
  - intros c _. vm_compute. discriminate.
Defined.

End RowHeightMore.

(** ** The pages of the report: where the text is drawn *)

Module ReportMore.

Local Open Scope Q_scope.

(** A text drawn at a height between the last line of the card and the
    first. *)
Definition in_card (c : cmd) : Prop :=
  match c with
  | DrawString _ y _ _ _ => text_y_top - max_h + lh <= y ∧ y <= text_y_top
  | _ => True
  end.

Section Lines.

Variable glyph_width : string → Q → ascii → Q.
Variable has_unicode : bool.
Variable p : payload.

Lemma draw_runs_in_card y rs :
  text_y_top - max_h + lh <= y → y <= text_y_top →
  Forall in_card (draw_runs has_unicode y rs).
Proof.
  intros Hlo Hhi. unfold draw_runs. apply Forall_map, Forall_forall.
  intros r _. simpl. split; assumption.
Qed.

(** The lines of a page are drawn from [text_y_top] down, one line height
    apart, as long as a line fits in the height of the card. *)
Lemma report_lines_in_card fuel : ∀ start y used pg pg' off',
  y == text_y_top - used → 0 <= used →
  Forall in_card pg →
  report_lines glyph_width has_unicode p fuel start y used pg = Some (pg', off') →
  Forall in_card pg'.
Proof.
  induction fuel as [|fuel IH]; intros start y used pg pg' off' Hy Hused Hpg H;
    simpl in H.
  - destruct (_ && _); [discriminate|]. injection H as <- _. exact Hpg.
  - destruct (_ <? _)%nat; simpl in H; [|injection H as <- _; exact Hpg].
    destruct (Qle_bool (used + lh) max_h) eqn:Hfit; [|injection H as <- _; exact Hpg].
    apply Qle_bool_iff in Hfit.
    assert (Hlh : 0 < lh) by reflexivity.
    destruct (wrap_text_with_offsets _ _ _ _ _ _) as [[[line|] [ls|]] next].
    + eapply IH; [| | |exact H].
      * rewrite Hy. ring.
      * lra.
      * apply Forall_app. split; [exact Hpg|].
        apply draw_runs_in_card; lra.
    + injection H as <- _. exact Hpg.
    + injection H as <- _. exact Hpg.
    + injection H as <- _. exact Hpg.
Qed.

Lemma report_pages_in_card fuel : ∀ start page_num pages,
  report_pages glyph_width has_unicode p fuel start page_num = Some pages →
  Forall (Forall in_card) pages.
Proof.
  induction fuel as [|fuel IH]; intros start pn pages H.
  - simpl in H. destruct (_ <? _)%nat; [discriminate|]. injection H as <-. constructor.
  - cbn [report_pages] in H.
    destruct (_ <? _)%nat; [|injection H as <-; constructor].
    destruct (report_lines _ _ _ _ _ _ _ _) as [[pg off]|] eqn:Hl; [|discriminate].
    destruct (report_pages _ _ _ _ _ _) as [rest|] eqn:Hr; [|discriminate].
    injection H as <-. constructor; [|apply (IH _ _ _ Hr)].
    assert (Hy0 : text_y_top == text_y_top - 0) by ring.
    assert (Hu0 : 0 <= 0) by lra.
    assert (Hpg0 : Forall in_card [ReportFrame (report_title pn)])
      by (repeat constructor).
    apply (report_lines_in_card _ _ _ _ _ _ _ Hy0 Hu0 Hpg0 Hl).
Qed.

End Lines.

(** X14. On every page of the report, every run of the report text is drawn
    at a height between [text_y_top] and [text_y_top - max_h + lh], that is
    between 676.8 and 97.2 points: inside the card, whose bottom edge is at
    68.4 points. *)
Theorem report_text_in_card gw hu (p : payload) (fuel : nat) (pages : list page)
    (pg : page) (x y : Q) (t : str) (font : string) (size : Q) :
  render_report_pages gw hu p fuel = Some pages →
  In pg pages →
  In (DrawString x y t font size) pg →
  97.2 <= y ∧ y <= 676.8 ∧ card_y_top - card_h == 68.4.
Proof.
  intros H Hpg Hcmd.
  assert (Hall : Forall (Forall in_card) pages).
  { unfold render_report_pages in H. destruct (negb _).
    - injection H as <-. repeat constructor; reflexivity || (vm_compute; discriminate).
    - apply (report_pages_in_card _ _ _ _ _ _ _ H). }
  rewrite Forall_forall in Hall.
  specialize (Hall pg (proj2 (list_elem_of_In _ _) Hpg)).
  rewrite Forall_forall in Hall.
  specialize (Hall _ (proj2 (list_elem_of_In _ _) Hcmd)). simpl in Hall.
  assert (H1 : text_y_top - max_h + lh == 97.2) by reflexivity.
  assert (H2 : text_y_top == 676.8) by reflexivity.
  destruct Hall as [Hlo Hhi].
  split; [lra|]. split; [lra|reflexivity].
Qed.

Lemma report_text_in_card_witness :
  97.2 <= 676.8000 ∧ 676.8000 <= 676.8 ∧ card_y_top - card_h == 68.4.
Proof.
  apply (report_text_in_card mono_width false (Payload (chars "abc def") [(0, 3)%Z] []) 10
           [[ReportFrame "Reporte";
             DrawString 79.2000 676.8000 (chars "abc") "Helvetica-Bold" 10;
             DrawString (7536000 # 80000) 676.8000 (chars " def") "Helvetica" 10]]
           [ReportFrame "Reporte";
             DrawString 79.2000 676.8000 (chars "abc") "Helvetica-Bold" 10;
             DrawString (7536000 # 80000) 676.8000 (chars " def") "Helvetica" 10]
           79.2000 676.8000 (chars "abc") "Helvetica-Bold" 10).
  - vm_compute. reflexivity.
  - left. reflexivity.
  - right. left. reflexivity.
Defined.

End ReportMore.

(** ** Loading a report from a JSON object: what is accepted, and loading twice *)

Module DefaultsMore.

Import Defaults.

Lemma setdefault_present k v (m : gmap string json) :
  is_Some (m !! k) → setdefault k v m = m.
Proof. intros [w Hw]. unfold setdefault. rewrite Hw. reflexivity. Qed.

(** *** Loading what was loaded *)

Lemma load_row_again r r' : load_row r = Some r' → load_row r' = Some r'.
Proof.
  destruct r as [| | | | |m]; simpl; try discriminate. intros [= <-]. simpl.
  do 2 f_equal.
  rewrite !(setdefault_present _ _ (setdefault "proxies" _ _)); [reflexivity| | |];
    rewrite !setdefault_lookup; simpl; eauto.
Qed.

Lemma mapM_again {A : Type} (f : A → option A) (l l' : list A) :
  (∀ x y, f x = Some y → f y = Some y) →
  mapM f l = Some l' → mapM f l' = Some l'.
Proof.
  intros Hf H. apply mapM_Some in H. apply mapM_Some.
  induction H as [|x y l l' Hxy _ IH]; constructor; [|exact IH].
  apply (Hf x y Hxy).
Qed.

Lemma load_rows_again v v' : load_rows v = Some v' → load_rows v' = Some v'.
Proof.
  destruct v as [| | |x|l|m]; simpl; try discriminate.
  - case_decide; [|discriminate]. intros [= <-]. simpl.
    case_decide; [reflexivity|contradiction].
  - destruct (mapM load_row l) as [l'|] eqn:Hl; [|discriminate].
    simpl. intros [= <-]. simpl.
    rewrite (mapM_again load_row l l' load_row_again Hl). reflexivity.
  - case_decide; [|discriminate]. intros [= <-]. simpl.
    case_decide; [reflexivity|contradiction].
Qed.

Lemma load_day_again d d' : load_day d = Some d' → load_day d' = Some d'.
Proof.
  destruct d as [| | | | |m]; simpl; try discriminate.
  set (m2 := setdefault "rows" (JArr []) (setdefault "nombre" (JStr "Día") m)).
  destruct (m2 !! "rows") as [v|] eqn:Hv; [|discriminate].
  destruct (load_rows v) as [v'|] eqn:Hl; [|discriminate].
  simpl. intros [= <-]. simpl.
  assert (Hn : is_Some ((<["rows" := v']> m2) !! "nombre")).
  { rewrite lookup_insert_ne by discriminate. subst m2.
    rewrite !setdefault_lookup. simpl. eauto. }
  rewrite (setdefault_present "nombre" _ _ Hn).
  assert (Hr : (<["rows" := v']> m2) !! "rows" = Some v') by apply lookup_insert_eq.
  rewrite (setdefault_present "rows" _ _ (ex_intro _ v' Hr)), Hr.
  rewrite (load_rows_again v v' Hl). simpl.
  rewrite insert_insert_eq. reflexivity.
Qed.

Lemma source_dias_nonempty data : source_dias data ≠ [].
Proof.
  unfold source_dias. destruct (data !! "dias") as [[| | | |[|d ds]|]|]; discriminate.
Qed.

(** X15. Loading is idempotent: a record that [open_report] returned is
    loaded unchanged when it is saved and opened again. *)
Theorem open_report_again (data base : gmap string json) :
  open_report data = Some base → open_report base = Some base.
Proof.
  intros H.
  destruct (open_report_spec data base H) as (Hk & ds' & Hd & Hdays).
  assert (Hdom : ∀ k, is_Some (default_report !! k) → is_Some (base !! k)).
  { intros k Hsome. destruct (decide (k = "dias"%string)) as [->|Hne]; [eauto|].
    rewrite (Hk k Hne). destruct (data !! k); [eauto|exact Hsome]. }
  assert (Hunion : base ∪ default_report = base).
  { apply map_eq. intros k. rewrite lookup_union.
    destruct (base !! k) as [v|] eqn:Hb.
    - destruct (default_report !! k); reflexivity.
    - destruct (default_report !! k) as [w|] eqn:Hw; [|reflexivity].
      assert (is_Some (base !! k)) as [? ?] by (apply Hdom; rewrite Hw; eauto).
      congruence. }
  assert (Hne : ds' ≠ []).
  { intros ->. inversion Hdays as [Hs|]. symmetry in Hs.
    apply (source_dias_nonempty data Hs). }
  assert (Hagain : mapM load_day ds' = Some ds').
  { unfold open_report in H.
    pose proof (base_dias data) as Hbd. simpl in Hbd. rewrite Hbd in H.
    destruct (mapM load_day (source_dias data)) as [ds0|] eqn:Hm; [|discriminate].
    simpl in H. injection H as <-.
    rewrite setdefault_lookup in Hd. case_decide; [discriminate|].
    rewrite lookup_insert_eq in Hd. injection Hd as ->.
    apply (mapM_again load_day _ _ load_day_again Hm). }
  unfold open_report. rewrite Hunion, Hd.
  destruct ds' as [|d0 ds0]; [congruence|].
  rewrite Hd, Hagain. simpl. rewrite (insert_id base "dias" _ Hd).
  rewrite setdefault_present; [reflexivity|].
  apply Hdom. eexists. reflexivity.
Qed.

Lemma open_report_again_witness : open_report default_report = Some default_report.
Proof.
  apply (open_report_again ∅ default_report). vm_compute. reflexivity.
Defined.

(** X16. For a file that holds a JSON object whose "dias" is absent, or is
    not a list, or is the empty list, the loading steps always complete, and
    the record they give has the one day "Día 1" without rows of a fresh
    record. *)
Theorem open_report_default_dias (data : gmap string json) :
  match data !! "dias" with Some (JArr (_ :: _)) => False | _ => True end →
  ∃ base, open_report data = Some base ∧ base !! "dias" = Some default_dias.
Proof.
  intros Hd.
  assert (Hsrc : source_dias data
                 = [JObj (<["nombre" := JStr "Día 1"]> (<["rows" := JArr []]> ∅))]).
  { unfold source_dias. destruct (data !! "dias") as [[| | | |[|d ds]|]|];
      try reflexivity. contradiction. }
  unfold open_report. pose proof (base_dias data) as Hbd. simpl in Hbd.
  rewrite Hbd, Hsrc.
  assert (Hload : mapM load_day
                    [JObj (<["nombre" := JStr "Día 1"]> (<["rows" := JArr []]> ∅))]
                  = Some [JObj (<["nombre" := JStr "Día 1"]> (<["rows" := JArr []]> ∅))])
    by (vm_compute; reflexivity).
  rewrite Hload. simpl. eexists. split; [reflexivity|].
  rewrite setdefault_lookup. case_decide; [discriminate|]. apply lookup_insert_eq.
Qed.

Lemma open_report_default_dias_witness :
  ∃ base, open_report (<["dias" := JStr "ninguno"]> (<["proyecto" := JStr "Mi rodaje"]> ∅))
          = Some base
    ∧ base !! "dias" = Some default_dias.
Proof.
  apply (open_report_default_dias
           (<["dias" := JStr "ninguno"]> (<["proyecto" := JStr "Mi rodaje"]> ∅))).
  vm_compute. exact I.
Defined.

(** *** What the loader accepts *)

(** The rows of a day that the loader walks through without an exception:
    none, a list of objects, the empty string or the empty object. *)
Definition rows_accepted (o : option json) : Prop :=
  match o with
  | None => True
  | Some (JArr rs) => Forall row_wf rs
  | Some (JStr x) => x = ""%string
  | Some (JObj m) => m = ∅
  | Some _ => False
  end.

Definition day_accepted (d : json) : Prop :=
  ∃ m, d = JObj m ∧ rows_accepted (m !! "rows").

Lemma load_row_accepts r : is_Some (load_row r) ↔ row_wf r.
Proof.
  split.
  - intros [r' H]. destruct r; try discriminate. eexists. reflexivity.
  - apply load_row_total.
Qed.

Lemma load_rows_accepts v : is_Some (load_rows v) ↔ rows_accepted (Some v).
Proof.
  destruct v as [| | |x|l|m]; simpl;
    try (split; [intros [? ?]; discriminate|contradiction]).
  - case_decide as Hx.
    + split; [intros _; exact Hx|intros _; eauto].
    + split; [intros [? ?]; discriminate|intros; contradiction].
  - rewrite fmap_is_Some, mapM_is_Some. apply Forall_iff. intros r.
    apply load_row_accepts.
  - case_decide as Hm.
    + split; [intros _; exact Hm|intros _; eauto].
    + split; [intros [? ?]; discriminate|intros; contradiction].
Qed.

Lemma load_day_accepts d : is_Some (load_day d) ↔ day_accepted d.
Proof.
  destruct d as [| | | | |m];
    try (split; [intros [? ?]; discriminate|intros (? & ? & _); discriminate]).
  simpl. rewrite !setdefault_lookup. simpl.
  rewrite fmap_is_Some. unfold day_accepted.
  destruct (m !! "rows") as [v|] eqn:Hv; simpl.
  - rewrite load_rows_accepts. split.
    + intros H. exists m. rewrite Hv. split; [reflexivity|exact H].
    + intros (m' & [= <-] & H). rewrite Hv in H. exact H.
  - split.
    + intros _. exists m. rewrite Hv. split; [reflexivity|exact I].
    + intros _. eexists. reflexivity.
Qed.

(** X17. For a file that holds a JSON object, the loading steps complete
    exactly when every day they walk through is an object whose rows are
    absent, a list of objects, the empty string or the empty object; with
    any other day (one that is not an object, rows that are null, a number,
    a non-empty string or object, a row that is not an object) they raise,
    and the report shown stays as it was. *)
Theorem open_report_accepts (data : gmap string json) :
  is_Some (open_report data) ↔ Forall day_accepted (source_dias data).
Proof.
  unfold open_report. pose proof (base_dias data) as Hbd. simpl in Hbd.
  rewrite Hbd, fmap_is_Some, mapM_is_Some.
  apply Forall_iff. intros d. apply load_day_accepts.
Qed.

(** *** What the table shows *)

(** X18. The defaults the loader writes into a row are those the table of
    the editor shows for an absent field: a row shows the same nine values
    before and after loading. *)
Theorem tree_row_values_loaded (m m' : gmap string json) :
  load_row (JObj m) = Some (JObj m') →
  tree_row_values m' = tree_row_values m.
Proof.
  intros H. apply load_row_loaded in H.
  destruct H as (m0 & m1 & [= <-] & [= <-] & Hk).
  unfold tree_row_values, TREE_COLUMNS. cbn [map fst snd].
  rewrite !Hk.
  repeat match goal with
         | |- context [decide (?k ∈ STATUS_FIELDS)] =>
             let b := eval vm_compute in (bool_decide (k ∈ STATUS_FIELDS)) in
             match b with
             | true => destruct (decide (k ∈ STATUS_FIELDS)) as [_|Hn];
                       [|exfalso; apply Hn; unfold STATUS_FIELDS;
                         rewrite !elem_of_cons; auto]
             | false => destruct (decide (k ∈ STATUS_FIELDS)) as [Hy|_];
                        [exfalso; unfold STATUS_FIELDS in Hy;
                         rewrite !elem_of_cons in Hy;
                         destruct Hy as [Hy|[Hy|[Hy|Hy]]];
                         [discriminate Hy..|apply elem_of_nil in Hy; exact Hy]|]
             end
         end.
  destruct (m !! "backup_b"), (m !! "backup_expo"), (m !! "proxies"); reflexivity.
Qed.

Lemma tree_row_values_loaded_witness :
  tree_row_values (<["proxies" := JStr "PENDIENTE"]>
                     (<["backup_expo" := JStr "PENDIENTE"]>
                        (<["backup_b" := JStr "PENDIENTE"]>
                           (<["tarjeta" := JStr "A001"]> ∅))))
  = tree_row_values (<["tarjeta" := JStr "A001"]> ∅).
Proof.
  apply (tree_row_values_loaded (<["tarjeta" := JStr "A001"]> ∅)).
  vm_compute. reflexivity.
Defined.

End DefaultsMore.

(** ** File names and sizes *)

Module FilesMore.

Import WordWrapper.

Lemma replace_spaces_no_space (x : str) : SPACE ∉ replace_spaces x.
Proof.
  unfold replace_spaces. induction x as [|c x IH]; simpl; [apply not_elem_of_nil|].
  apply not_elem_of_cons. split; [|exact IH].
  destruct (Ascii.eqb c SPACE) eqn:E; intros H.
  - discriminate H.
  - subst c. rewrite Ascii.eqb_refl in E. discriminate E.
Qed.

Lemma replace_spaces_ink c : ink c → (if Ascii.eqb c SPACE then Ascii.ascii_of_nat 95 else c) = c.
Proof.
  intros Hc. destruct (Ascii.eqb_spec c SPACE) as [->|_]; [|reflexivity].
  unfold ink in Hc. rewrite isspace_SPACE in Hc. discriminate.
Qed.

Lemma replace_spaces_ends (x : str) :
  (∀ c, head x = Some c → ink c) → (∀ c, last x = Some c → ink c) →
  (∀ c, head (replace_spaces x) = Some c → ink c)
  ∧ (∀ c, last (replace_spaces x) = Some c → ink c).
Proof.
  intros Hh Hl. unfold replace_spaces. split; intros c Hc.
  - destruct x as [|d x]; [discriminate|]. simpl in Hc. injection Hc as <-.
    rewrite replace_spaces_ink; apply Hh; reflexivity.
  - change (map ?f x) with (f <$> x) in Hc. rewrite fmap_last in Hc.
    destruct (last x) as [d|]; [|discriminate]. simpl in Hc. injection Hc as <-.
    rewrite replace_spaces_ink; apply Hl; reflexivity.
Qed.

Lemma file_stem_blank (proyecto : option str) :
  Forall (fun c => isspace c = true) (default [] proyecto) →
  file_stem proyecto = chars "reporte".
Proof.
  intros Hblank. destruct proyecto as [[|d x]|]; [reflexivity| |reflexivity].
  unfold file_stem. cbn [truthy].
  rewrite (WordWrapperMore.strip_blank (d :: x) Hblank). reflexivity.
Qed.

(** X19. The file name proposed for a report and used for its PDF is never
    empty, holds no space, and neither starts nor ends with white space;
    when the project name is absent, empty or blank it is "reporte". *)
Theorem file_stem_safe (proyecto : option str) :
  file_stem proyecto ≠ []
  ∧ (SPACE ∉ file_stem proyecto)
  ∧ (∀ c, head (file_stem proyecto) = Some c → isspace c = false)
  ∧ (∀ c, last (file_stem proyecto) = Some c → isspace c = false)
  ∧ (Forall (fun c => isspace c = true) (default [] proyecto) →
     file_stem proyecto = chars "reporte").
Proof.
  assert (Hrep : chars "reporte" ≠ [] ∧ (SPACE ∉ chars "reporte")
                 ∧ (∀ c, head (chars "reporte") = Some c → isspace c = false)
                 ∧ (∀ c, last (chars "reporte") = Some c → isspace c = false)).
  { split; [discriminate|]. split.
    - intros H. repeat (apply elem_of_cons in H; destruct H as [H|H]; [discriminate H|]).
      apply elem_of_nil in H. exact H.
    - split; intros c [= <-]; reflexivity. }
  unfold file_stem.
  set (a := match proyecto with
            | Some x => if truthy x then x else chars "reporte"
            | None => chars "reporte"
            end).
  destruct (strip_spec a) as (_ & _ & _ & _ & _ & Hh & Hl).
  destruct (replace_spaces_ends (strip a) Hh Hl) as [Hh' Hl'].
  destruct (replace_spaces (strip a)) as [|c b] eqn:Hb; simpl.
  - destruct Hrep as (H1 & H2 & H3 & H4).
    split; [exact H1|]. split; [exact H2|]. split; [exact H3|]. split; [exact H4|].
    intros _. reflexivity.
  - split; [discriminate|]. split; [rewrite <- Hb; apply replace_spaces_no_space|].
    split; [exact Hh'|]. split; [exact Hl'|].
    intros Hblank. pose proof (file_stem_blank proyecto Hblank) as Hstem.
    unfold file_stem in Hstem. fold a in Hstem. rewrite Hb in Hstem. exact Hstem.
Qed.

Lemma file_stem_safe_witness : file_stem (Some (chars "   ")) = chars "reporte".
Proof.
  apply (file_stem_safe (Some (chars "   "))). repeat constructor.
Defined.

End FilesMore.

(** ** Sizes shown to the user *)

Module SizesMore.

Local Open Scope Z_scope.

Lemma round_half_even_compat (q q' : Q) :
  (q == q')%Q → round_half_even q = round_half_even q'.
Proof.
  destruct q as [a b], q' as [a' b']. unfold Qeq, round_half_even. simpl. intros H.
  assert (Hb : 0 < Z.pos b) by lia. assert (Hb' : 0 < Z.pos b') by lia.
  set (d := Z.pos b) in *. set (d' := Z.pos b') in *.
  assert (Hfl : a / d = a' / d').
  { rewrite <- (Z.div_mul_cancel_r a d d') by lia.
    rewrite H, (Z.mul_comm d d'). apply Z.div_mul_cancel_r; lia. }
  pose proof (Z.div_mod a d ltac:(lia)) as Ha.
  pose proof (Z.div_mod a' d' ltac:(lia)) as Ha'.
  pose proof (Z.mod_pos_bound a d Hb) as Hm.
  pose proof (Z.mod_pos_bound a' d' Hb') as Hm'.
  rewrite <- Hfl in *. 
  assert (Hmod : (a mod d) * d' = (a' mod d') * d) by nia.
  destruct (Z.ltb_spec (2 * (a mod d)) d), (Z.ltb_spec (2 * (a' mod d')) d');
    try reflexivity; try nia.
  destruct (Z.ltb_spec d (2 * (a mod d))), (Z.ltb_spec d' (2 * (a' mod d')));
    try reflexivity; nia.
Qed.

Lemma fmt2_compat (v v' : Q) : (v == v')%Q → fmt2 v = fmt2 v'.
Proof.
  intros H. unfold fmt2.
  rewrite (round_half_even_compat (v * 100) (v' * 100)); [reflexivity|].
  rewrite H. reflexivity.
Qed.

Lemma round_half_even_Z (z : Z) : round_half_even (inject_Z z) = z.
Proof.
  unfold round_half_even, inject_Z. simpl.
  rewrite Z.mod_1_r, Z.div_1_r. reflexivity.
Qed.

(** Rounding moves a value to one of the two integers around it. *)
Lemma round_half_even_bounds (q : Q) (lo hi : Z) :
  (inject_Z lo <= q)%Q → (q < inject_Z hi)%Q →
  lo <= round_half_even q <= hi.
Proof.
  destruct q as [a b]. unfold Qle, Qlt, round_half_even, inject_Z. simpl.
  intros Hlo Hhi.
  assert (Hb : 0 < Z.pos b) by lia. set (d := Z.pos b) in *.
  pose proof (Z.div_mod a d ltac:(lia)) as Ha.
  pose proof (Z.mod_pos_bound a d Hb) as Hm.
  assert (H1 : lo <= a / d) by (apply Z.div_le_lower_bound; lia).
  assert (H2 : a / d < hi) by (apply Z.div_lt_upper_bound; lia).
  destruct (_ <? _); [lia|]. destruct (_ <? _); [lia|]. destruct (Z.even _); lia.
Qed.

Lemma human_size_loop_next (unit : string) (rest : list string) (v : Q) :
  (1024 <= v)%Q →
  human_size_loop (unit :: rest) v = human_size_loop rest (v / 1024)%Q.
Proof.
  intros H. cbn [human_size_loop].
  apply Qle_bool_iff in H. rewrite H. reflexivity.
Qed.

Lemma human_size_loop_stop (unit : string) (rest : list string) (v : Q) :
  (v < 1024)%Q → unit ≠ "B"%string →
  human_size_loop (unit :: rest) v = (fmt2 v ++ " " ++ unit)%string.
Proof.
  intros H Hu. cbn [human_size_loop].
  destruct (Qle_bool 1024 v) eqn:E.
  - apply Qle_bool_iff in E. exfalso. apply (Qlt_not_le _ _ H E).
  - simpl. destruct (String.eqb_spec unit "B"); [contradiction|reflexivity].
Qed.

(** The number of bytes divided [k] times by 1024. *)
Definition scaled (n : N) (k : nat) : Q :=
  (inject_Z (Z.of_N n) / inject_Z (1024 ^ Z.of_nat k))%Q.

Lemma Q_of_bounds (n : N) (lo hi : Z) :
  lo <= Z.of_N n → Z.of_N n < hi →
  (inject_Z lo <= inject_Z (Z.of_N n))%Q ∧ (inject_Z (Z.of_N n) < inject_Z hi)%Q.
Proof. intros Hlo Hhi. rewrite <- Zle_Qle, <- Zlt_Qlt. split; assumption. Qed.

Ltac qsolve := unfold Qdiv; change (/ 1024)%Q with (1 # 1024)%Q; lra.

(** One case of the loop: [E] says that the divisions made by the loop give
    the scaled value. *)
Ltac size_case E :=
  rewrite <- (fmt2_compat _ _ E);
  rewrite <- (round_half_even_compat _ _ (Qmult_comp _ _ E _ _ (Qeq_refl 100)));
  repeat rewrite human_size_loop_next by qsolve;
  first [rewrite human_size_loop_stop; [|qsolve|discriminate]
        |cbn [human_size_loop]];
  split; [reflexivity|];
  apply round_half_even_bounds; cbv [inject_Z]; qsolve.

(** X20. [human_size] picks the unit by the magnitude of the number of
    bytes. Below 1024 it prints the number itself and "B". From [1024^k] up
    to [1024^(k+1)], for [k] from 1 to 4, and from [1024^5] on for [k = 5],
    it prints the number divided by [1024^k], rounded to hundredths, and the
    [k]-th unit of KB, MB, GB, TB, PB; the number printed is between 1.00
    and 1024.00, the latter reached by rounding. The number of bytes is
    below [2^53], where the divisions are exact in floating point. *)
Theorem human_size_unit (n : N) :
  Z.of_N n < 2 ^ 53 →
  (Z.of_N n < 1024 → human_size n = (dec (N.to_nat n) ++ " B")%string)
  ∧ ∀ (k : nat) (unit : string),
      nth_error ["KB"; "MB"; "GB"; "TB"; "PB"]%string k = Some unit →
      1024 ^ Z.of_nat (S k) <= Z.of_N n →
      ((k < 4)%nat → Z.of_N n < 1024 ^ Z.of_nat (S (S k))) →
      human_size n = (fmt2 (scaled n (S k)) ++ " " ++ unit)%string
      ∧ 100 <= round_half_even (scaled n (S k) * 100) <= 102400.
Proof.
  intros Hn. split.
  - intros H. unfold human_size. cbn [human_size_loop].
    destruct (Qle_bool 1024 (inject_Z (Z.of_N n))) eqn:E.
    + apply Qle_bool_iff in E. change 1024%Q with (inject_Z 1024) in E.
      rewrite <- Zle_Qle in E. lia.
    + simpl. unfold fmt0. rewrite round_half_even_Z.
      replace (Z.to_nat (Z.of_N n)) with (N.to_nat n) by lia. reflexivity.
  - intros k unit Hu Hlo Hhi.
    destruct k as [|[|[|[|[|k]]]]]; simpl in Hu;
      [injection Hu as <-..|destruct k; discriminate Hu].
    + specialize (Hhi ltac:(lia)).
      destruct (Q_of_bounds n 1024 1048576 Hlo Hhi) as [L U].
      unfold human_size. set (q := inject_Z (Z.of_N n)) in *. cbv [inject_Z] in L, U.
      assert (E : (q / 1024 == scaled n 1)%Q) by reflexivity.
      size_case E.
    + specialize (Hhi ltac:(lia)).
      destruct (Q_of_bounds n 1048576 1073741824 Hlo Hhi) as [L U].
      unfold human_size. set (q := inject_Z (Z.of_N n)) in *. cbv [inject_Z] in L, U.
      assert (E : (q / 1024 / 1024 == scaled n 2)%Q).
      { unfold scaled. fold q. change (inject_Z (1024 ^ Z.of_nat 2)) with (1048576%Q).
        field. }
      size_case E.
    + specialize (Hhi ltac:(lia)).
      destruct (Q_of_bounds n 1073741824 1099511627776 Hlo Hhi) as [L U].
      unfold human_size. set (q := inject_Z (Z.of_N n)) in *. cbv [inject_Z] in L, U.
      assert (E : (q / 1024 / 1024 / 1024 == scaled n 3)%Q).
      { unfold scaled. fold q. change (inject_Z (1024 ^ Z.of_nat 3)) with (1073741824%Q).
        field. }
      size_case E.
    + specialize (Hhi ltac:(lia)).
      destruct (Q_of_bounds n 1099511627776 1125899906842624 Hlo Hhi) as [L U].
      unfold human_size. set (q := inject_Z (Z.of_N n)) in *. cbv [inject_Z] in L, U.
      assert (E : (q / 1024 / 1024 / 1024 / 1024 == scaled n 4)%Q).
      { unfold scaled. fold q.
        change (inject_Z (1024 ^ Z.of_nat 4)) with (1099511627776%Q). field. }
      size_case E.
    + clear Hhi.
      destruct (Q_of_bounds n 1125899906842624 9007199254740992 Hlo Hn) as [L U].
      unfold human_size. set (q := inject_Z (Z.of_N n)) in *. cbv [inject_Z] in L, U.
      assert (E : (q / 1024 / 1024 / 1024 / 1024 / 1024 == scaled n 5)%Q).
      { unfold scaled. fold q.
        change (inject_Z (1024 ^ Z.of_nat 5)) with (1125899906842624%Q). field. }
      size_case E.
Qed.

Lemma human_size_unit_witness :
  human_size 1048575 = (fmt2 (scaled 1048575 1) ++ " " ++ "KB")%string
  ∧ 100 <= round_half_even (scaled 1048575 1 * 100) <= 102400.
Proof.
  apply (proj2 (human_size_unit 1048575 ltac:(reflexivity)) 0%nat "KB"%string);
    [reflexivity|vm_compute; discriminate|intros _; reflexivity].
Defined.

End SizesMore.
